(** * sublimedsl.keymap: a DSL for SublimeText key bindings

    A shallow embedding of [sublimedsl/keymap.py].  The three classes of the
    module ([Keymap], [Binding], [Context]) are mutable Python objects that
    refer to each other, so the embedding keeps an explicit object store:
    every instance lives at an address, attribute assignment rewrites the
    store, and two names for one address are two names for one object.  The
    methods are written in a small state-and-exception monad over that
    store and keep the names they have in the source.

    A JSON document is kept as a tree.  How [json.dumps] lays the tree out
    as text (the indentation [jsonify] asks for) and [Keymap.dump], which
    writes that text after a fixed header line, are outside the model. *)

From stdpp Require Import list strings gmap.
From Stdlib Require Import ZArith Sorted.

Set Warnings "-register-all".

(** ** Python values and JSON documents *)

(** Plain Python data over embedded instances of type [O]: what an
    attribute can hold.  [pyval Empty_set] is data without instances (an
    operand, the keyword arguments of a command). *)
Inductive pyval (O : Type) : Type :=
| PNone
| PBool (b : bool)
| PInt (n : Z)
| PStr (s : string)
| PList (l : list (pyval O))
| PTuple (l : list (pyval O))
| PDict (d : list (string * pyval O))
| PObj (o : O).

Arguments PNone {O}.
Arguments PBool {O} b.
Arguments PInt {O} n.
Arguments PStr {O} s.
Arguments PList {O} l.
Arguments PTuple {O} l.
Arguments PDict {O} d.
Arguments PObj {O} o.

Definition pydata : Type := pyval Empty_set.

(** The document [json.dumps] writes, before it is laid out as text. *)
Inductive json : Type :=
| JNull
| JBool (b : bool)
| JNum (n : Z)
| JStr (s : string)
| JArr (l : list json)
| JObj (members : list (string * json)).

(** ** Instances and the object store *)

(** Addresses of Context, Binding and Keymap instances. *)
Abbreviation cref := nat (only parsing).
Abbreviation bref := nat (only parsing).
Abbreviation kref := nat (only parsing).

(** [Context.__init__] gives an instance these five attributes. *)
Record Context : Type := mkContext {
  key : string;
  operator : option string;
  operand : pydata;
  match_all : option bool;
  _parent : option bref
}.

(** [Binding.__init__]: [keys] is the tuple of positional arguments, [args]
    starts as the empty list and becomes the keyword dict in [to], and
    [context] is the list of the binding's Context instances. *)
Record Binding : Type := mkBinding {
  keys : list string;
  command : option string;
  args : pydata;
  context : list cref
}.

Record Keymap : Type := mkKeymap {
  _default_match_all : option bool;
  _common_context : list cref;
  _bindings : list bref
}.

Record heap : Type := mkHeap {
  contexts : list Context;
  bindings : list Binding;
  keymaps : list Keymap
}.

Definition empty_heap : heap := mkHeap [] [] [].

(** Exceptions.  [AttributeError] and [TypeError] are Python's.  The other
    two are the embedding's own: [NoSuchObject] is its answer to an address
    that names no instance, which no Python program can produce, and
    [Unmodelled] its answer to a call it does not follow, that of a method
    Python gives every object. *)
Inductive exn : Type := AttributeError | TypeError | NoSuchObject | Unmodelled.

Inductive result (A : Type) : Type :=
| Ok (a : A)
| Raise (e : exn).

Arguments Ok {A} a.
Arguments Raise {A} e.

Definition Py (A : Type) : Type := heap -> result (A * heap).

Definition ret {A} (a : A) : Py A := fun h => Ok (a, h).

Definition raise {A} (e : exn) : Py A := fun _ => Raise e.

Definition bind {A B} (m : Py A) (k : A -> Py B) : Py B :=
  fun h => match m h with
           | Ok (a, h') => k a h'
           | Raise e => Raise e
           end.

Notation "'do' x <- m ; k" := (bind m (fun x => k))
  (at level 10, x name, m at level 100, k at level 200).
Notation "'do_' m ; k" := (bind m (fun _ => k))
  (at level 10, m at level 100, k at level 200).

(** A [for] loop whose body only acts on the store. *)
Fixpoint for_each {A} (l : list A) (body : A -> Py unit) : Py unit :=
  match l with
  | [] => ret tt
  | x :: l' => do_ body x; for_each l' body
  end.

Definition get_context (c : cref) : Py Context :=
  fun h => match contexts h !! c with
           | Some x => Ok (x, h)
           | None => Raise NoSuchObject
           end.

Definition put_context (c : cref) (x : Context) : Py unit :=
  fun h => Ok (tt, mkHeap (<[c := x]> (contexts h)) (bindings h) (keymaps h)).

Definition new_context (x : Context) : Py cref :=
  fun h => Ok (length (contexts h),
               mkHeap (contexts h ++ [x]) (bindings h) (keymaps h)).

Definition get_binding (b : bref) : Py Binding :=
  fun h => match bindings h !! b with
           | Some x => Ok (x, h)
           | None => Raise NoSuchObject
           end.

Definition put_binding (b : bref) (x : Binding) : Py unit :=
  fun h => Ok (tt, mkHeap (contexts h) (<[b := x]> (bindings h)) (keymaps h)).

Definition new_binding (x : Binding) : Py bref :=
  fun h => Ok (length (bindings h),
               mkHeap (contexts h) (bindings h ++ [x]) (keymaps h)).

Definition get_keymap (k : kref) : Py Keymap :=
  fun h => match keymaps h !! k with
           | Some x => Ok (x, h)
           | None => Raise NoSuchObject
           end.

Definition put_keymap (k : kref) (x : Keymap) : Py unit :=
  fun h => Ok (tt, mkHeap (contexts h) (bindings h) (<[k := x]> (keymaps h))).

Definition new_keymap (x : Keymap) : Py kref :=
  fun h => Ok (length (keymaps h),
               mkHeap (contexts h) (bindings h) (keymaps h ++ [x])).

(** ** class Context *)

Module Context.

Definition _OPERATORS : list string :=
  ["equal"; "not_equal"; "regex_match"; "not_regex_match";
   "regex_contains"; "not_regex_contains"].

Definition __init__ (key : string) (parent : option bref) : Py cref :=
  new_context (mkContext key None PNone None parent).

Definition all (self : cref) : Py cref :=
  do c <- get_context self;
  do_ put_context self
        (mkContext (key c) (operator c) (operand c) (Some true) (_parent c));
  ret self.

Definition any (self : cref) : Py cref :=
  do c <- get_context self;
  do_ put_context self
        (mkContext (key c) (operator c) (operand c) (Some false) (_parent c));
  ret self.

(** [return self._parent or self]: the parent is [None] or a Binding; class
    Binding defines neither [__bool__] nor [__len__], so a Binding is
    always true and [or] yields it. *)
Definition _operator (self : cref) (operator : string) (operand : pydata)
  : Py (bref + cref) :=
  do c <- get_context self;
  do_ put_context self
        (mkContext (key c) (Some operator) operand (match_all c) (_parent c));
  ret (match _parent c with
       | Some parent => inl parent
       | None => inr self
       end).

Definition true (self : cref) : Py (bref + cref) :=
  _operator self "equal" (PBool Datatypes.true).

Definition false (self : cref) : Py (bref + cref) :=
  _operator self "equal" (PBool Datatypes.false).

(** The names [__init__] sets on the instance and the names the class body
    defines.  Python finds these, and the names every object has (which
    all start with two underscores), without asking [__getattr__]. *)
Definition defined_attrs : list string :=
  ["key"; "operator"; "operand"; "match_all"; "_parent";
   "_OPERATORS"; "__init__"; "all"; "any"; "true"; "false"; "_operator";
   "__getattr__"; "__str__"].

(** Python runs [__getattr__] for a name that the instance and the class
    do not define; the result for an operator name is
    [partial(self._operator, name)], a function still waiting for the
    operand. *)
Definition __getattr__ (self : cref) (name : string)
  : Py (pydata -> Py (bref + cref)) :=
  if bool_decide (name ∈ _OPERATORS)
  then ret (_operator self name)
  else raise AttributeError.

(** A name with two leading underscores: one of those Python keeps for
    itself and gives every object ([__eq__], [__class__], ...), or one of
    [__init__], [__getattr__], [__str__]. *)
Definition is_dunder (name : string) : bool := String.prefix "__" name.

(** [getattr(ctx, name)(operand)], a call with one argument of whatever
    the condition has under [name].  Python looks in the instance and in
    the class first and runs [__getattr__] only for a name it finds in
    neither.  Of the names it finds there, the five attributes and
    [_OPERATORS] hold a string, [None], a boolean, a list or a Binding,
    none of which can be called; [all], [any], [true] and [false] take no
    argument and [_operator] takes two: with one operand each of these
    calls is a [TypeError].  The names with two leading underscores are not
    followed. *)
Definition invoke (self : cref) (name : string) (operand : pydata)
  : Py (bref + cref) :=
  if is_dunder name then raise Unmodelled
  else if bool_decide (name ∈ defined_attrs) then raise TypeError
  else
    do f <- __getattr__ self name;
    f operand.

(** The class defines no [__eq__]: [==] between two instances is
    [object.__eq__], which compares identities. *)
Definition __eq__ (self other : cref) : bool := Nat.eqb self other.

End Context.

(** ** class Binding *)

Module Binding.

Definition __init__ (keys : list string) : Py bref :=
  new_binding (mkBinding keys None (PList []) []).

(** The keywords of a call [to(command, **args)], in the order given.
    Python binds them to the parameters [(self, command, **args)] before
    the body runs: a keyword named [self] or [command] is a second value
    for a parameter that has one, and a keyword given twice is a second
    value for itself.  Either is a [TypeError]. *)
Definition binds (args : list (string * pydata)) : bool :=
  bool_decide (NoDup (map fst args))
  && negb (bool_decide ("self" ∈ map fst args))
  && negb (bool_decide ("command" ∈ map fst args)).

Definition to (self : bref) (command : string) (args : list (string * pydata))
  : Py bref :=
  do b <- get_binding self;
  if binds args then
    do_ put_binding self
          (mkBinding (keys b) (Some command) (PDict args) (context b));
    ret self
  else raise TypeError.

Definition when (self : bref) (key : string) : Py cref :=
  do ctx <- Context.__init__ key (Some self);
  do b <- get_binding self;
  do_ put_binding self
        (mkBinding (keys b) (command b) (args b) (context b ++ [ctx]));
  ret ctx.

Definition also := when.
Definition and_ := when.

End Binding.

(** ** The helpers of the module and class KeymapJSONEncoder *)

(** A computation that can raise and leaves the store alone. *)
Definition rbind {A B} (m : result A) (k : A -> result B) : result B :=
  match m with
  | Ok a => k a
  | Raise e => Raise e
  end.

Fixpoint rmap {A B} (f : A -> result B) (l : list A) : result (list B) :=
  match l with
  | [] => Ok []
  | x :: l' => rbind (f x) (fun y => rbind (rmap f l') (fun ys => Ok (y :: ys)))
  end.

(** [funcy.isnone], [funcy.isa(list, dict)] and [funcy.isa(dict)]. *)
Definition isnone {O} (v : pyval O) : bool :=
  match v with PNone => true | _ => false end.

Definition isa_list_dict {O} (v : pyval O) : bool :=
  match v with PList _ | PDict _ => true | _ => false end.

Definition isa_dict {O} (v : pyval O) : bool :=
  match v with PDict _ => true | _ => false end.

(** Python's [len]: strings, lists, tuples and dicts have one; [None],
    booleans, integers and the instances of this module do not. *)
Definition len {O} (v : pyval O) : result nat :=
  match v with
  | PStr s => Ok (String.length s)
  | PList l | PTuple l => Ok (length l)
  | PDict d => Ok (length d)
  | _ => Raise TypeError
  end.

Definition isempty {O} (obj : pyval O) : result bool :=
  rbind (len obj) (fun n => Ok (Nat.eqb n 0)).

(** [funcy.all_fn(p, q)]: [q] is asked only where [p] holds. *)
Definition all_fn {V} (p : V -> bool) (q : V -> result bool) (v : V)
  : result bool :=
  if p v then q v else Ok false.

(** [select_values(complement(pred), col)] over a sequence of pairs. *)
Fixpoint remove_values {V} (pred : V -> result bool) (col : list (string * V))
  : result (list (string * V)) :=
  match col with
  | [] => Ok []
  | (a, v) :: col' =>
      rbind (pred v) (fun drop =>
      rbind (remove_values pred col') (fun rest =>
      Ok (if drop then rest else (a, v) :: rest)))
  end.

Definition walk_values {V} (f : V -> V) (col : list (string * V))
  : list (string * V) :=
  map (fun p => (fst p, f (snd p))) col.

(** [sorted(dic.items(), key=first)]: a stable sort on the keys, which
    Python compares as strings, code point by code point. *)
Fixpoint sorted_insert {V} (p : string * V) (l : list (string * V))
  : list (string * V) :=
  match l with
  | [] => [p]
  | q :: l' => if String.ltb (fst p) (fst q) then p :: q :: l'
               else q :: sorted_insert p l'
  end.

Definition sorted_by_first {V} (l : list (string * V)) : list (string * V) :=
  fold_left (fun acc p => sorted_insert p acc) l [].

Definition sort_dict {O} (dic : pyval O) : pyval O :=
  match dic with
  | PDict d => PDict (sorted_by_first d)
  | other => other
  end.

(** [funcy.iffy(isa(dict), sort_dict)]. *)
Definition iffy_dict_sort {O} (v : pyval O) : pyval O :=
  if isa_dict v then sort_dict v else v.

(** [getattr(obj, attr)] for the attributes [__init__] sets. *)
Definition getattr_Context (obj : Context) (attr : string) : result pydata :=
  if String.eqb attr "key" then Ok (PStr (key obj))
  else if String.eqb attr "operator" then
    Ok (match operator obj with Some s => PStr s | None => PNone end)
  else if String.eqb attr "operand" then Ok (operand obj)
  else if String.eqb attr "match_all" then
    Ok (match match_all obj with Some b => PBool b | None => PNone end)
  else Raise AttributeError.

(** Data is the same value wherever instances may stand too. *)
Fixpoint lift_data {O} (v : pydata) : pyval O :=
  match v with
  | PNone => PNone
  | PBool b => PBool b
  | PInt n => PInt n
  | PStr s => PStr s
  | PList l => PList (map lift_data l)
  | PTuple l => PTuple (map lift_data l)
  | PDict d => PDict (map (fun p => (fst p, lift_data (snd p))) d)
  | PObj o => match o with end
  end.

Definition getattr_Binding (obj : Binding) (attr : string)
  : result (pyval cref) :=
  if String.eqb attr "keys" then Ok (PTuple (map PStr (keys obj)))
  else if String.eqb attr "command" then
    Ok (match command obj with Some s => PStr s | None => PNone end)
  else if String.eqb attr "args" then Ok (lift_data (args obj))
  else if String.eqb attr "context" then Ok (PList (map PObj (context obj)))
  else Raise AttributeError.

Module KeymapJSONEncoder.

(** The pipe [ordered_attrs] of [default], closed over [obj] through its
    attribute lookup. *)
Definition ordered_attrs {O} (getattr : string -> result (pyval O))
  (attrs : list string) : result (list (string * pyval O)) :=
  rbind (rmap (fun attr => rbind (getattr attr) (fun v => Ok (attr, v))) attrs)
    (fun col =>
  rbind (remove_values (fun v => Ok (isnone v)) col) (fun col =>
  rbind (remove_values (all_fn isa_list_dict isempty) col) (fun col =>
  Ok (walk_values iffy_dict_sort col)))).

(** The two [isinstance] branches of [default]. *)
Definition default_Context (obj : Context) : result (list (string * pydata)) :=
  ordered_attrs (getattr_Context obj) ["key"; "operator"; "operand"; "match_all"].

Definition default_Binding (obj : Binding) : result (list (string * pyval cref)) :=
  ordered_attrs (getattr_Binding obj) ["keys"; "command"; "args"; "context"].

End KeymapJSONEncoder.

(** [json.dumps]: [None] is [null], lists and tuples are arrays, dicts are
    objects, and an instance is what [enc_obj] makes of it. *)
Fixpoint dumps {O} (enc_obj : O -> result json) (v : pyval O) : result json :=
  match v with
  | PNone => Ok JNull
  | PBool b => Ok (JBool b)
  | PInt n => Ok (JNum n)
  | PStr s => Ok (JStr s)
  | PList l | PTuple l =>
      rbind ((fix go (l : list (pyval O)) : result (list json) :=
                match l with
                | [] => Ok []
                | x :: l' => rbind (dumps enc_obj x) (fun y =>
                             rbind (go l') (fun ys => Ok (y :: ys)))
                end) l)
            (fun js => Ok (JArr js))
  | PDict d =>
      rbind ((fix go (d : list (string * pyval O)) : result (list (string * json)) :=
                match d with
                | [] => Ok []
                | p :: d' => rbind (dumps enc_obj (snd p)) (fun y =>
                             rbind (go d') (fun ys => Ok ((fst p, y) :: ys)))
                end) d)
            (fun ms => Ok (JObj ms))
  | PObj o => enc_obj o
  end.

(** An ordered dict of attributes becomes a JSON object, member by member. *)
Definition dumps_members {O} (enc_obj : O -> result json)
  (col : list (string * pyval O)) : result json :=
  rbind (rmap (fun p => rbind (dumps enc_obj (snd p)) (fun y => Ok (fst p, y))) col)
        (fun ms => Ok (JObj ms)).

Definition dumps_Context (obj : Context) : result json :=
  rbind (KeymapJSONEncoder.default_Context obj)
        (dumps_members (fun o : Empty_set => match o with end)).

Definition dumps_Binding (h : heap) (obj : Binding) : result json :=
  rbind (KeymapJSONEncoder.default_Binding obj)
        (dumps_members (fun c => match contexts h !! c with
                                 | Some x => dumps_Context x
                                 | None => Raise NoSuchObject
                                 end)).

Definition lift_result {A} (r : result A) : Py A :=
  fun h => match r with
           | Ok a => Ok (a, h)
           | Raise e => Raise e
           end.

(** [jsonify] of a Context, of a Binding and of a list of Bindings. *)
Definition jsonify_Context (self : cref) : Py json :=
  do c <- get_context self;
  lift_result (dumps_Context c).

Definition jsonify_Binding (self : bref) : Py json :=
  fun h => (do b <- get_binding self; lift_result (dumps_Binding h b)) h.

Definition jsonify_list (self : list bref) : Py json :=
  fun h => match rmap (fun b => match bindings h !! b with
                                | Some x => dumps_Binding h x
                                | None => Raise NoSuchObject
                                end) self with
           | Ok js => Ok (JArr js, h)
           | Raise e => Raise e
           end.

(** ** class Keymap *)

(** What a caller passes as [*bindings]: Binding instances, possibly inside
    lists, tuples and other keymaps. *)
Inductive item : Type :=
| IBinding (b : bref)
| IList (l : list item)
| ITuple (l : list item)
| IKeymap (k : kref).

(** *** [copy.deepcopy]

    [deepcopy] rebuilds the object graph under its argument out of fresh
    instances, one for each instance it meets (its memo), so that sharing
    and cycles (a Context and its parent Binding) come out as they went in;
    nothing that existed before is touched.

    The instances met are the ones reachable from the argument: the
    bindings it names; for a keymap it names, the keymap, its bindings and
    its common context; then, from a binding, its context, and from a
    Context, its parent. *)

Definition node : Type := bref + cref.

Definition links (h : heap) (x : node) : list node :=
  match x with
  | inl b => match bindings h !! b with
             | Some B => map inr (context B)
             | None => []
             end
  | inr c => match contexts h !! c with
             | Some C => match _parent C with
                         | Some parent => [inl parent]
                         | None => []
                         end
             | None => []
             end
  end.

Definition grow (h : heap) (R : gset node) : gset node :=
  R ∪ list_to_set (concat (map (links h) (elements R))).

Fixpoint close (h : heap) (n : nat) (R : gset node) : gset node :=
  match n with
  | O => R
  | S n' => close h n' (grow h R)
  end.

Fixpoint item_keymaps (x : item) : list kref :=
  match x with
  | IBinding _ => []
  | IList l | ITuple l => concat (map item_keymaps l)
  | IKeymap k => [k]
  end.

Fixpoint item_roots (h : heap) (x : item) : list node :=
  match x with
  | IBinding b => [inl b]
  | IList l | ITuple l => concat (map (item_roots h) l)
  | IKeymap k => match keymaps h !! k with
                 | Some km => map inl (_bindings km)
                              ++ map inr (_common_context km)
                 | None => []
                 end
  end.

(** Every round of [grow] that is not the last adds an instance, so as
    many rounds as there are instances reach everything. *)
Definition reachable (h : heap) (seq : list item) : gset node :=
  close h (length (bindings h) + length (contexts h))
        (list_to_set (concat (map (item_roots h) seq))).

(** The copies are allocated after the instances in place, in the order of
    their originals: for a class with [n] instances, the copy of an
    instance met is at address [n + i], where [i] counts the instances met
    at lower addresses.  [count_kept keep i n] counts the addresses kept
    among the [n] from [i] on, and [select_from keep i l] keeps of [l],
    whose first element is at address [i], the elements at kept
    addresses. *)
Fixpoint count_kept (keep : nat -> bool) (i n : nat) : nat :=
  match n with
  | O => 0
  | S n' => (if keep i then 1 else 0) + count_kept keep (S i) n'
  end.

Fixpoint select_from {A} (keep : nat -> bool) (i : nat) (l : list A) : list A :=
  match l with
  | [] => []
  | x :: l' => if keep i then x :: select_from keep (S i) l'
               else select_from keep (S i) l'
  end.

(** What [deepcopy] has met, and where the copy of each instance is.  A
    keymap is met when the argument names it: no attribute holds one. *)
Record memo : Type := mkMemo {
  met_context : cref -> bool;
  met_binding : bref -> bool;
  met_keymap : kref -> bool;
  copy_context : cref -> cref;
  copy_binding : bref -> bref;
  copy_keymap : kref -> kref
}.

Definition deepcopy_memo (h : heap) (seq : list item) : memo :=
  let R := reachable h seq in
  let ks := concat (map item_keymaps seq) in
  let mc := fun c => bool_decide (inr c ∈ R) in
  let mb := fun b => bool_decide (inl b ∈ R) in
  let mk := fun k => bool_decide (k ∈ ks) in
  mkMemo mc mb mk
         (fun c => length (contexts h) + count_kept mc 0 c)
         (fun b => length (bindings h) + count_kept mb 0 b)
         (fun k => length (keymaps h) + count_kept mk 0 k).

(** The copy of an instance has the attribute values of its original, with
    the copy of every instance they name in its place. *)
Definition twin_Context (m : memo) (c : Context) : Context :=
  mkContext (key c) (operator c) (operand c) (match_all c)
            (option_map (copy_binding m) (_parent c)).

Definition twin_Binding (m : memo) (b : Binding) : Binding :=
  mkBinding (keys b) (command b) (args b) (map (copy_context m) (context b)).

Definition twin_Keymap (m : memo) (k : Keymap) : Keymap :=
  mkKeymap (_default_match_all k)
           (map (copy_context m) (_common_context k))
           (map (copy_binding m) (_bindings k)).

Fixpoint twin_item (m : memo) (x : item) : item :=
  match x with
  | IBinding b => IBinding (copy_binding m b)
  | IList l => IList (map (twin_item m) l)
  | ITuple l => ITuple (map (twin_item m) l)
  | IKeymap k => IKeymap (copy_keymap m k)
  end.

Definition twin_heap (m : memo) (h : heap) : heap :=
  mkHeap
    (contexts h ++ map (twin_Context m) (select_from (met_context m) 0 (contexts h)))
    (bindings h ++ map (twin_Binding m) (select_from (met_binding m) 0 (bindings h)))
    (keymaps h ++ map (twin_Keymap m) (select_from (met_keymap m) 0 (keymaps h))).

Definition deepcopy (x : list item) : Py (list item) :=
  fun h => let m := deepcopy_memo h x in
           Ok (map (twin_item m) x, twin_heap m h).

(** *** [funcy.lflatten(seq, follow=isa(list, tuple, Keymap))]

    A list or a tuple is unpacked in place; a Keymap is iterated, which
    [Keymap.__iter__] answers with its [_bindings]; a Binding is kept. *)
Fixpoint flatten_item (h : heap) (x : item) : result (list bref) :=
  match x with
  | IBinding b => Ok [b]
  | IList l | ITuple l =>
      (fix go (l : list item) : result (list bref) :=
         match l with
         | [] => Ok []
         | y :: l' => rbind (flatten_item h y) (fun ys =>
                      rbind (go l') (fun zs => Ok (ys ++ zs)))
         end) l
  | IKeymap k =>
      match keymaps h !! k with
      | Some km => Ok (_bindings km)
      | None => Raise NoSuchObject
      end
  end.

Fixpoint flatten_seq (h : heap) (seq : list item) : result (list bref) :=
  match seq with
  | [] => Ok []
  | y :: seq' => rbind (flatten_item h y) (fun ys =>
                 rbind (flatten_seq h seq') (fun zs => Ok (ys ++ zs)))
  end.

Definition lflatten (seq : list item) : Py (list bref) :=
  fun h => lift_result (flatten_seq h seq) h.

(** The flat ordered list of a batch, in the words of the specification
    and not by the traversal above: a binding stands for itself, a list or
    a tuple for what its members stand for, from left to right, and a
    keymap for the bindings it holds, in their order. *)
Fixpoint bindings_in (h : heap) (x : item) : list bref :=
  match x with
  | IBinding b => [b]
  | IList l | ITuple l => concat (map (bindings_in h) l)
  | IKeymap k => match keymaps h !! k with
                 | Some km => _bindings km
                 | None => []
                 end
  end.

Definition batch (h : heap) (seq : list item) : list bref :=
  concat (map (bindings_in h) seq).

Module Keymap.

Definition _apply_common_context (self : kref) (bindings : list bref)
  : Py (list bref) :=
  do_ for_each bindings (fun binding =>
        do k <- get_keymap self;
        do b <- get_binding binding;
        put_binding binding
          (mkBinding (keys b) (command b) (args b)
                     (context b ++ _common_context k)));
  ret bindings.

Definition _apply_default_match_all (self : kref) (bindings : list bref)
  : Py (list bref) :=
  do_ for_each bindings (fun binding =>
        do b <- get_binding binding;
        for_each (context b) (fun context =>
          do c <- get_context context;
          match match_all c with
          | None =>
              do k <- get_keymap self;
              put_context context
                (mkContext (key c) (operator c) (operand c)
                           (_default_match_all k) (_parent c))
          | Some _ => ret tt
          end));
  ret bindings.

Definition _preprocess (self : kref) (bindings : list item) : Py (list bref) :=
  do copied <- deepcopy bindings;
  do flat <- lflatten copied;
  do injected <- _apply_common_context self flat;
  _apply_default_match_all self injected.

(** The instance exists before [_preprocess] runs on it; [_bindings] is
    assigned last. *)
Definition __init__ (bindings : list item) (default_match_all : option bool)
  (common_context : list cref) : Py kref :=
  do self <- new_keymap (mkKeymap default_match_all common_context []);
  do processed <- _preprocess self bindings;
  do_ put_keymap self (mkKeymap default_match_all common_context processed);
  ret self.

Definition to_json (self : kref) : Py json :=
  do k <- get_keymap self;
  jsonify_list (_bindings k).

(** The body has no [return]: the call yields [None]. *)
Definition extend (self : kref) (bindings : list item) : Py (option kref) :=
  do processed <- _preprocess self bindings;
  do k <- get_keymap self;
  do_ put_keymap self
        (mkKeymap (_default_match_all k) (_common_context k)
                  (_bindings k ++ processed));
  ret None.

Definition __iter__ (self : kref) : Py (list bref) :=
  do k <- get_keymap self;
  ret (_bindings k).

Definition __lshift__ (self : kref) (binding : bref) : Py (option kref) :=
  do_ extend self [IList [IBinding binding]];
  ret None.

Definition __len__ (self : kref) : Py nat :=
  do k <- get_keymap self;
  ret (length (_bindings k)).

(** Attribute lookup on a Keymap instance: the attributes [__init__] sets,
    then what the class body defines (what every Python object has, such
    as [__class__], is left out).  The class has no [__getattr__], so any
    other name is an [AttributeError]; the lookup answers with the name it
    found. *)
Definition instance_attrs : list string :=
  ["_default_match_all"; "_common_context"; "_bindings"].

Definition class_attrs : list string :=
  ["__init__"; "to_json"; "dump"; "extend"; "_preprocess";
   "_apply_common_context"; "_apply_default_match_all"; "__iter__";
   "__lshift__"; "__len__"; "__str__"].

Definition getattr (self : kref) (name : string) : Py string :=
  do_ get_keymap self;
  if bool_decide (name ∈ instance_attrs ++ class_attrs)
  then ret name
  else raise AttributeError.

(** Calling what a lookup found, with no argument, where a JSON text is
    expected: only [to_json] fits. *)
Definition call0 (self : kref) (method : string) : Py json :=
  if String.eqb method "to_json" then to_json self else raise TypeError.

Definition __str__ (self : kref) : Py json :=
  do jsonify <- getattr self "jsonify";
  call0 self jsonify.

End Keymap.

(** ** Stores a Python program can build *)

(** No attribute holds an address that names nothing. *)
Definition wf_Context (h : heap) (c : Context) : bool :=
  match _parent c with
  | Some parent => parent <? length (bindings h)
  | None => true
  end.

Definition wf_Binding (h : heap) (b : Binding) : bool :=
  forallb (fun c => c <? length (contexts h)) (context b).

Definition wf_Keymap (h : heap) (k : Keymap) : bool :=
  forallb (fun c => c <? length (contexts h)) (_common_context k)
  && forallb (fun b => b <? length (bindings h)) (_bindings k).

Definition wf_heap (h : heap) : bool :=
  forallb (wf_Context h) (contexts h)
  && forallb (wf_Binding h) (bindings h)
  && forallb (wf_Keymap h) (keymaps h).

Fixpoint wf_item (h : heap) (x : item) : bool :=
  match x with
  | IBinding b => b <? length (bindings h)
  | IList l | ITuple l => forallb (wf_item h) l
  | IKeymap k => k <? length (keymaps h)
  end.

(** ** What a stored binding looks like from outside *)

(** The public attributes of a condition, and a binding with its
    conditions read from the store: what [==] on values and the encoder
    can see of them, addresses left out. *)
Definition condition : Type := string * option string * pydata * option bool.

Definition view_Context (c : Context) : condition :=
  (key c, operator c, operand c, match_all c).

Definition view_Binding (h : heap) (b : bref)
  : option (list string * option string * pydata * list condition) :=
  B ← bindings h !! b;
  cs ← mapM (fun c => view_Context <$> contexts h !! c) (context B);
  Some (keys B, command B, args B, cs).

(** [match_all] after the default has been applied to it. *)
Definition or_default (d : option bool) (m : option bool) : option bool :=
  match m with
  | None => d
  | Some v => Some v
  end.

Definition with_default (d : option bool) (c : Context) : Context :=
  mkContext (key c) (operator c) (operand c) (or_default d (match_all c))
            (_parent c).

(** How often [b] stands in [l]. *)
Fixpoint times (b : nat) (l : list nat) : nat :=
  match l with
  | [] => 0
  | x :: l' => (if Nat.eqb x b then 1 else 0) + times b l'
  end.

(** ** What [_preprocess] leaves in a stored binding *)

(** [c'] is a fresh instance with the public attributes of [c], the default
    [d] applied to [match_all]. *)
Definition copied_condition (d : option bool) (h h' : heap) (c' c : cref)
  : Prop :=
  length (contexts h) <= c'
  /\ exists C C',
       contexts h !! c = Some C
       /\ contexts h' !! c' = Some C'
       /\ view_Context C' = view_Context (with_default d C).

(** [c] is an instance that was there before, still at its address, with
    the default [d] applied to its own [match_all]. *)
Definition shared_condition (d : option bool) (h h' : heap) (c : cref)
  : Prop :=
  c < length (contexts h)
  /\ exists C,
       contexts h !! c = Some C
       /\ contexts h' !! c = Some (with_default d C).

(** [b'] is a fresh instance made from [b] for the keymap [km]: its
    context is copies of the conditions of [b] followed by the common
    conditions of [km] themselves. *)
Definition stored_binding (km : Keymap) (h h' : heap) (b' b : bref) : Prop :=
  length (bindings h) <= b'
  /\ exists B B' own,
       bindings h !! b = Some B
       /\ bindings h' !! b' = Some B'
       /\ keys B' = keys B /\ command B' = command B /\ args B' = args B
       /\ context B' = own ++ _common_context km
       /\ Forall2 (copied_condition (_default_match_all km) h h')
                  own (context B)
       /\ Forall (shared_condition (_default_match_all km) h h')
                 (_common_context km).

(** [c'] holds what [c] held, with the default [d] for [match_all] where
    it was unset and the value it had where it was set. *)
Definition defaulted_condition (d : option bool) (h h' : heap) (c' c : cref)
  : Prop :=
  exists C C',
    contexts h !! c = Some C
    /\ contexts h' !! c' = Some C'
    /\ key C' = key C /\ operator C' = operator C /\ operand C' = operand C
    /\ (match_all C = None -> match_all C' = d)
    /\ (forall v, match_all C = Some v -> match_all C' = Some v).

(** [b'], in the store [h'], is what the keymap [km] has made of the
    binding [b] of the store [h]: its conditions are those of [b], one for
    one and in order, followed by common conditions of [km], each of them
    with the default of [km] applied. *)
Definition defaulted_binding (km : Keymap) (h h' : heap) (b' b : bref)
  : Prop :=
  exists B B' own common,
    bindings h !! b = Some B
    /\ bindings h' !! b' = Some B'
    /\ context B' = own ++ common
    /\ Forall2 (defaulted_condition (_default_match_all km) h h')
               own (context B)
    /\ Forall (fun c => c ∈ _common_context km
                        /\ defaulted_condition (_default_match_all km) h h' c c)
              common.

(** An attribute value the encoder leaves out: [None], the empty list and
    the empty dict. *)
Definition left_out {O} (v : pyval O) : bool :=
  match v with
  | PNone | PList [] | PDict [] => true
  | _ => false
  end.

Definition emitted {O} (r : result (pyval O)) : bool :=
  match r with
  | Ok v => negb (left_out v)
  | Raise _ => false
  end.

(** A store for examples: a binding with two conditions, a binding with
    none, a condition of its own and a keymap that has it as its common
    context and [True] as its default. *)
Definition sample_heap : heap :=
  mkHeap
    [mkContext "setting.auto_match_enabled" (Some "equal") (PBool true)
               (Some false) (Some 0);
     mkContext "preceding_text" (Some "regex_contains") (PStr "_$")
               None (Some 0);
     mkContext "selector" (Some "equal") (PStr "text.asciidoc") None None]
    [mkBinding ["backspace"] (Some "run_macro_file")
               (PDict [("file", PStr "X")]) [0; 1];
     mkBinding ["super+k"] (Some "new_pane")
               (PDict [("move", PBool false)]) []]
    [mkKeymap (Some true) [2] []].

(** The same store, with a keymap that holds the two bindings. *)
Definition sample_heap_filled : heap :=
  mkHeap (contexts sample_heap) (bindings sample_heap)
         [mkKeymap (Some true) [2] [0; 1]].

(** The same store, with a keymap that has no default. *)
Definition sample_heap_no_default : heap :=
  mkHeap (contexts sample_heap) (bindings sample_heap) [mkKeymap None [2] []].

(** ** Notions the properties are stated with *)

(** Being the memo of a copy of [h]: the copies come after the instances
    in place, in the order of their originals. *)
Definition memo_of (m : memo) (h : heap) : Prop :=
  (forall c, copy_context m c
             = length (contexts h) + count_kept (met_context m) 0 c)
  /\ (forall b, copy_binding m b
                = length (bindings h) + count_kept (met_binding m) 0 b)
  /\ (forall k, copy_keymap m k
                = length (keymaps h) + count_kept (met_keymap m) 0 k).

(** [l], [n] times over. *)
Definition repeated {A} (n : nat) (l : list A) : list A :=
  concat (replicate n l).

(** A binding whose context has received [cc] [n] times. *)
Definition inject (cc : list cref) (n : nat) (B : Binding) : Binding :=
  mkBinding (keys B) (command B) (args B) (context B ++ repeated n cc).

(** What the loops make of the condition at address [c] after going over
    the addresses [S]. *)
Definition touch (d : option bool) (S : list cref) (c : cref) (C : Context)
  : Context :=
  if bool_decide (c ∈ S) then with_default d C else C.

(** The conditions the outer loop goes over. *)
Definition visited (h : heap) (bs : list bref) : list cref :=
  concat (map (fun b => match bindings h !! b with
                        | Some B => context B
                        | None => []
                        end) bs).

(** The view a stored binding must have: the attributes of the original
    [b], its conditions followed by the common conditions [cc] ([n]
    times), each with the default [d] applied to [match_all]. *)
Definition expected_view (h : heap) (d : option bool) (cc : list cref)
  (n : nat) (b : bref)
  : option (list string * option string * pydata * list condition) :=
  B ← bindings h !! b;
  cs ← mapM (fun c => view_Context ∘ with_default d <$> contexts h !! c)
            (context B ++ repeated n cc);
  Some (keys B, command B, args B, cs).

(** An encoding exists. *)
Definition dumpable {O} (enc : O -> result json) (v : pyval O) : Prop :=
  exists j, dumps enc v = Ok j.

(** The attributes [default] reads, in its order. *)
Definition attrs_of_Context (c : Context) : list (string * pydata) :=
  [("key", PStr (key c));
   ("operator", match operator c with Some s => PStr s | None => PNone end);
   ("operand", operand c);
   ("match_all", match match_all c with Some b => PBool b | None => PNone end)].

Definition attrs_of_Binding (b : Binding) : list (string * pyval cref) :=
  [("keys", PTuple (map PStr (keys b)));
   ("command", match command b with Some s => PStr s | None => PNone end);
   ("args", lift_data (args b));
   ("context", PList (map PObj (context b)))].

Definition kept {O} (col : list (string * pyval O)) : list (string * pyval O) :=
  walk_values iffy_dict_sort
    (List.filter (fun p => negb (left_out (snd p))) col).

(** The instances of the store, as nodes. *)
Definition universe (h : heap) : gset node :=
  list_to_set (map inl (seq 0 (length (bindings h)))
               ++ map inr (seq 0 (length (contexts h)))).

(** One [extend] after another; the result is the number of bindings in
    the batches, each flattened as it stands when its call is made. *)
Fixpoint extend_all (self : kref) (batches : list (list item)) : Py nat :=
  match batches with
  | [] => ret 0
  | seq :: rest =>
      do flat <- lflatten seq;
      do_ Keymap.extend self seq;
      do n <- extend_all self rest;
      ret (length flat + n)
  end.

(** [a] does not come after [b] in the order of Python's [str]; a
    sequence of pairs is in the order of its keys. *)
Definition key_le (a b : string) : Prop := String.ltb b a = false.

Definition by_key {V} (p q : string * V) : Prop := key_le (fst p) (fst q).

(** [json.dumps] on data without instances. *)
Definition dumps_data (v : pydata) : result json :=
  dumps (fun o : Empty_set => match o with end) v.

(** The member [name] of a JSON object, for an attribute that has a
    value. *)
Definition member (name : string) (j : option json) : list (string * json) :=
  match j with
  | Some j => [(name, j)]
  | None => []
  end.

(** The default [d] has nothing left to do on a condition; a keymap is
    settled when that is so for every condition of the bindings it
    holds. *)
Definition reached (d : option bool) (C : Context) : bool :=
  match d, match_all C with
  | Some _, None => false
  | _, _ => true
  end.

Definition settled (h : heap) (km : Keymap) : bool :=
  forallb (fun b =>
             match bindings h !! b with
             | Some B =>
                 forallb (fun c => match contexts h !! c with
                                   | Some C => reached (_default_match_all km) C
                                   | None => true
                                   end) (context B)
             | None => true
             end) (_bindings km).

(** * Properties *)

(** ** Stepping through the monad *)

Lemma bind_Ok {A B} (m : Py A) (k : A -> Py B) h a h' :
  m h = Ok (a, h') -> bind m k h = k a h'.
Proof. intros E. unfold bind. now rewrite E. Qed.

Lemma bind_Raise {A B} (m : Py A) (k : A -> Py B) h e :
  m h = Raise e -> bind m k h = Raise e.
Proof. intros E. unfold bind. now rewrite E. Qed.

Lemma get_context_Ok h c x :
  contexts h !! c = Some x -> get_context c h = Ok (x, h).
Proof. intros E. unfold get_context. now rewrite E. Qed.

Lemma get_binding_Ok h b x :
  bindings h !! b = Some x -> get_binding b h = Ok (x, h).
Proof. intros E. unfold get_binding. now rewrite E. Qed.

Lemma get_keymap_Ok h k x :
  keymaps h !! k = Some x -> get_keymap k h = Ok (x, h).
Proof. intros E. unfold get_keymap. now rewrite E. Qed.

Lemma lookup_new {A} (l : list A) (x : A) : (l ++ [x]) !! length l = Some x.
Proof. rewrite lookup_app_r by lia. now rewrite Nat.sub_diag. Qed.

(** ** Nested items *)

Lemma item_nested_ind (P : item -> Prop) :
  (forall b, P (IBinding b)) ->
  (forall l, Forall P l -> P (IList l)) ->
  (forall l, Forall P l -> P (ITuple l)) ->
  (forall k, P (IKeymap k)) ->
  forall x, P x.
Proof.
  intros Hb Hl Ht Hk.
  fix IH 1. intros [b | l | l | k].
  - apply Hb.
  - apply Hl. induction l as [| y l IHl]; constructor; [apply IH | exact IHl].
  - apply Ht. induction l as [| y l IHl]; constructor; [apply IH | exact IHl].
  - apply Hk.
Qed.

(** ** The memo of [deepcopy] *)

Lemma count_kept_split keep i a n :
  count_kept keep i (a + n) = count_kept keep i a + count_kept keep (i + a) n.
Proof.
  revert i. induction a as [| a IH]; intros i; simpl.
  - now rewrite Nat.add_0_r.
  - rewrite IH. replace (S i + a) with (i + S a) by lia. lia.
Qed.

Lemma count_kept_lt keep a a' :
  keep a = true -> a < a' -> count_kept keep 0 a < count_kept keep 0 a'.
Proof.
  intros Hk Hlt. replace a' with (a + S (a' - S a)) by lia.
  rewrite count_kept_split. simpl. rewrite Hk. lia.
Qed.

Lemma count_kept_inj keep a a' :
  keep a = true -> keep a' = true ->
  count_kept keep 0 a = count_kept keep 0 a' -> a = a'.
Proof.
  intros Ha Ha' E.
  destruct (Nat.lt_trichotomy a a') as [Hlt | [-> | Hlt]]; [| reflexivity |].
  - pose proof (count_kept_lt keep a a' Ha Hlt). lia.
  - pose proof (count_kept_lt keep a' a Ha' Hlt). lia.
Qed.

Lemma select_from_lookup {A} keep (l : list A) i a x :
  keep (i + a) = true -> l !! a = Some x ->
  select_from keep i l !! count_kept keep i a = Some x.
Proof.
  revert i a. induction l as [| y l IH]; intros i a Hk Hl; [discriminate |].
  destruct a as [| a]; simpl in *.
  - rewrite Nat.add_0_r in Hk. now rewrite Hk.
  - replace (i + S a) with (S i + a) in Hk by lia.
    destruct (keep i); simpl; now apply IH.
Qed.

Lemma deepcopy_memo_of h seq : memo_of (deepcopy_memo h seq) h.
Proof. repeat split. Qed.

Lemma copy_lookup {A} (f : A -> A) keep (l : list A) a x :
  keep a = true -> l !! a = Some x ->
  (l ++ map f (select_from keep 0 l)) !! (length l + count_kept keep 0 a)
  = Some (f x).
Proof.
  intros Hk Hl. rewrite lookup_app_r by lia.
  replace (length l + count_kept keep 0 a - length l)
    with (count_kept keep 0 a) by lia.
  rewrite list_lookup_fmap.
  now rewrite (select_from_lookup keep l 0 a x Hk Hl).
Qed.

Section twin.
Variables (m : memo) (h : heap).
Hypothesis Hm : memo_of m h.

Lemma twin_context_old c :
  c < length (contexts h) -> contexts (twin_heap m h) !! c = contexts h !! c.
Proof. intros Hc. simpl. now rewrite lookup_app_l. Qed.

Lemma twin_binding_old b :
  b < length (bindings h) -> bindings (twin_heap m h) !! b = bindings h !! b.
Proof. intros Hb. simpl. now rewrite lookup_app_l. Qed.

Lemma twin_keymap_old k :
  k < length (keymaps h) -> keymaps (twin_heap m h) !! k = keymaps h !! k.
Proof. intros Hk. simpl. now rewrite lookup_app_l. Qed.

Lemma twin_context_copy c C :
  met_context m c = true -> contexts h !! c = Some C ->
  contexts (twin_heap m h) !! copy_context m c = Some (twin_Context m C).
Proof.
  intros Hk Hl. destruct Hm as (-> & _ & _). simpl. now apply copy_lookup.
Qed.

Lemma twin_binding_copy b B :
  met_binding m b = true -> bindings h !! b = Some B ->
  bindings (twin_heap m h) !! copy_binding m b = Some (twin_Binding m B).
Proof.
  intros Hk Hl. destruct Hm as (_ & -> & _). simpl. now apply copy_lookup.
Qed.

Lemma twin_keymap_copy k K :
  met_keymap m k = true -> keymaps h !! k = Some K ->
  keymaps (twin_heap m h) !! copy_keymap m k = Some (twin_Keymap m K).
Proof.
  intros Hk Hl. destruct Hm as (_ & _ & ->). simpl. now apply copy_lookup.
Qed.

Lemma copy_binding_new b : length (bindings h) <= copy_binding m b.
Proof. destruct Hm as (_ & -> & _). lia. Qed.

Lemma copy_context_new c : length (contexts h) <= copy_context m c.
Proof. destruct Hm as (-> & _ & _). lia. Qed.

Lemma copy_binding_inj b b' :
  met_binding m b = true -> met_binding m b' = true ->
  copy_binding m b = copy_binding m b' -> b = b'.
Proof.
  destruct Hm as (_ & E & _). rewrite !E. intros Hb Hb' Heq.
  apply (count_kept_inj (met_binding m)); [assumption .. | lia].
Qed.

Lemma copy_context_inj c c' :
  met_context m c = true -> met_context m c' = true ->
  copy_context m c = copy_context m c' -> c = c'.
Proof.
  destruct Hm as (E & _ & _). rewrite !E. intros Hb Hb' Heq.
  apply (count_kept_inj (met_context m)); [assumption .. | lia].
Qed.

End twin.

(** ** What [deepcopy] meets *)

Lemma grow_incl h R : R ⊆ grow h R.
Proof. unfold grow. set_solver. Qed.

Lemma close_incl h n R : R ⊆ close h n R.
Proof.
  revert R. induction n as [| n IH]; intros R; simpl; [done |].
  etrans; [apply grow_incl | apply IH].
Qed.

Lemma close_links h n R x y :
  0 < n -> x ∈ R -> y ∈ links h x -> y ∈ close h n R.
Proof.
  intros Hn Hx Hy. destruct n as [| n]; [lia |]. simpl.
  apply close_incl. unfold grow. apply elem_of_union_r, elem_of_list_to_set.
  apply list_elem_of_In, in_concat. exists (links h x). split.
  - apply in_map, list_elem_of_In, elem_of_elements, Hx.
  - now apply list_elem_of_In.
Qed.

Lemma flatten_item_list h l : flatten_item h (IList l) = flatten_seq h l.
Proof.
  induction l as [| y l IH]; [reflexivity |].
  simpl in *. now rewrite IH.
Qed.

Lemma flatten_item_tuple h l : flatten_item h (ITuple l) = flatten_seq h l.
Proof.
  induction l as [| y l IH]; [reflexivity |].
  simpl in *. now rewrite IH.
Qed.

Lemma rbind_Ok_inv {A B} (r : result A) (k : A -> result B) b :
  rbind r k = Ok b -> exists a, r = Ok a /\ k a = Ok b.
Proof. destruct r as [a | e]; [| discriminate]. intros E. now exists a. Qed.

Lemma flatten_seq_cons_inv h y seq flat :
  flatten_seq h (y :: seq) = Ok flat ->
  exists ys zs, flatten_item h y = Ok ys /\ flatten_seq h seq = Ok zs
                /\ flat = ys ++ zs.
Proof.
  simpl. intros E.
  apply rbind_Ok_inv in E as (ys & Ey & E).
  apply rbind_Ok_inv in E as (zs & Ez & E).
  exists ys, zs. repeat split; [assumption .. | congruence].
Qed.

Lemma flatten_item_roots h x flat b :
  flatten_item h x = Ok flat -> b ∈ flat -> inl b ∈ item_roots h x.
Proof.
  revert flat. induction x as [b0 | l IH | l IH | k] using item_nested_ind;
    intros flat.
  - simpl. intros [= <-] Hb. apply list_elem_of_singleton in Hb as ->.
    apply list_elem_of_here.
  - rewrite flatten_item_list. simpl. revert flat.
    induction IH as [| y l Hy _ IHl]; intros flat.
    + intros [= <-] Hb. inversion Hb.
    + intros E Hb. apply flatten_seq_cons_inv in E as (ys & zs & Ey & Ez & ->).
      simpl. apply elem_of_app. apply elem_of_app in Hb as [Hb | Hb].
      * left. eapply Hy; eassumption.
      * right. eapply IHl; eassumption.
  - rewrite flatten_item_tuple. simpl. revert flat.
    induction IH as [| y l Hy _ IHl]; intros flat.
    + intros [= <-] Hb. inversion Hb.
    + intros E Hb. apply flatten_seq_cons_inv in E as (ys & zs & Ey & Ez & ->).
      simpl. apply elem_of_app. apply elem_of_app in Hb as [Hb | Hb].
      * left. eapply Hy; eassumption.
      * right. eapply IHl; eassumption.
  - simpl. destruct (keymaps h !! k) as [km |]; [| discriminate].
    intros [= <-] Hb. apply elem_of_app. left.
    apply list_elem_of_fmap. now exists b.
Qed.

Lemma flatten_seq_roots h seq flat b :
  flatten_seq h seq = Ok flat -> b ∈ flat ->
  inl b ∈ concat (map (item_roots h) seq).
Proof.
  rewrite <- flatten_item_tuple. apply flatten_item_roots.
Qed.

Lemma met_binding_root h seq flat b :
  flatten_seq h seq = Ok flat -> b ∈ flat ->
  met_binding (deepcopy_memo h seq) b = true.
Proof.
  intros E Hb. simpl. apply bool_decide_eq_true. unfold reachable.
  apply close_incl, elem_of_list_to_set. eapply flatten_seq_roots; eassumption.
Qed.

Lemma met_context_root h seq flat b B c :
  flatten_seq h seq = Ok flat -> b ∈ flat ->
  bindings h !! b = Some B -> c ∈ context B ->
  met_context (deepcopy_memo h seq) c = true.
Proof.
  intros E Hb HB Hc. simpl. apply bool_decide_eq_true. unfold reachable.
  apply (close_links h _ _ (inl b)).
  - apply lookup_lt_Some in HB. lia.
  - apply elem_of_list_to_set. eapply flatten_seq_roots; eassumption.
  - simpl. rewrite HB. apply list_elem_of_fmap. now exists c.
Qed.

Lemma met_keymap_named h seq k :
  k ∈ concat (map item_keymaps seq) ->
  met_keymap (deepcopy_memo h seq) k = true.
Proof. intros Hk. simpl. now apply bool_decide_eq_true. Qed.

(** ** Flattening the copy *)

Lemma flatten_item_twin m h x flat :
  memo_of m h ->
  (forall k, k ∈ item_keymaps x -> met_keymap m k = true) ->
  flatten_item h x = Ok flat ->
  flatten_item (twin_heap m h) (twin_item m x) = Ok (map (copy_binding m) flat).
Proof.
  intros Hm. revert flat.
  induction x as [b0 | l IH | l IH | k] using item_nested_ind;
    intros flat Hk.
  - simpl. now intros [= <-].
  - rewrite flatten_item_list. simpl twin_item. rewrite flatten_item_list.
    revert flat. simpl in Hk.
    induction IH as [| y l Hy _ IHl]; intros flat.
    + now intros [= <-].
    + intros E. apply flatten_seq_cons_inv in E as (ys & zs & Ey & Ez & ->).
      simpl. simpl in Hk.
      rewrite (Hy ys) by (intros; try apply Hk; try apply elem_of_app; auto).
      simpl. rewrite (IHl ltac:(intros; apply Hk, elem_of_app; auto) zs Ez).
      simpl. now rewrite map_app.
  - rewrite flatten_item_tuple. simpl twin_item. rewrite flatten_item_tuple.
    revert flat. simpl in Hk.
    induction IH as [| y l Hy _ IHl]; intros flat.
    + now intros [= <-].
    + intros E. apply flatten_seq_cons_inv in E as (ys & zs & Ey & Ez & ->).
      simpl. simpl in Hk.
      rewrite (Hy ys) by (intros; try apply Hk; try apply elem_of_app; auto).
      simpl. rewrite (IHl ltac:(intros; apply Hk, elem_of_app; auto) zs Ez).
      simpl. now rewrite map_app.
  - cbn [twin_item flatten_item].
    destruct (keymaps h !! k) as [km |] eqn:Ek; [| discriminate].
    intros [= <-].
    rewrite (twin_keymap_copy m h Hm k km); [reflexivity | | assumption].
    apply Hk. simpl. apply list_elem_of_here.
Qed.

Lemma flatten_seq_twin h seq flat :
  flatten_seq h seq = Ok flat ->
  flatten_seq (twin_heap (deepcopy_memo h seq) h)
              (map (twin_item (deepcopy_memo h seq)) seq)
  = Ok (map (copy_binding (deepcopy_memo h seq)) flat).
Proof.
  intros E. rewrite <- flatten_item_tuple in E.
  rewrite <- flatten_item_tuple.
  apply (flatten_item_twin _ h (ITuple seq) flat (deepcopy_memo_of h seq)).
  - intros k Hk. now apply met_keymap_named.
  - exact E.
Qed.

(** Flattening a flat sequence of bindings changes nothing. *)
Lemma flatten_seq_flat h (flat : list bref) :
  flatten_seq h (map IBinding flat) = Ok flat.
Proof.
  induction flat as [| b flat IH]; [reflexivity |].
  simpl. now rewrite IH.
Qed.

(** ** Stores without dangling addresses *)

Lemma forallb_elem {A} (f : A -> bool) (l : list A) (x : A) :
  forallb f l = true -> x ∈ l -> f x = true.
Proof.
  intros Hf Hx. apply list_elem_of_In in Hx.
  now apply (proj1 (forallb_forall f l) Hf).
Qed.

Lemma forallb_lookup {A} (f : A -> bool) (l : list A) i (x : A) :
  forallb f l = true -> l !! i = Some x -> f x = true.
Proof.
  intros Hf Hx. eapply forallb_elem; [eassumption |].
  eapply list_elem_of_lookup_2, Hx.
Qed.

Lemma wf_heap_binding h b B c :
  wf_heap h = true -> bindings h !! b = Some B -> c ∈ context B ->
  c < length (contexts h).
Proof.
  unfold wf_heap. rewrite !andb_true_iff. intros [[_ Hb] _] HB Hc.
  pose proof (forallb_lookup _ _ _ _ Hb HB) as HwB.
  apply Nat.ltb_lt. exact (forallb_elem _ _ _ HwB Hc).
Qed.

Lemma wf_heap_keymap_common h k km c :
  wf_heap h = true -> keymaps h !! k = Some km -> c ∈ _common_context km ->
  c < length (contexts h).
Proof.
  unfold wf_heap. rewrite !andb_true_iff. intros [_ Hk] Hkm Hc.
  pose proof (forallb_lookup _ _ _ _ Hk Hkm) as Hw.
  unfold wf_Keymap in Hw. apply andb_true_iff in Hw as [Hw _].
  apply Nat.ltb_lt. exact (forallb_elem _ _ _ Hw Hc).
Qed.

Lemma wf_heap_keymap_bindings h k km b :
  wf_heap h = true -> keymaps h !! k = Some km -> b ∈ _bindings km ->
  b < length (bindings h).
Proof.
  unfold wf_heap. rewrite !andb_true_iff. intros [_ Hk] Hkm Hb.
  pose proof (forallb_lookup _ _ _ _ Hk Hkm) as Hw.
  unfold wf_Keymap in Hw. apply andb_true_iff in Hw as [_ Hw].
  apply Nat.ltb_lt. exact (forallb_elem _ _ _ Hw Hb).
Qed.

Lemma flatten_item_wf h x :
  wf_heap h = true -> wf_item h x = true ->
  exists flat, flatten_item h x = Ok flat
               /\ forall b, b ∈ flat -> b < length (bindings h).
Proof.
  intros Hh.
  induction x as [b0 | l IH | l IH | k] using item_nested_ind; intros Hx.
  - exists [b0]. split; [reflexivity |].
    intros b Hb. apply list_elem_of_singleton in Hb as ->.
    now apply Nat.ltb_lt.
  - rewrite flatten_item_list. simpl in Hx.
    induction IH as [| y l Hy _ IHl].
    + exists []. split; [reflexivity |]. intros b Hb. inversion Hb.
    + simpl in Hx. apply andb_true_iff in Hx as [Hxy Hxl].
      destruct (Hy Hxy) as (ys & Ey & Hys).
      destruct (IHl Hxl) as (zs & Ez & Hzs).
      exists (ys ++ zs). simpl. rewrite Ey. simpl. rewrite Ez. simpl.
      split; [reflexivity |].
      intros b Hb. apply elem_of_app in Hb as [Hb | Hb]; auto.
  - rewrite flatten_item_tuple. simpl in Hx.
    induction IH as [| y l Hy _ IHl].
    + exists []. split; [reflexivity |]. intros b Hb. inversion Hb.
    + simpl in Hx. apply andb_true_iff in Hx as [Hxy Hxl].
      destruct (Hy Hxy) as (ys & Ey & Hys).
      destruct (IHl Hxl) as (zs & Ez & Hzs).
      exists (ys ++ zs). simpl. rewrite Ey. simpl. rewrite Ez. simpl.
      split; [reflexivity |].
      intros b Hb. apply elem_of_app in Hb as [Hb | Hb]; auto.
  - simpl in Hx. apply Nat.ltb_lt in Hx.
    destruct (lookup_lt_is_Some_2 (keymaps h) k Hx) as [km Ekm].
    exists (_bindings km). cbn [flatten_item]. rewrite Ekm.
    split; [reflexivity |].
    intros b Hb. eapply wf_heap_keymap_bindings; eassumption.
Qed.

Lemma flatten_seq_wf h seq :
  wf_heap h = true -> forallb (wf_item h) seq = true ->
  exists flat, flatten_seq h seq = Ok flat
               /\ forall b, b ∈ flat -> b < length (bindings h).
Proof.
  intros Hh Hseq. rewrite <- flatten_item_tuple.
  now apply flatten_item_wf.
Qed.

(** ** [deepcopy] meets everything its argument reaches *)

Lemma elem_of_universe h x :
  x ∈ universe h <->
  match x with
  | inl b => b < length (bindings h)
  | inr c => c < length (contexts h)
  end.
Proof.
  unfold universe. rewrite elem_of_list_to_set, elem_of_app.
  rewrite !list_elem_of_fmap. split.
  - intros [(b & -> & Hb) | (c & -> & Hc)].
    + apply elem_of_seq in Hb. lia.
    + apply elem_of_seq in Hc. lia.
  - destruct x as [b | c]; intros Hlt; [left | right]; eexists;
      (split; [reflexivity | apply elem_of_seq; lia]).
Qed.

Lemma size_universe h :
  size (universe h) = length (bindings h) + length (contexts h).
Proof.
  unfold universe. rewrite size_list_to_set.
  - now rewrite length_app, !length_map, !length_seq.
  - apply NoDup_app. split; [| split].
    + apply (NoDup_fmap_2 _), NoDup_seq.
    + intros x Hx Hy. apply list_elem_of_fmap in Hx as (b & -> & _).
      apply list_elem_of_fmap in Hy as (c & [=] & _).
    + apply (NoDup_fmap_2 _), NoDup_seq.
Qed.

Lemma links_universe h x y :
  wf_heap h = true -> y ∈ links h x -> y ∈ universe h.
Proof.
  intros Hwf Hy. apply elem_of_universe. destruct x as [b | c]; simpl in Hy.
  - destruct (bindings h !! b) as [B |] eqn:HB; [| inversion Hy].
    apply list_elem_of_fmap in Hy as (c & -> & Hc).
    eapply wf_heap_binding; eassumption.
  - destruct (contexts h !! c) as [C |] eqn:HC; [| inversion Hy].
    destruct (_parent C) as [p |] eqn:Hp; [| inversion Hy].
    apply list_elem_of_singleton in Hy as ->.
    unfold wf_heap in Hwf. rewrite !andb_true_iff in Hwf.
    destruct Hwf as [[Hc _] _].
    pose proof (forallb_lookup _ _ _ _ Hc HC) as Hw.
    unfold wf_Context in Hw. rewrite Hp in Hw. now apply Nat.ltb_lt.
Qed.

Lemma elem_of_grow h R y :
  y ∈ grow h R <-> y ∈ R \/ exists x, x ∈ R /\ y ∈ links h x.
Proof.
  unfold grow. rewrite elem_of_union, elem_of_list_to_set.
  rewrite list_elem_of_In, in_concat. split.
  - intros [Hy | (l & Hl & Hy)]; [now left | right].
    apply in_map_iff in Hl as (x & <- & Hx).
    exists x. split; [| now apply list_elem_of_In].
    now apply elem_of_elements, list_elem_of_In.
  - intros [Hy | (x & Hx & Hy)]; [now left | right].
    exists (links h x). split; [| now apply list_elem_of_In].
    apply in_map, list_elem_of_In, elem_of_elements, Hx.
Qed.

Lemma grow_universe h R :
  wf_heap h = true -> R ⊆ universe h -> grow h R ⊆ universe h.
Proof.
  intros Hwf HR y Hy. apply elem_of_grow in Hy as [Hy | (x & _ & Hy)].
  - now apply HR.
  - eapply links_universe; eassumption.
Qed.

Lemma close_fixpoint h n R : grow h R = R -> close h n R = R.
Proof. intros E. induction n as [| n IH]; simpl; [reflexivity |]. now rewrite E. Qed.

Lemma close_closed h n R :
  wf_heap h = true -> R ⊆ universe h ->
  size (universe h) <= size R + n ->
  grow h (close h n R) ⊆ close h n R.
Proof.
  intros Hwf. revert R. induction n as [| n IH]; intros R HR Hsize; simpl.
  - assert (R = universe h) as ->
      by (apply set_subseteq_size_eq; [assumption | lia]).
    now apply grow_universe.
  - destruct (decide (grow h R ⊆ R)) as [Hfix | Hgrows].
    + assert (E : grow h R = R)
        by (apply set_eq; intros x; split; [apply Hfix | apply grow_incl]).
      rewrite E, (close_fixpoint h n R E). now rewrite E.
    + apply IH; [now apply grow_universe |].
      assert (R ⊂ grow h R) as Hlt by (split; [apply grow_incl | exact Hgrows]).
      apply subset_size in Hlt. lia.
Qed.

Lemma item_roots_universe h x y :
  wf_heap h = true -> wf_item h x = true ->
  y ∈ item_roots h x -> y ∈ universe h.
Proof.
  intros Hwf.
  induction x as [b | l IH | l IH | k] using item_nested_ind; simpl.
  - intros Hb Hy. apply list_elem_of_singleton in Hy as ->.
    apply elem_of_universe. now apply Nat.ltb_lt.
  - intros Hl Hy. apply list_elem_of_In, in_concat in Hy as (r & Hr & Hy).
    apply in_map_iff in Hr as (x & <- & Hx).
    pose proof (proj1 (forallb_forall _ _) Hl x Hx) as Hwx.
    apply list_elem_of_In in Hx, Hy.
    exact (proj1 (Forall_forall _ _) IH x Hx Hwx Hy).
  - intros Hl Hy. apply list_elem_of_In, in_concat in Hy as (r & Hr & Hy).
    apply in_map_iff in Hr as (x & <- & Hx).
    pose proof (proj1 (forallb_forall _ _) Hl x Hx) as Hwx.
    apply list_elem_of_In in Hx, Hy.
    exact (proj1 (Forall_forall _ _) IH x Hx Hwx Hy).
  - intros _ Hy. destruct (keymaps h !! k) as [km |] eqn:Hkm; [| inversion Hy].
    apply elem_of_universe.
    apply elem_of_app in Hy as [Hy | Hy];
      apply list_elem_of_fmap in Hy as (a & -> & Ha).
    + eapply wf_heap_keymap_bindings; eassumption.
    + eapply wf_heap_keymap_common; eassumption.
Qed.

(** In a store without dangling addresses, what [deepcopy] meets is closed:
    with a binding its conditions, with a condition its parent. *)
Lemma reachable_closed h seq x y :
  wf_heap h = true -> forallb (wf_item h) seq = true ->
  x ∈ reachable h seq -> y ∈ links h x -> y ∈ reachable h seq.
Proof.
  intros Hwf Hseq Hx Hy. unfold reachable in *.
  apply close_closed.
  - exact Hwf.
  - intros r Hr. apply elem_of_list_to_set, list_elem_of_In, in_concat in Hr
      as (l & Hl & Hr).
    apply in_map_iff in Hl as (i & <- & Hi).
    apply list_elem_of_In in Hr.
    eapply item_roots_universe; [exact Hwf | | exact Hr].
    exact (proj1 (forallb_forall _ _) Hseq i Hi).
  - rewrite size_universe. lia.
  - apply elem_of_grow. right. now exists x.
Qed.

(** ** The loop of [_apply_common_context] *)

Lemma inject_0 cc B : inject cc 0 B = B.
Proof. destruct B. unfold inject, repeated. simpl. now rewrite app_nil_r. Qed.

Lemma inject_S cc n B :
  inject cc n (mkBinding (keys B) (command B) (args B) (context B ++ cc))
  = inject cc (S n) B.
Proof. unfold inject, repeated. simpl. now rewrite app_assoc. Qed.

Lemma apply_common_loop self km bs h :
  keymaps h !! self = Some km ->
  (forall b, b ∈ bs -> b < length (bindings h)) ->
  exists h',
    for_each bs (fun binding =>
        do k <- get_keymap self;
        do b <- get_binding binding;
        put_binding binding
          (mkBinding (keys b) (command b) (args b)
                     (context b ++ _common_context k))) h = Ok (tt, h')
    /\ contexts h' = contexts h
    /\ keymaps h' = keymaps h
    /\ length (bindings h') = length (bindings h)
    /\ forall b, bindings h' !! b
                 = inject (_common_context km) (times b bs) <$> bindings h !! b.
Proof.
  revert h. induction bs as [| x bs IH]; intros h Hself Hbs.
  - exists h. do 4 (split; [reflexivity |]). intros b. simpl.
    destruct (bindings h !! b) as [B |]; simpl; [| reflexivity].
    now rewrite inject_0.
  - assert (Hx : x < length (bindings h)) by (apply Hbs, list_elem_of_here).
    destruct (lookup_lt_is_Some_2 _ _ Hx) as [Bx HBx].
    set (h1 := mkHeap (contexts h)
                 (<[x := mkBinding (keys Bx) (command Bx) (args Bx)
                           (context Bx ++ _common_context km)]> (bindings h))
                 (keymaps h)).
    destruct (IH h1) as (h' & Erun & Hc & Hk & Hlen & Hlook).
    { exact Hself. }
    { intros b Hb. simpl. rewrite length_insert.
      apply Hbs. now apply list_elem_of_further. }
    exists h'. split; [| repeat split].
    + cbn [for_each]. unfold bind at 1.
      rewrite (bind_Ok _ _ _ _ _ (get_keymap_Ok _ _ _ Hself)).
      rewrite (bind_Ok _ _ _ _ _ (get_binding_Ok _ _ _ HBx)).
      unfold put_binding. exact Erun.
    + exact Hc.
    + exact Hk.
    + rewrite Hlen. simpl. apply length_insert.
    + intros b. rewrite Hlook. cbn [bindings h1 times].
      destruct (Nat.eqb_spec x b) as [-> | Hne].
      * rewrite list_lookup_insert_eq by assumption. rewrite HBx. simpl.
        now rewrite inject_S.
      * now rewrite list_lookup_insert_ne.
Qed.

(** ** The loops of [_apply_default_match_all] *)

Lemma with_default_set d C v : match_all C = Some v -> with_default d C = C.
Proof. destruct C. simpl. intros ->. reflexivity. Qed.

Lemma with_default_twice d C : with_default d (with_default d C) = with_default d C.
Proof. destruct C as [? ? ? [v |] ?]; [reflexivity |]. now destruct d. Qed.

Lemma touch_app d S1 S2 c C :
  touch d S2 c (touch d S1 c C) = touch d (S1 ++ S2) c C.
Proof.
  unfold touch.
  destruct (bool_decide_reflect (c ∈ S1)) as [H1 | H1];
  destruct (bool_decide_reflect (c ∈ S2)) as [H2 | H2];
  destruct (bool_decide_reflect (c ∈ S1 ++ S2)) as [H3 | H3];
  try reflexivity; try apply with_default_twice;
  exfalso; rewrite elem_of_app in H3; tauto.
Qed.

Lemma touch_nil d c C : touch d [] c C = C.
Proof.
  unfold touch. rewrite bool_decide_eq_false_2; [reflexivity |].
  intros H. inversion H.
Qed.

Lemma default_inner_loop self km cs h :
  keymaps h !! self = Some km ->
  (forall c, c ∈ cs -> c < length (contexts h)) ->
  exists h',
    for_each cs (fun context =>
        do c <- get_context context;
        match match_all c with
        | None =>
            do k <- get_keymap self;
            put_context context
              (mkContext (key c) (operator c) (operand c)
                         (_default_match_all k) (_parent c))
        | Some _ => ret tt
        end) h = Ok (tt, h')
    /\ bindings h' = bindings h
    /\ keymaps h' = keymaps h
    /\ length (contexts h') = length (contexts h)
    /\ forall c, contexts h' !! c
                 = touch (_default_match_all km) cs c <$> contexts h !! c.
Proof.
  revert h. induction cs as [| x cs IH]; intros h Hself Hcs.
  - exists h. do 4 (split; [reflexivity |]). intros c.
    destruct (contexts h !! c) as [C |]; simpl; [| reflexivity].
    now rewrite touch_nil.
  - assert (Hx : x < length (contexts h)) by (apply Hcs, list_elem_of_here).
    destruct (lookup_lt_is_Some_2 _ _ Hx) as [Cx HCx].
    set (h1 := match match_all Cx with
               | None => mkHeap (<[x := with_default (_default_match_all km) Cx]>
                                   (contexts h)) (bindings h) (keymaps h)
               | Some _ => h
               end).
    assert (Hb1 : bindings h1 = bindings h)
      by (unfold h1; now destruct (match_all Cx)).
    assert (Hk1 : keymaps h1 = keymaps h)
      by (unfold h1; now destruct (match_all Cx)).
    assert (Hl1 : length (contexts h1) = length (contexts h)).
    { unfold h1. destruct (match_all Cx); [reflexivity |].
      simpl. apply length_insert. }
    assert (Hc1 : forall c, contexts h1 !! c
                    = touch (_default_match_all km) [x] c <$> contexts h !! c).
    { intros c. unfold h1, touch.
      destruct (match_all Cx) as [v |] eqn:Em.
      - destruct (bool_decide_reflect (c ∈ [x])) as [Hin | Hin].
        + apply list_elem_of_singleton in Hin as ->. rewrite HCx. simpl.
          now rewrite (with_default_set _ _ _ Em).
        + now destruct (contexts h !! c).
      - simpl. destruct (bool_decide_reflect (c ∈ [x])) as [Hin | Hin].
        + apply list_elem_of_singleton in Hin as ->.
          rewrite list_lookup_insert_eq by assumption. now rewrite HCx.
        + rewrite list_lookup_insert_ne.
          * now destruct (contexts h !! c).
          * intros ->. apply Hin, list_elem_of_here. }
    destruct (IH h1) as (h' & Erun & Hb & Hk & Hlen & Hlook).
    { now rewrite Hk1. }
    { intros c Hc. rewrite Hl1. apply Hcs. now apply list_elem_of_further. }
    exists h'. split; [| repeat split].
    + cbn [for_each]. unfold bind at 1.
      rewrite (bind_Ok _ _ _ _ _ (get_context_Ok _ _ _ HCx)).
      unfold h1 in Erun. destruct (match_all Cx) as [v |] eqn:Em.
      * exact Erun.
      * rewrite (bind_Ok _ _ _ _ _ (get_keymap_Ok _ _ _ Hself)).
        unfold put_context. unfold with_default in Erun. rewrite Em in Erun.
        exact Erun.
    + congruence.
    + congruence.
    + congruence.
    + intros c. rewrite Hlook, Hc1.
      destruct (contexts h !! c) as [C |]; simpl; [| reflexivity].
      now rewrite (touch_app _ [x] cs).
Qed.

Lemma default_outer_loop self km bs h :
  keymaps h !! self = Some km ->
  (forall b, b ∈ bs ->
     exists B, bindings h !! b = Some B
               /\ forall c, c ∈ context B -> c < length (contexts h)) ->
  exists h',
    for_each bs (fun binding =>
        do b <- get_binding binding;
        for_each (context b) (fun context =>
          do c <- get_context context;
          match match_all c with
          | None =>
              do k <- get_keymap self;
              put_context context
                (mkContext (key c) (operator c) (operand c)
                           (_default_match_all k) (_parent c))
          | Some _ => ret tt
          end)) h = Ok (tt, h')
    /\ bindings h' = bindings h
    /\ keymaps h' = keymaps h
    /\ length (contexts h') = length (contexts h)
    /\ forall c, contexts h' !! c
                 = touch (_default_match_all km) (visited h bs) c
                   <$> contexts h !! c.
Proof.
  revert h. induction bs as [| x bs IH]; intros h Hself Hbs.
  - exists h. do 4 (split; [reflexivity |]). intros c.
    destruct (contexts h !! c) as [C |]; simpl; [| reflexivity].
    unfold visited. simpl. now rewrite touch_nil.
  - destruct (Hbs x (list_elem_of_here _ _)) as (Bx & HBx & Hcx).
    destruct (default_inner_loop self km (context Bx) h Hself Hcx)
      as (h1 & Erun1 & Hb1 & Hk1 & Hl1 & Hc1).
    destruct (IH h1) as (h' & Erun & Hb & Hk & Hlen & Hlook).
    { now rewrite Hk1. }
    { intros b Hb. destruct (Hbs b (list_elem_of_further _ _ _ Hb))
        as (B & HB & HcB).
      exists B. rewrite Hb1, Hl1. now split. }
    exists h'. split; [| repeat split].
    + cbn [for_each]. unfold bind at 1.
      rewrite (bind_Ok _ _ _ _ _ (get_binding_Ok _ _ _ HBx)).
      rewrite Erun1. exact Erun.
    + congruence.
    + congruence.
    + congruence.
    + intros c. rewrite Hlook, Hc1.
      assert (Ev : visited h (x :: bs) = context Bx ++ visited h1 bs).
      { unfold visited. simpl. now rewrite HBx, Hb1. }
      rewrite Ev.
      destruct (contexts h !! c) as [C |]; simpl; [| reflexivity].
      now rewrite touch_app.
Qed.

(** ** [Keymap._preprocess], stage by stage *)

Lemma elem_of_repeated {A} (x : A) n l : x ∈ repeated n l -> x ∈ l.
Proof.
  unfold repeated. induction n as [| n IH]; simpl; intros Hx.
  - inversion Hx.
  - apply elem_of_app in Hx as [Hx | Hx]; auto.
Qed.

Lemma repeated_incl {A} (x : A) n l : 0 < n -> x ∈ l -> x ∈ repeated n l.
Proof.
  intros Hn Hx. destruct n as [| n]; [lia |].
  unfold repeated. simpl. apply elem_of_app. now left.
Qed.

Lemma times_elem b l : b ∈ l -> 0 < times b l.
Proof.
  induction l as [| x l IH]; intros Hb; [inversion Hb |].
  simpl. destruct (Nat.eqb_spec x b) as [-> | Hne]; [lia |].
  apply elem_of_cons in Hb as [-> | Hb]; [congruence |].
  specialize (IH Hb). lia.
Qed.

Lemma times_not_elem b l : b ∉ l -> times b l = 0.
Proof.
  induction l as [| x l IH]; intros Hb; [reflexivity |].
  simpl. destruct (Nat.eqb_spec x b) as [-> | Hne].
  - exfalso. apply Hb, list_elem_of_here.
  - rewrite IH; [reflexivity |]. intros H. apply Hb.
    now apply list_elem_of_further.
Qed.

Lemma times_NoDup b l : NoDup l -> b ∈ l -> times b l = 1.
Proof.
  induction 1 as [| x l Hx Hl IH]; intros Hb; [inversion Hb |].
  simpl. destruct (Nat.eqb_spec x b) as [-> | Hne].
  - now rewrite times_not_elem.
  - apply elem_of_cons in Hb as [-> | Hb]; [congruence |]. now apply IH.
Qed.

Lemma times_map (f : nat -> nat) (keep : nat -> bool) b l :
  (forall x y, keep x = true -> keep y = true -> f x = f y -> x = y) ->
  keep b = true -> (forall x, x ∈ l -> keep x = true) ->
  times (f b) (map f l) = times b l.
Proof.
  intros Hinj Hb. induction l as [| x l IH]; intros Hl; [reflexivity |].
  simpl. rewrite IH by (intros; apply Hl; now apply list_elem_of_further).
  assert (Hx : keep x = true) by apply Hl, list_elem_of_here.
  destruct (Nat.eqb_spec (f x) (f b)) as [E | E];
    destruct (Nat.eqb_spec x b) as [E' | E']; try reflexivity.
  - exfalso. apply E'. now apply Hinj.
  - exfalso. apply E. now rewrite E'.
Qed.

Section preprocess.
Variables (self : kref) (km : Keymap) (seq : list item) (flat : list bref).
Variable h : heap.
Hypothesis Hwf : wf_heap h = true.
Hypothesis Hself : keymaps h !! self = Some km.
Hypothesis Hflat : flatten_seq h seq = Ok flat.
Hypothesis Hvalid : forall b, b ∈ flat -> b < length (bindings h).

Let m := deepcopy_memo h seq.
Let d := _default_match_all km.
Let cc := _common_context km.

Lemma preprocess_stages :
  exists h',
    Keymap._preprocess self seq h = Ok (map (copy_binding m) flat, h')
    /\ keymaps h' = keymaps (twin_heap m h)
    /\ (forall b, bindings h' !! b
                  = inject cc (times b (map (copy_binding m) flat))
                    <$> bindings (twin_heap m h) !! b)
    /\ (forall c, contexts h' !! c
                  = touch d (visited h' (map (copy_binding m) flat)) c
                    <$> contexts (twin_heap m h) !! c).
Proof.
  pose proof (deepcopy_memo_of h seq) as Hm. fold m in Hm.
  set (h1 := twin_heap m h).
  assert (Hself1 : keymaps h1 !! self = Some km).
  { unfold h1. rewrite twin_keymap_old; [assumption |].
    eapply lookup_lt_Some, Hself. }
  destruct (apply_common_loop self km (map (copy_binding m) flat) h1 Hself1)
    as (h2 & Erun2 & Hc2 & Hk2 & Hl2 & Hb2).
  { intros b' Hb'. apply list_elem_of_fmap in Hb' as (b & -> & Hb).
    destruct (lookup_lt_is_Some_2 _ _ (Hvalid b Hb)) as [B HB].
    eapply lookup_lt_Some. unfold h1.
    apply (twin_binding_copy m h Hm b B); [| assumption].
    eapply met_binding_root; eassumption. }
  destruct (default_outer_loop self km (map (copy_binding m) flat) h2)
    as (h3 & Erun3 & Hb3 & Hk3 & Hl3 & Hc3).
  { now rewrite Hk2. }
  { intros b' Hb'. apply list_elem_of_fmap in Hb' as (b & -> & Hb).
    destruct (lookup_lt_is_Some_2 _ _ (Hvalid b Hb)) as [B HB].
    pose proof (twin_binding_copy m h Hm b B
                  (met_binding_root h seq flat b Hflat Hb) HB) as HB1.
    fold h1 in HB1. eexists. split.
    - rewrite Hb2, HB1. reflexivity.
    - intros c Hc. rewrite Hc2. simpl in Hc.
      apply elem_of_app in Hc as [Hc | Hc].
      + apply list_elem_of_fmap in Hc as (c0 & -> & Hc0).
        pose proof (wf_heap_binding h b B c0 Hwf HB Hc0) as Hlt.
        destruct (lookup_lt_is_Some_2 _ _ Hlt) as [C HC].
        eapply lookup_lt_Some. unfold h1.
        apply (twin_context_copy m h Hm c0 C); [| assumption].
        eapply met_context_root; eassumption.
      + apply elem_of_repeated in Hc.
        pose proof (wf_heap_keymap_common h self km c Hwf Hself Hc) as Hlt.
        unfold h1. simpl. rewrite length_app. lia. }
  exists h3. split; [| split; [| split]].
  - unfold Keymap._preprocess. unfold bind at 1. unfold deepcopy.
    cbv zeta. unfold bind at 1. unfold lflatten.
    rewrite (flatten_seq_twin h seq flat Hflat). unfold lift_result.
    fold m. fold h1. unfold bind at 1. unfold Keymap._apply_common_context.
    unfold bind at 1. rewrite Erun2. unfold ret at 1.
    unfold Keymap._apply_default_match_all.
    unfold bind at 1. rewrite Erun3. reflexivity.
  - congruence.
  - intros b. rewrite Hb3. apply Hb2.
  - intros c. rewrite Hc3, Hc2.
    assert (Ev : visited h2 (map (copy_binding m) flat)
                 = visited h3 (map (copy_binding m) flat)).
    { unfold visited. now rewrite Hb3. }
    now rewrite Ev.
Qed.

(** What [_preprocess] returns and stores: the copies of the flattened
    bindings; each copy holds the copies of its own conditions followed by
    the keymap's common conditions, as often as the binding stands in the
    batch; every condition of a stored binding has had the default applied
    to its [match_all]; the instances that were there before keep their
    place, and the bindings and keymaps among them their values. *)
Lemma preprocess_stored :
  exists h',
    Keymap._preprocess self seq h = Ok (map (copy_binding m) flat, h')
    /\ (forall k, k < length (keymaps h) -> keymaps h' !! k = keymaps h !! k)
    /\ (forall b, b < length (bindings h) -> bindings h' !! b = bindings h !! b)
    /\ (forall c C, contexts h !! c = Some C ->
          contexts h' !! c = Some C \/ contexts h' !! c = Some (with_default d C))
    /\ forall b B, b ∈ flat -> bindings h !! b = Some B ->
         bindings h' !! copy_binding m b
         = Some (mkBinding (keys B) (command B) (args B)
                   (map (copy_context m) (context B)
                    ++ repeated (times b flat) cc))
         /\ (forall c C, c ∈ context B -> contexts h !! c = Some C ->
               contexts h' !! copy_context m c
               = Some (with_default d (twin_Context m C)))
         /\ (forall c C, c ∈ cc -> contexts h !! c = Some C ->
               contexts h' !! c = Some (with_default d C)).
Proof.
  pose proof (deepcopy_memo_of h seq) as Hm. fold m in Hm.
  destruct preprocess_stages as (h' & Erun & Hk & Hb & Hc).
  assert (Hmet : forall x, x ∈ flat -> met_binding m x = true).
  { intros x Hx. eapply met_binding_root; eassumption. }
  assert (Hmetc : forall b B c, b ∈ flat -> bindings h !! b = Some B ->
            c ∈ context B -> met_context m c = true).
  { intros b B c Hb' HB Hc'. eapply met_context_root; eassumption. }
  clearbody m.
  assert (Hstored : forall b B, b ∈ flat -> bindings h !! b = Some B ->
            bindings h' !! copy_binding m b
            = Some (mkBinding (keys B) (command B) (args B)
                      (map (copy_context m) (context B)
                       ++ repeated (times b flat) cc))).
  { intros b B Hin HB. rewrite Hb.
    rewrite (twin_binding_copy m h Hm b B (Hmet b Hin) HB). simpl.
    rewrite (times_map (copy_binding m) (met_binding m) b flat);
      [reflexivity | | auto | auto].
    intros x y. apply (copy_binding_inj m h Hm). }
  exists h'. split; [exact Erun |]. split; [| split; [| split]].
  - intros k Hlt. rewrite Hk. now apply twin_keymap_old.
  - intros b Hlt. rewrite Hb, (twin_binding_old m h b Hlt).
    rewrite times_not_elem.
    + destruct (bindings h !! b) as [B |]; simpl; [| reflexivity].
      now rewrite inject_0.
    + intros Hin. apply list_elem_of_fmap in Hin as (b0 & -> & _).
      pose proof (copy_binding_new m h Hm b0). lia.
  - intros c C HC. rewrite Hc.
    rewrite (twin_context_old m h c) by (eapply lookup_lt_Some, HC).
    rewrite HC. simpl. unfold touch.
    destruct (bool_decide _); [now right | now left].
  - intros b B Hin HB. split; [now apply Hstored |]. split.
    + intros c C Hcin HC. rewrite Hc.
      rewrite (twin_context_copy m h Hm c C);
        [| eapply Hmetc; eassumption | assumption].
      simpl. unfold touch. rewrite bool_decide_eq_true_2; [reflexivity |].
      unfold visited. apply list_elem_of_In, in_concat.
      eexists. split.
      * apply in_map. apply list_elem_of_In, list_elem_of_fmap.
        exists b. split; [reflexivity | exact Hin].
      * simpl. rewrite (Hstored b B Hin HB). simpl.
        apply list_elem_of_In, elem_of_app. left.
        apply list_elem_of_fmap. now exists c.
    + intros c C Hcin HC. rewrite Hc.
      rewrite (twin_context_old m h c) by (eapply lookup_lt_Some, HC).
      rewrite HC. simpl. unfold touch.
      rewrite bool_decide_eq_true_2; [reflexivity |].
      unfold visited. apply list_elem_of_In, in_concat.
      eexists. split.
      * apply in_map. apply list_elem_of_In, list_elem_of_fmap.
        exists b. split; [reflexivity | exact Hin].
      * simpl. rewrite (Hstored b B Hin HB). simpl.
        apply list_elem_of_In, elem_of_app. right.
        apply repeated_incl; [now apply times_elem | exact Hcin].
Qed.

End preprocess.

(** ** Stored bindings, seen from outside *)

Lemma view_with_default_twin d m C :
  view_Context (with_default d (twin_Context m C))
  = view_Context (with_default d C).
Proof. reflexivity. Qed.

Section views.
Variables (self : kref) (km : Keymap) (seq : list item) (flat : list bref).
Variable h : heap.
Hypothesis Hwf : wf_heap h = true.
Hypothesis Hself : keymaps h !! self = Some km.
Hypothesis Hflat : flatten_seq h seq = Ok flat.
Hypothesis Hvalid : forall b, b ∈ flat -> b < length (bindings h).

Lemma expected_view_defined b :
  b ∈ flat ->
  is_Some (expected_view h (_default_match_all km) (_common_context km)
             (times b flat) b).
Proof.
  intros Hb. unfold expected_view.
  destruct (lookup_lt_is_Some_2 _ _ (Hvalid b Hb)) as [B HB].
  rewrite HB. simpl.
  assert (Hcs : is_Some (mapM
            (fun c => view_Context ∘ with_default (_default_match_all km)
                      <$> contexts h !! c)
            (context B ++ repeated (times b flat) (_common_context km)))).
  { apply mapM_is_Some_2, Forall_forall. intros c Hc. simpl.
    apply fmap_is_Some, lookup_lt_is_Some_2.
    apply elem_of_app in Hc as [Hc | Hc].
    - eapply wf_heap_binding; eassumption.
    - apply elem_of_repeated in Hc.
      eapply wf_heap_keymap_common; eassumption. }
  destruct Hcs as [cs ->]. simpl. eauto.
Qed.

Lemma preprocess_views :
  exists stored h',
    Keymap._preprocess self seq h = Ok (stored, h')
    /\ mapM (view_Binding h') stored
       = mapM (fun b => expected_view h (_default_match_all km)
                          (_common_context km) (times b flat) b) flat.
Proof.
  destruct (preprocess_stored self km seq flat h Hwf Hself Hflat Hvalid)
    as (h' & Erun & _ & _ & _ & Hstored).
  eexists _, h'. split; [exact Erun |]. clear Erun.
  set (m := deepcopy_memo h seq) in *. clearbody m.
  apply Forall2_mapM_ext, Forall2_fmap_l, Forall2_same_length_lookup.
  split; [reflexivity |].
  intros i b b0 Hb Hb0. assert (b0 = b) as -> by congruence. clear Hb0.
  unfold compose. cbv beta.
  apply list_elem_of_lookup_2 in Hb.
  destruct (lookup_lt_is_Some_2 _ _ (Hvalid b Hb)) as [B HB].
  destruct (Hstored b B Hb HB) as (HB' & Hown & Hcommon).
  unfold view_Binding, expected_view. rewrite HB', HB. simpl.
  f_equal; [].
  apply Forall2_mapM_ext, Forall2_app.
  - apply Forall2_fmap_l, Forall2_same_length_lookup.
    split; [reflexivity |].
    intros j c c0 Hc Hc0. assert (c0 = c) as -> by congruence. clear Hc0.
    unfold compose. cbv beta.
    apply list_elem_of_lookup_2 in Hc.
    pose proof (wf_heap_binding h b B c Hwf HB Hc) as Hlt.
    destruct (lookup_lt_is_Some_2 _ _ Hlt) as [C HC].
    rewrite (Hown c C Hc HC), HC. reflexivity.
  - apply Forall2_same_length_lookup. split; [reflexivity |].
    intros j c c0 Hc Hc0. assert (c0 = c) as -> by congruence. clear Hc0.
    apply list_elem_of_lookup_2, elem_of_repeated in Hc.
    pose proof (wf_heap_keymap_common h self km c Hwf Hself Hc) as Hlt.
    destruct (lookup_lt_is_Some_2 _ _ Hlt) as [C HC].
    rewrite (Hcommon c C Hc HC), HC. reflexivity.
Qed.

End views.

(** ** class Keymap: preprocessing *)

Lemma flatten_seq_valid h seq flat :
  wf_heap h = true -> forallb (wf_item h) seq = true ->
  flatten_seq h seq = Ok flat ->
  forall b, b ∈ flat -> b < length (bindings h).
Proof.
  intros Hwf Hseq E.
  destruct (flatten_seq_wf h seq Hwf Hseq) as (flat' & E' & Hv).
  now assert (flat' = flat) as -> by congruence.
Qed.

(** The traversal of [lflatten] gives the flat list of the
    specification. *)
Lemma flatten_item_bindings_in h x :
  wf_item h x = true -> flatten_item h x = Ok (bindings_in h x).
Proof.
  induction x as [b | l IH | l IH | k] using item_nested_ind; intros Hx.
  - reflexivity.
  - rewrite flatten_item_list. cbn [bindings_in]. simpl in Hx.
    induction IH as [| y l Hy _ IHl]; [reflexivity |].
    simpl in Hx. apply andb_true_iff in Hx as [Hxy Hxl].
    simpl. now rewrite (Hy Hxy), (IHl Hxl).
  - rewrite flatten_item_tuple. cbn [bindings_in]. simpl in Hx.
    induction IH as [| y l Hy _ IHl]; [reflexivity |].
    simpl in Hx. apply andb_true_iff in Hx as [Hxy Hxl].
    simpl. now rewrite (Hy Hxy), (IHl Hxl).
  - simpl in Hx. apply Nat.ltb_lt in Hx.
    destruct (lookup_lt_is_Some_2 _ _ Hx) as [km Hkm].
    simpl. now rewrite Hkm.
Qed.

Lemma flatten_seq_batch h seq :
  forallb (wf_item h) seq = true -> flatten_seq h seq = Ok (batch h seq).
Proof.
  unfold batch. induction seq as [| y seq IH]; [reflexivity |]. simpl.
  intros Hseq. apply andb_true_iff in Hseq as [Hy Hseq].
  now rewrite (flatten_item_bindings_in h y Hy), (IH Hseq).
Qed.

Lemma repeated_1 {A} (l : list A) : repeated 1 l = l.
Proof. unfold repeated. simpl. apply app_nil_r. Qed.

(** C1, as the code has it.  For a batch in which no binding stands
    twice, [_preprocess] stores for every binding of the flattened batch
    a fresh instance whose context is: fresh copies of the binding's own
    conditions, in their order, followed by the keymap's common conditions
    themselves, in their order.  The common conditions are the instances
    the caller passed as [common_context], at the addresses they had
    before the call, not copies; like the copies, they have the keymap's
    default applied to [match_all]. *)
Theorem common_context_appended_shared (h : heap) (self : kref) (km : Keymap)
    (seq : list item) (flat : list bref) :
  wf_heap h = true ->
  forallb (wf_item h) seq = true ->
  keymaps h !! self = Some km ->
  flatten_seq h seq = Ok flat ->
  NoDup flat ->
  exists stored h',
    Keymap._preprocess self seq h = Ok (stored, h')
    /\ Forall2 (stored_binding km h h') stored flat.
Proof.
  intros Hwf Hseq Hself Hflat Hnodup.
  pose proof (flatten_seq_valid h seq flat Hwf Hseq Hflat) as Hvalid.
  destruct (preprocess_stored self km seq flat h Hwf Hself Hflat Hvalid)
    as (h' & Erun & _ & _ & _ & Hstored).
  pose proof (deepcopy_memo_of h seq) as Hm.
  exists (map (copy_binding (deepcopy_memo h seq)) flat), h'.
  split; [exact Erun |]. clear Erun.
  set (m := deepcopy_memo h seq) in *. clearbody m.
  apply Forall2_fmap_l, Forall2_same_length_lookup. split; [reflexivity |].
  intros i b b0 Hb Hb0. assert (b0 = b) as -> by congruence. clear Hb0.
  apply list_elem_of_lookup_2 in Hb.
  destruct (lookup_lt_is_Some_2 _ _ (Hvalid b Hb)) as [B HB].
  destruct (Hstored b B Hb HB) as (HB' & Hown & Hcommon).
  rewrite (times_NoDup b flat Hnodup Hb), repeated_1 in HB'.
  split; [apply (copy_binding_new m h Hm) |].
  eexists B, _, (map (copy_context m) (context B)).
  split; [exact HB |]. split; [exact HB' |].
  do 4 (split; [reflexivity |]). split.
  - apply Forall2_fmap_l, Forall2_same_length_lookup. split; [reflexivity |].
    intros j c c0 Hc Hc0. assert (c0 = c) as -> by congruence. clear Hc0.
    apply list_elem_of_lookup_2 in Hc.
    split; [apply (copy_context_new m h Hm) |].
    pose proof (wf_heap_binding h b B c Hwf HB Hc) as Hlt.
    destruct (lookup_lt_is_Some_2 _ _ Hlt) as [C HC].
    eexists C, _. split; [exact HC |]. split; [exact (Hown c C Hc HC) |].
    reflexivity.
  - apply Forall_forall. intros c Hc.
    pose proof (wf_heap_keymap_common h self km c Hwf Hself Hc) as Hlt.
    split; [exact Hlt |].
    destruct (lookup_lt_is_Some_2 _ _ Hlt) as [C HC].
    exists C. split; [exact HC | exact (Hcommon c C Hc HC)].
Qed.

(** C2: [_preprocess] stores one binding for each binding of the batch,
    in the order of the batch, and in each of them every condition, the
    binding's own and the common ones alike, holds what it held before
    with, for [match_all], the keymap's default where it was unset and the
    value it had where it was set. *)
Theorem default_match_all_applied (h : heap) (self : kref) (km : Keymap)
    (seq : list item) :
  wf_heap h = true ->
  forallb (wf_item h) seq = true ->
  keymaps h !! self = Some km ->
  exists stored h',
    Keymap._preprocess self seq h = Ok (stored, h')
    /\ Forall2 (defaulted_binding km h h') stored (batch h seq).
Proof.
  intros Hwf Hseq Hself.
  pose proof (flatten_seq_batch h seq Hseq) as Hflat.
  pose proof (flatten_seq_valid h seq _ Hwf Hseq Hflat) as Hvalid.
  destruct (preprocess_stored self km seq _ h Hwf Hself Hflat Hvalid)
    as (h' & Erun & _ & _ & _ & Hstored).
  eexists _, h'. split; [exact Erun |]. clear Erun.
  set (m := deepcopy_memo h seq) in *. clearbody m.
  set (flat := batch h seq) in *. clearbody flat.
  apply Forall2_fmap_l, Forall2_same_length_lookup. split; [reflexivity |].
  intros i b b0 Hb Hb0. assert (b0 = b) as -> by congruence. clear Hb0.
  apply list_elem_of_lookup_2 in Hb.
  destruct (lookup_lt_is_Some_2 _ _ (Hvalid b Hb)) as [B HB].
  destruct (Hstored b B Hb HB) as (HB' & Hown & Hcommon).
  eexists B, _, (map (copy_context m) (context B)), _.
  split; [exact HB |]. split; [exact HB' |]. split; [reflexivity |]. split.
  - apply Forall2_fmap_l, Forall2_same_length_lookup. split; [reflexivity |].
    intros j c c0 Hc Hc0. assert (c0 = c) as -> by congruence. clear Hc0.
    apply list_elem_of_lookup_2 in Hc.
    pose proof (wf_heap_binding h b B c Hwf HB Hc) as Hlt.
    destruct (lookup_lt_is_Some_2 _ _ Hlt) as [C HC].
    eexists C, _. split; [exact HC |]. split; [exact (Hown c C Hc HC) |].
    simpl. do 3 (split; [reflexivity |]).
    split; [now intros -> | now intros v ->].
  - apply Forall_forall. intros c Hc. apply elem_of_repeated in Hc.
    split; [exact Hc |].
    pose proof (wf_heap_keymap_common h self km c Hwf Hself Hc) as Hlt.
    destruct (lookup_lt_is_Some_2 _ _ Hlt) as [C HC].
    eexists C, _. split; [exact HC |]. split; [exact (Hcommon c C Hc HC) |].
    simpl. do 3 (split; [reflexivity |]).
    split; [now intros -> | now intros v ->].
Qed.

(** C4: preprocessing a nested collection and preprocessing the flat
    sequence of the bindings it holds, which is [batch], the flat list as
    the specification words it (the bindings of a nested keymap being the
    ones that keymap has stored), both succeed and store the same: one
    binding for each binding of the flat sequence, from left to right,
    with the attributes of that binding and with its conditions followed
    by the common ones, the default applied. *)
Theorem nested_preprocess_as_flat (h : heap) (self : kref) (km : Keymap)
    (nested : list item) :
  wf_heap h = true ->
  forallb (wf_item h) nested = true ->
  keymaps h !! self = Some km ->
  exists stored1 h1 stored2 h2 views,
    Keymap._preprocess self nested h = Ok (stored1, h1)
    /\ Keymap._preprocess self (map IBinding (batch h nested)) h
       = Ok (stored2, h2)
    /\ mapM (view_Binding h1) stored1 = Some views
    /\ mapM (view_Binding h2) stored2 = Some views
    /\ mapM (fun b => expected_view h (_default_match_all km)
                         (_common_context km) (times b (batch h nested)) b)
            (batch h nested)
       = Some views
    /\ length views = length (batch h nested).
Proof.
  intros Hwf Hseq Hself.
  pose proof (flatten_seq_batch h nested Hseq) as Hflat.
  pose proof (flatten_seq_valid h nested _ Hwf Hseq Hflat) as Hvalid.
  set (flat := batch h nested) in *. clearbody flat.
  destruct (preprocess_views self km nested flat h Hwf Hself Hflat Hvalid)
    as (stored1 & h1 & Erun1 & Hv1).
  destruct (preprocess_views self km (map IBinding flat) flat h Hwf Hself
              (flatten_seq_flat h flat) Hvalid)
    as (stored2 & h2 & Erun2 & Hv2).
  assert (Hdef : is_Some (mapM (fun b =>
            expected_view h (_default_match_all km) (_common_context km)
              (times b flat) b) flat)).
  { apply mapM_is_Some_2, Forall_forall. intros b Hb.
    apply (expected_view_defined self km flat h Hwf Hself Hvalid b Hb). }
  destruct Hdef as [views Hviews].
  exists stored1, h1, stored2, h2, views.
  rewrite Hv1, Hv2. repeat split; try assumption.
  symmetry. eapply length_mapM, Hviews.
Qed.

Lemma common_context_appended_shared_witness :
  exists stored h',
    Keymap._preprocess 0 [IBinding 0; IList [IBinding 1]] sample_heap
    = Ok (stored, h')
    /\ Forall2 (stored_binding (mkKeymap (Some true) [2] []) sample_heap h')
               stored [0; 1].
Proof.
  apply (common_context_appended_shared sample_heap 0 _
           [IBinding 0; IList [IBinding 1]] [0; 1]);
    try reflexivity.
  apply (bool_decide_unpack _). reflexivity.
Defined.

(** C1 fails on the code: a keymap built over the binding [x] with the
    condition [selector] as its common context.  Afterwards the store
    holds one condition, the caller's, at its address 0; the context of
    the stored binding (address 1) is that address; and the caller's
    condition has had [match_all] set by the keymap.  When the batch names
    the binding twice, its one copy receives the common condition twice. *)
Lemma common_context_is_not_copied :
  (do b <- Binding.__init__ ["x"];
   do c <- Context.__init__ "selector" None;
   do k <- Keymap.__init__ [IBinding b] (Some true) [c];
   do stored <- Keymap.__iter__ k;
   ret (c, stored)) empty_heap
  = Ok ((0, [1]),
        mkHeap [mkContext "selector" None PNone (Some true) None]
               [mkBinding ["x"] None (PList []) [];
                mkBinding ["x"] None (PList []) [0]]
               [mkKeymap (Some true) [0] [1]])
  /\ (do b <- Binding.__init__ ["x"];
      do c <- Context.__init__ "selector" None;
      do k <- Keymap.__init__ [IBinding b; IBinding b] None [c];
      do stored <- Keymap.__iter__ k;
      ret (c, stored)) empty_heap
     = Ok ((0, [1; 1]),
           mkHeap [mkContext "selector" None PNone None None]
                  [mkBinding ["x"] None (PList []) [];
                   mkBinding ["x"] None (PList []) [0; 0]]
                  [mkKeymap None [0] [1; 1]]).
Proof. split; reflexivity. Qed.

Lemma default_match_all_applied_witness :
  exists stored h',
    Keymap._preprocess 0 [IBinding 0; IList [IBinding 1]] sample_heap
    = Ok (stored, h')
    /\ Forall2 (defaulted_binding (mkKeymap (Some true) [2] []) sample_heap h')
               stored [0; 1].
Proof.
  exact (default_match_all_applied sample_heap 0 (mkKeymap (Some true) [2] [])
           [IBinding 0; IList [IBinding 1]] eq_refl eq_refl eq_refl).
Defined.

Lemma nested_preprocess_as_flat_witness :
  exists stored1 h1 stored2 h2 views,
    Keymap._preprocess 0 [IBinding 0; ITuple [IList [IKeymap 0]; IBinding 1]]
      sample_heap_filled = Ok (stored1, h1)
    /\ Keymap._preprocess 0 (map IBinding [0; 0; 1; 1]) sample_heap_filled
       = Ok (stored2, h2)
    /\ mapM (view_Binding h1) stored1 = Some views
    /\ mapM (view_Binding h2) stored2 = Some views
    /\ mapM (fun b => expected_view sample_heap_filled (Some true) [2]
                         (times b [0; 0; 1; 1]) b) [0; 0; 1; 1]
       = Some views
    /\ length views = length [0; 0; 1; 1].
Proof.
  exact (nested_preprocess_as_flat sample_heap_filled 0
           (mkKeymap (Some true) [2] [0; 1])
           [IBinding 0; ITuple [IList [IKeymap 0]; IBinding 1]]
           eq_refl eq_refl eq_refl).
Defined.

(** ** class Keymap: construction and [extend] *)

(** [extend] runs [_preprocess] on its arguments and appends what it gives
    to [_bindings]; the keymap grows by the number of bindings in the
    flattened batch. *)
Lemma Keymap_extend_stores (h : heap) (self : kref) (km : Keymap)
    (seq : list item) :
  wf_heap h = true ->
  forallb (wf_item h) seq = true ->
  keymaps h !! self = Some km ->
  exists flat stored h',
    flatten_seq h seq = Ok flat
    /\ length stored = length flat
    /\ Keymap._preprocess self seq h = Ok (stored, h')
    /\ Keymap.extend self seq h
       = Ok (None,
             mkHeap (contexts h') (bindings h')
                    (<[self := mkKeymap (_default_match_all km)
                                        (_common_context km)
                                        (_bindings km ++ stored)]> (keymaps h'))).
Proof.
  intros Hwf Hseq Hself.
  destruct (flatten_seq_wf h seq Hwf Hseq) as (flat & Hflat & Hvalid).
  destruct (preprocess_stored self km seq flat h Hwf Hself Hflat Hvalid)
    as (h' & Erun & Hk & _).
  eexists flat, _, h'. split; [exact Hflat |].
  split; [apply length_map |]. split; [exact Erun |].
  unfold Keymap.extend. rewrite (bind_Ok _ _ _ _ _ Erun).
  assert (Hself' : keymaps h' !! self = Some km).
  { rewrite Hk; [exact Hself |]. eapply lookup_lt_Some, Hself. }
  rewrite (bind_Ok _ _ _ _ _ (get_keymap_Ok _ _ _ Hself')). reflexivity.
Qed.

Lemma Keymap_extend_len (h : heap) (self : kref) (km : Keymap)
    (seq : list item) :
  wf_heap h = true ->
  forallb (wf_item h) seq = true ->
  keymaps h !! self = Some km ->
  exists flat h',
    flatten_seq h seq = Ok flat
    /\ (do_ Keymap.extend self seq; Keymap.__len__ self) h
       = Ok (length (_bindings km) + length flat, h').
Proof.
  intros Hwf Hseq Hself.
  destruct (Keymap_extend_stores h self km seq Hwf Hseq Hself)
    as (flat & stored & h' & Hflat & Hlen & Erun & Eext).
  assert (Hlt : self < length (keymaps h')).
  { destruct (flatten_seq_wf h seq Hwf Hseq) as (flat' & Hflat' & Hvalid).
    destruct (preprocess_stored self km seq flat' h Hwf Hself Hflat' Hvalid)
      as (h'' & Erun' & Hk & _).
    assert (h'' = h') as -> by congruence.
    eapply lookup_lt_Some. rewrite Hk; [exact Hself |].
    eapply lookup_lt_Some, Hself. }
  eexists flat, _. split; [exact Hflat |].
  rewrite (bind_Ok _ _ _ _ _ Eext). unfold Keymap.__len__.
  erewrite bind_Ok.
  2: { apply get_keymap_Ok. cbn [keymaps].
       now apply list_lookup_insert_eq. }
  unfold ret. cbn [_bindings]. now rewrite length_app, Hlen.
Qed.

Lemma wf_item_more_keymaps h k x :
  wf_item h x = true ->
  wf_item (mkHeap (contexts h) (bindings h) (keymaps h ++ [k])) x = true.
Proof.
  induction x as [b | l IH | l IH | k0] using item_nested_ind; simpl.
  - auto.
  - intros Hl. apply forallb_forall. intros y Hy.
    pose proof (proj1 (forallb_forall _ _) Hl y Hy) as Hwy.
    apply list_elem_of_In in Hy.
    exact (proj1 (Forall_forall _ _) IH y Hy Hwy).
  - intros Hl. apply forallb_forall. intros y Hy.
    pose proof (proj1 (forallb_forall _ _) Hl y Hy) as Hwy.
    apply list_elem_of_In in Hy.
    exact (proj1 (Forall_forall _ _) IH y Hy Hwy).
  - rewrite length_app. simpl. rewrite !Nat.ltb_lt. lia.
Qed.

(** [Keymap(...)] makes the instance, runs [_preprocess] for it on the
    arguments and keeps the result as [_bindings]. *)
Lemma Keymap_init_stores (h : heap) (seq : list item) (d : option bool)
    (cc : list cref) :
  wf_heap h = true ->
  forallb (wf_item h) seq = true ->
  forallb (fun c => c <? length (contexts h)) cc = true ->
  exists stored h',
    Keymap._preprocess (length (keymaps h)) seq
      (mkHeap (contexts h) (bindings h) (keymaps h ++ [mkKeymap d cc []]))
    = Ok (stored, h')
    /\ Keymap.__init__ seq d cc h
       = Ok (length (keymaps h),
             mkHeap (contexts h') (bindings h')
                    (<[length (keymaps h) := mkKeymap d cc stored]> (keymaps h'))).
Proof.
  intros Hwf Hseq Hcc.
  set (h0 := mkHeap (contexts h) (bindings h) (keymaps h ++ [mkKeymap d cc []])).
  assert (Hwf0 : wf_heap h0 = true).
  { change (wf_heap h0)
      with (forallb (wf_Context h) (contexts h)
            && forallb (wf_Binding h) (bindings h)
            && forallb (wf_Keymap h) (keymaps h ++ [mkKeymap d cc []])).
    unfold wf_heap in Hwf.
    apply andb_true_iff in Hwf as [Hwf Hk]. rewrite Hwf.
    rewrite forallb_app, Hk. simpl. unfold wf_Keymap. simpl.
    now rewrite Hcc. }
  assert (Hseq0 : forallb (wf_item h0) seq = true).
  { apply forallb_forall. intros x Hx. apply wf_item_more_keymaps.
    exact (proj1 (forallb_forall _ _) Hseq x Hx). }
  assert (Hself0 : keymaps h0 !! length (keymaps h) = Some (mkKeymap d cc []))
    by apply lookup_new.
  destruct (flatten_seq_wf h0 seq Hwf0 Hseq0) as (flat & Hflat & Hvalid).
  destruct (preprocess_stored _ _ seq flat h0 Hwf0 Hself0 Hflat Hvalid)
    as (h' & Erun & _).
  eexists _, h'. split; [exact Erun |].
  unfold Keymap.__init__. unfold bind at 1. unfold new_keymap. fold h0.
  rewrite (bind_Ok _ _ _ _ _ Erun). reflexivity.
Qed.

(** ** The operations keep the store free of dangling addresses *)

Lemma forallb_lookup_iff {A} (f : A -> bool) (l : list A) :
  forallb f l = true <-> forall i x, l !! i = Some x -> f x = true.
Proof.
  split.
  - intros Hf i x Hx. eapply forallb_lookup; eassumption.
  - intros Hf. apply forallb_forall. intros x Hx.
    apply list_elem_of_In, list_elem_of_lookup in Hx as [i Hi]. eauto.
Qed.

Lemma forallb_elem_iff {A} (f : A -> bool) (l : list A) :
  forallb f l = true <-> forall x, x ∈ l -> f x = true.
Proof.
  rewrite forallb_forall. split; intros Hf x Hx; apply Hf;
    now apply list_elem_of_In.
Qed.

Lemma wf_heap_iff h :
  wf_heap h = true <->
  (forall c C p, contexts h !! c = Some C -> _parent C = Some p ->
                 p < length (bindings h))
  /\ (forall b B c, bindings h !! b = Some B -> c ∈ context B ->
                    c < length (contexts h))
  /\ (forall k K, keymaps h !! k = Some K ->
        (forall c, c ∈ _common_context K -> c < length (contexts h))
        /\ (forall b, b ∈ _bindings K -> b < length (bindings h))).
Proof.
  unfold wf_heap. rewrite !andb_true_iff, !forallb_lookup_iff. split.
  - intros [[Hc Hb] Hk]. split; [| split].
    + intros c C p HC Hp. specialize (Hc c C HC). unfold wf_Context in Hc.
      rewrite Hp in Hc. now apply Nat.ltb_lt.
    + intros b B c HB Hin. specialize (Hb b B HB). unfold wf_Binding in Hb.
      apply Nat.ltb_lt. exact (proj1 (forallb_elem_iff _ _) Hb c Hin).
    + intros k K HK. specialize (Hk k K HK). unfold wf_Keymap in Hk.
      apply andb_true_iff in Hk as [Hk1 Hk2].
      split; intros a Ha; apply Nat.ltb_lt.
      * exact (proj1 (forallb_elem_iff _ _) Hk1 a Ha).
      * exact (proj1 (forallb_elem_iff _ _) Hk2 a Ha).
  - intros (Hc & Hb & Hk). split; [split |].
    + intros c C HC. unfold wf_Context.
      destruct (_parent C) as [p |] eqn:Hp; [| reflexivity].
      apply Nat.ltb_lt. eapply Hc; eassumption.
    + intros b B HB. unfold wf_Binding. apply forallb_elem_iff.
      intros c Hin. apply Nat.ltb_lt. eapply Hb; eassumption.
    + intros k K HK. unfold wf_Keymap. destruct (Hk k K HK) as [Hk1 Hk2].
      apply andb_true_iff. split; apply forallb_elem_iff; intros a Ha;
        apply Nat.ltb_lt; auto.
Qed.

Lemma select_from_length {A} keep i (l : list A) :
  length (select_from keep i l) = count_kept keep i (length l).
Proof.
  revert i. induction l as [| x l IH]; intros i; [reflexivity |].
  simpl. destruct (keep i); simpl; now rewrite IH.
Qed.

Lemma select_from_elem {A} keep i (l : list A) x :
  x ∈ select_from keep i l ->
  exists a, l !! a = Some x /\ keep (i + a) = true.
Proof.
  revert i. induction l as [| y l IH]; intros i Hx; [inversion Hx |].
  simpl in Hx. destruct (keep i) eqn:Hk.
  - apply elem_of_cons in Hx as [-> | Hx].
    + exists 0. now rewrite Nat.add_0_r.
    + destruct (IH _ Hx) as (a & Ha & Hka). exists (S a).
      now replace (i + S a) with (S i + a) by lia.
  - destruct (IH _ Hx) as (a & Ha & Hka). exists (S a).
    now replace (i + S a) with (S i + a) by lia.
Qed.

Lemma lookup_copies {A} (f : A -> A) keep (l : list A) i y :
  (l ++ map f (select_from keep 0 l)) !! i = Some y ->
  l !! i = Some y
  \/ exists a x, l !! a = Some x /\ keep a = true /\ y = f x.
Proof.
  intros Hy. apply lookup_app_Some in Hy as [Hy | [_ Hy]]; [now left |].
  right. apply list_lookup_fmap_Some in Hy as (x & -> & Hx).
  apply list_elem_of_lookup_2, select_from_elem in Hx as (a & Ha & Hk).
  now exists a, x.
Qed.

Lemma item_keymaps_roots h x k K y :
  k ∈ item_keymaps x -> keymaps h !! k = Some K ->
  y ∈ map inl (_bindings K) ++ map inr (_common_context K) ->
  y ∈ item_roots h x.
Proof.
  induction x as [b | l IH | l IH | k0] using item_nested_ind; simpl.
  - intros Hk. inversion Hk.
  - intros Hk HK Hy. apply list_elem_of_In, in_concat in Hk as (r & Hr & Hk).
    apply in_map_iff in Hr as (x & <- & Hx).
    apply list_elem_of_In, in_concat. exists (item_roots h x).
    split; [now apply in_map |]. apply list_elem_of_In.
    apply list_elem_of_In in Hx, Hk.
    exact (proj1 (Forall_forall _ _) IH x Hx Hk HK Hy).
  - intros Hk HK Hy. apply list_elem_of_In, in_concat in Hk as (r & Hr & Hk).
    apply in_map_iff in Hr as (x & <- & Hx).
    apply list_elem_of_In, in_concat. exists (item_roots h x).
    split; [now apply in_map |]. apply list_elem_of_In.
    apply list_elem_of_In in Hx, Hk.
    exact (proj1 (Forall_forall _ _) IH x Hx Hk HK Hy).
  - intros Hk HK Hy. apply list_elem_of_singleton in Hk as ->.
    now rewrite HK.
Qed.

Section twin_wf.
Variables (h : heap) (seq : list item).
Hypothesis Hwf : wf_heap h = true.
Hypothesis Hseq : forallb (wf_item h) seq = true.

Let m := deepcopy_memo h seq.

Lemma copy_binding_valid b :
  met_binding m b = true -> b < length (bindings h) ->
  copy_binding m b < length (bindings (twin_heap m h)).
Proof.
  intros Hmet Hlt. simpl. rewrite length_app, length_map, select_from_length.
  apply Nat.add_lt_mono_l. now apply count_kept_lt.
Qed.

Lemma copy_context_valid c :
  met_context m c = true -> c < length (contexts h) ->
  copy_context m c < length (contexts (twin_heap m h)).
Proof.
  intros Hmet Hlt. simpl. rewrite length_app, length_map, select_from_length.
  apply Nat.add_lt_mono_l. now apply count_kept_lt.
Qed.

Lemma met_links x y :
  x ∈ reachable h seq -> y ∈ links h x -> y ∈ reachable h seq.
Proof. now apply reachable_closed. Qed.

Lemma twin_heap_wf : wf_heap (twin_heap m h) = true.
Proof.
  pose proof (proj1 (wf_heap_iff h) Hwf) as (Hc & Hb & Hk).
  apply wf_heap_iff. split; [| split].
  - intros c C p HC Hp. simpl in HC.
    apply lookup_copies in HC as [HC | (a & C0 & HC0 & Hmet & ->)].
    + simpl. rewrite length_app. specialize (Hc c C p HC Hp). lia.
    + simpl in Hp. destruct (_parent C0) as [p0 |] eqn:Hp0; [| discriminate].
      injection Hp as <-. apply copy_binding_valid.
      * apply bool_decide_eq_true. apply bool_decide_eq_true in Hmet.
        apply (met_links (inr a)); [exact Hmet |]. simpl.
        rewrite HC0, Hp0. apply list_elem_of_here.
      * eapply Hc; eassumption.
  - intros b B c HB Hin. simpl in HB.
    apply lookup_copies in HB as [HB | (a & B0 & HB0 & Hmet & ->)].
    + simpl. rewrite length_app. specialize (Hb b B c HB Hin). lia.
    + simpl in Hin. apply list_elem_of_fmap in Hin as (c0 & -> & Hc0).
      apply copy_context_valid.
      * apply bool_decide_eq_true. apply bool_decide_eq_true in Hmet.
        apply (met_links (inl a)); [exact Hmet |]. simpl.
        rewrite HB0. apply list_elem_of_fmap. now exists c0.
      * eapply Hb; eassumption.
  - intros k K HK. simpl in HK.
    apply lookup_copies in HK as [HK | (a & K0 & HK0 & Hmet & ->)].
    + destruct (Hk k K HK) as [Hk1 Hk2]. simpl. rewrite !length_app.
      split; intros x Hx; [specialize (Hk1 x Hx) | specialize (Hk2 x Hx)]; lia.
    + destruct (Hk a K0 HK0) as [Hk1 Hk2].
      apply bool_decide_eq_true in Hmet.
      assert (Hroots : forall y,
                y ∈ map inl (_bindings K0) ++ map inr (_common_context K0) ->
                y ∈ reachable h seq).
      { intros y Hy. unfold reachable. apply close_incl, elem_of_list_to_set.
        apply list_elem_of_In, in_concat in Hmet as (r & Hr & Hmet).
        apply in_map_iff in Hr as (x & <- & Hx).
        apply list_elem_of_In, in_concat. exists (item_roots h x).
        split; [now apply in_map |]. apply list_elem_of_In.
        apply list_elem_of_In in Hmet.
        eapply item_keymaps_roots; eassumption. }
      split; intros x Hx; simpl in Hx;
        apply list_elem_of_fmap in Hx as (x0 & -> & Hx0).
      * apply copy_context_valid; [| now apply Hk1].
        apply bool_decide_eq_true, Hroots, elem_of_app. right.
        apply list_elem_of_fmap. now exists x0.
      * apply copy_binding_valid; [| now apply Hk2].
        apply bool_decide_eq_true, Hroots, elem_of_app. left.
        apply list_elem_of_fmap. now exists x0.
Qed.

End twin_wf.

Lemma length_of_lookups {A} (f : nat -> A -> A) (l l' : list A) :
  (forall i, l' !! i = f i <$> l !! i) -> length l' = length l.
Proof.
  intros H. apply Nat.le_antisymm.
  - apply lookup_ge_None. rewrite H.
    now rewrite (proj2 (lookup_ge_None l (length l)) (Nat.le_refl _)).
  - apply lookup_ge_None.
    pose proof (H (length l')) as E.
    rewrite (proj2 (lookup_ge_None l' (length l')) (Nat.le_refl _)) in E.
    destruct (l !! length l'); [discriminate | reflexivity].
Qed.

Lemma wf_item_grows h h' x :
  length (bindings h) <= length (bindings h') ->
  length (keymaps h) <= length (keymaps h') ->
  wf_item h x = true -> wf_item h' x = true.
Proof.
  intros Hb Hk.
  induction x as [b | l IH | l IH | k] using item_nested_ind; simpl.
  - rewrite !Nat.ltb_lt. lia.
  - intros Hl. apply forallb_forall. intros y Hy.
    pose proof (proj1 (forallb_forall _ _) Hl y Hy) as Hwy.
    apply list_elem_of_In in Hy.
    exact (proj1 (Forall_forall _ _) IH y Hy Hwy).
  - intros Hl. apply forallb_forall. intros y Hy.
    pose proof (proj1 (forallb_forall _ _) Hl y Hy) as Hwy.
    apply list_elem_of_In in Hy.
    exact (proj1 (Forall_forall _ _) IH y Hy Hwy).
  - rewrite !Nat.ltb_lt. lia.
Qed.

(** [_preprocess] leaves a store without dangling addresses as one, and
    what it returns are addresses of bindings in it. *)
Lemma preprocess_wf (h : heap) (self : kref) (km : Keymap) (seq : list item)
    (stored : list bref) (h' : heap) :
  wf_heap h = true ->
  forallb (wf_item h) seq = true ->
  keymaps h !! self = Some km ->
  Keymap._preprocess self seq h = Ok (stored, h') ->
  wf_heap h' = true
  /\ length (bindings h) <= length (bindings h')
  /\ length (keymaps h) <= length (keymaps h')
  /\ keymaps h' !! self = Some km
  /\ forall b, b ∈ stored -> b < length (bindings h').
Proof.
  intros Hwf Hseq Hself Erun.
  destruct (flatten_seq_wf h seq Hwf Hseq) as (flat & Hflat & Hvalid).
  destruct (preprocess_stages self km seq flat h Hwf Hself Hflat Hvalid)
    as (h2 & Erun2 & Hk & Hb & Hc).
  rewrite Erun in Erun2. injection Erun2 as -> <-.
  pose proof (twin_heap_wf h seq Hwf Hseq) as Hwf1.
  set (m := deepcopy_memo h seq) in *. set (h1 := twin_heap m h) in *.
  pose proof (length_of_lookups _ _ _ Hb) as Hlb.
  pose proof (length_of_lookups _ _ _ Hc) as Hlc.
  pose proof (proj1 (wf_heap_iff h1) Hwf1) as (Hc1 & Hb1 & Hk1).
  pose proof (proj1 (wf_heap_iff h) Hwf) as (_ & _ & Hk0).
  assert (Hnb : length (bindings h) <= length (bindings h1))
    by (unfold h1; simpl; rewrite length_app; lia).
  assert (Hnc : length (contexts h) <= length (contexts h1))
    by (unfold h1; simpl; rewrite length_app; lia).
  assert (Hnk : length (keymaps h) <= length (keymaps h1))
    by (unfold h1; simpl; rewrite length_app; lia).
  split; [| split; [| split; [| split]]].
  - apply wf_heap_iff. split; [| split].
    + intros c C p HC Hp. rewrite Hc in HC.
      destruct (contexts h1 !! c) as [C1 |] eqn:HC1; [| discriminate].
      injection HC as <-. rewrite Hlb. apply (Hc1 c C1 p HC1).
      unfold touch in Hp. now destruct (bool_decide _).
    + intros b B c HB Hin. rewrite Hb in HB.
      destruct (bindings h1 !! b) as [B1 |] eqn:HB1; [| discriminate].
      injection HB as <-. rewrite Hlc. simpl in Hin.
      apply elem_of_app in Hin as [Hin | Hin].
      * eapply Hb1; eassumption.
      * apply elem_of_repeated in Hin.
        destruct (Hk0 self km Hself) as [Hcc _]. specialize (Hcc c Hin). lia.
    + intros k K HK. rewrite Hk in HK. rewrite Hlb, Hlc.
      exact (Hk1 k K HK).
  - lia.
  - now rewrite Hk.
  - rewrite Hk. unfold h1. rewrite twin_keymap_old; [exact Hself |].
    eapply lookup_lt_Some, Hself.
  - intros b' Hb'. apply list_elem_of_fmap in Hb' as (b & -> & Hin).
    rewrite Hlb. apply copy_binding_valid; [| now apply Hvalid].
    eapply met_binding_root; eassumption.
Qed.

Lemma Keymap_extend_wf (h : heap) (self : kref) (km : Keymap) (seq : list item)
    (r : option kref) (h' : heap) :
  wf_heap h = true ->
  forallb (wf_item h) seq = true ->
  keymaps h !! self = Some km ->
  Keymap.extend self seq h = Ok (r, h') ->
  wf_heap h' = true
  /\ length (bindings h) <= length (bindings h')
  /\ length (keymaps h) <= length (keymaps h').
Proof.
  intros Hwf Hseq Hself Eext.
  destruct (Keymap_extend_stores h self km seq Hwf Hseq Hself)
    as (flat & stored & h1 & Hflat & Hlen & Erun & Eext').
  rewrite Eext in Eext'. injection Eext' as -> ->.
  destruct (preprocess_wf h self km seq stored h1 Hwf Hseq Hself Erun)
    as (Hwf1 & Hnb & Hnk & Hself1 & Hstored).
  pose proof (proj1 (wf_heap_iff h1) Hwf1) as (Hc1 & Hb1 & Hk1).
  split; [| split]; cbn [bindings keymaps]; [| lia | now rewrite length_insert].
  apply wf_heap_iff. cbn [contexts bindings keymaps].
  split; [exact Hc1 |]. split; [exact Hb1 |].
  intros k K HK.
  destruct (decide (k = self)) as [-> | Hne].
  - rewrite list_lookup_insert_eq in HK by (eapply lookup_lt_Some, Hself1).
    injection HK as <-. destruct (Hk1 self km Hself1) as [Hcc Hbs].
    split; [exact Hcc |]. cbn [_bindings]. intros b Hb.
    apply elem_of_app in Hb as [Hb | Hb]; auto.
  - rewrite list_lookup_insert_ne in HK by congruence. exact (Hk1 k K HK).
Qed.

(** *** Any sequence of [extend] calls *)

Lemma Keymap_len_after_extends (batches : list (list item)) (h : heap)
    (self : kref) (km : Keymap) :
  wf_heap h = true ->
  Forall (fun seq => forallb (wf_item h) seq = true) batches ->
  keymaps h !! self = Some km ->
  exists n h',
    extend_all self batches h = Ok (n, h')
    /\ Keymap.__len__ self h' = Ok (length (_bindings km) + n, h').
Proof.
  revert h km. induction batches as [| seq rest IH]; intros h km Hwf Hall Hself.
  - exists 0, h. split; [reflexivity |]. unfold Keymap.__len__.
    rewrite (bind_Ok _ _ _ _ _ (get_keymap_Ok _ _ _ Hself)).
    unfold ret. now rewrite Nat.add_0_r.
  - inversion Hall as [| ? ? Hseq Hrest]; subst.
    destruct (Keymap_extend_stores h self km seq Hwf Hseq Hself)
      as (flat & stored & h1 & Hflat & Hlen & Erun & Eext).
    destruct (Keymap_extend_wf h self km seq _ _ Hwf Hseq Hself Eext)
      as (Hwf2 & Hnb & Hnk).
    destruct (preprocess_wf h self km seq stored h1 Hwf Hseq Hself Erun)
      as (_ & _ & _ & Hself1 & _).
    match type of Eext with _ = Ok (_, ?x) => set (h2 := x) in * end.
    assert (Hself2 : keymaps h2 !! self
              = Some (mkKeymap (_default_match_all km) (_common_context km)
                               (_bindings km ++ stored))).
    { unfold h2. cbn [keymaps]. apply list_lookup_insert_eq.
      eapply lookup_lt_Some, Hself1. }
    assert (Hrest2 : Forall (fun s => forallb (wf_item h2) s = true) rest).
    { eapply Forall_impl; [exact Hrest |]. intros s Hs.
      apply forallb_forall. intros x Hx.
      apply (wf_item_grows h h2 x Hnb Hnk).
      exact (proj1 (forallb_forall _ _) Hs x Hx). }
    destruct (IH h2 _ Hwf2 Hrest2 Hself2) as (n & h' & Eall & Elen).
    exists (length flat + n), h'. split.
    + cbn [extend_all]. unfold bind at 1. unfold lflatten. rewrite Hflat.
      unfold lift_result. rewrite (bind_Ok _ _ _ _ _ Eext).
      rewrite (bind_Ok _ _ _ _ _ Eall). reflexivity.
    + rewrite Elen. cbn [_bindings]. rewrite length_app, Hlen.
      f_equal. f_equal. lia.
Qed.

(** ** class Keymap: what [extend] returns *)

(** C7 fails on the code: [extend] stores the binding, after which the
    keymap (at address 0) has length 1, and returns [None], not the
    keymap. *)
Lemma Keymap_extend_returns_None :
  (do k <- Keymap.__init__ [] None [];
   do b <- Binding.__init__ ["x"];
   do r <- Keymap.extend k [IBinding b];
   do n <- Keymap.__len__ k;
   ret (k, r, n)) empty_heap =
    Ok ((0, None, 1),
        mkHeap []
               [mkBinding ["x"] None (PList []) [];
                mkBinding ["x"] None (PList []) []]
               [mkKeymap None [] [1]]).
Proof. reflexivity. Qed.

(** ** class Keymap: conversion to a string *)

(** C9: [Keymap.__str__] asks the instance for an attribute [jsonify],
    which neither [__init__] nor the class body defines, so it raises
    [AttributeError] whatever the keymap holds and never gets to a JSON
    text. *)
Theorem Keymap_str_raises (h : heap) (self : kref) (k : Keymap) :
  keymaps h !! self = Some k ->
  Keymap.__str__ self h = Raise AttributeError.
Proof.
  intros Hk. unfold Keymap.__str__, Keymap.getattr.
  apply bind_Raise.
  rewrite (bind_Ok _ _ _ _ _ (get_keymap_Ok _ _ _ Hk)). reflexivity.
Qed.

Lemma Keymap_str_raises_witness :
  Keymap.__str__ 0 sample_heap = Raise AttributeError.
Proof. exact (Keymap_str_raises sample_heap 0 _ eq_refl). Defined.

(** ** class Binding: construction *)

(** C5, as the code has it: [Binding.__init__] accepts any number of keys,
    none included; it never fails, and the new instance holds the keys as
    given, no command, the empty list as [args] and no context. *)
Theorem Binding_init_never_fails (keys : list string) (h : heap) :
  Binding.__init__ keys h =
    Ok (length (bindings h),
        mkHeap (contexts h)
               (bindings h ++ [mkBinding keys None (PList []) []])
               (keymaps h))
  /\ forall e, Binding.__init__ keys h <> Raise e.
Proof. split; [reflexivity | discriminate]. Qed.

(** C5 fails on the code: a Binding built from no key at all is made like
    any other, with the empty tuple as its keys. *)
Lemma Binding_init_no_keys :
  Binding.__init__ [] empty_heap =
    Ok (0, mkHeap [] [mkBinding [] None (PList []) []] []).
Proof. reflexivity. Qed.

(** ** class Context: operators *)

(** No operator name is shadowed by an attribute or a method: asking a
    condition for one always gets to [__getattr__]. *)
Lemma operator_names_reach_getattr (name : string) :
  name ∈ Context._OPERATORS -> name ∉ Context.defined_attrs.
Proof.
  intros Hin Hdef.
  assert (H : bool_decide (name ∈ Context._OPERATORS)
              && bool_decide (name ∈ Context.defined_attrs) = true)
    by (now rewrite !bool_decide_eq_true_2).
  unfold Context._OPERATORS in Hin.
  repeat (apply elem_of_cons in Hin as [-> | Hin]; [discriminate H |]).
  inversion Hin.
Qed.

Lemma operator_names_plain (name : string) :
  name ∈ Context._OPERATORS -> Context.is_dunder name = false.
Proof.
  intros Hin. unfold Context._OPERATORS in Hin.
  repeat (apply elem_of_cons in Hin as [-> | Hin]; [reflexivity |]).
  inversion Hin.
Qed.

Lemma invoke_operator (self : cref) (name : string) (value : pydata) h :
  name ∈ Context._OPERATORS ->
  Context.invoke self name value h = Context._operator self name value h.
Proof.
  intros Hname. unfold Context.invoke, Context.__getattr__.
  rewrite (operator_names_plain name Hname).
  rewrite (bool_decide_eq_false_2 _ (operator_names_reach_getattr name Hname)).
  now rewrite (bool_decide_eq_true_2 _ Hname).
Qed.

(** C6, as the code has it.  A name inside [_OPERATORS] sets [operator]
    and [operand] together, keeps the other attributes, and returns the
    owning binding if there is one, else the condition itself.  A name
    outside it raises [AttributeError], the only error the module has for
    it, and changes nothing, provided the condition has no attribute of
    that name; the attributes and methods the class defines are found
    before [__getattr__] is asked, and calling one of them with an operand
    is a [TypeError].  Names with two leading underscores are left out. *)
Theorem Context_operator_names (h : heap) (self : cref) (c : Context)
    (name : string) (value : pydata) :
  contexts h !! self = Some c ->
  (name ∈ Context._OPERATORS ->
     Context.invoke self name value h =
       Ok (match _parent c with
           | Some owner => inl owner
           | None => inr self
           end,
           mkHeap (<[self := mkContext (key c) (Some name) value
                                       (match_all c) (_parent c)]> (contexts h))
                  (bindings h) (keymaps h)))
  /\ (name ∉ Context._OPERATORS ->
      name ∉ Context.defined_attrs ->
      Context.is_dunder name = false ->
      Context.invoke self name value h = Raise AttributeError)
  /\ (name ∈ Context.defined_attrs ->
      Context.is_dunder name = false ->
      Context.invoke self name value h = Raise TypeError).
Proof.
  intros Hc. split; [| split].
  - intros Hname. rewrite (invoke_operator self name value h Hname).
    unfold Context._operator.
    rewrite (bind_Ok _ _ _ _ _ (get_context_Ok _ _ _ Hc)). reflexivity.
  - intros Hname Hdef Hplain. unfold Context.invoke, Context.__getattr__.
    rewrite Hplain, (bool_decide_eq_false_2 _ Hdef).
    now rewrite (bool_decide_eq_false_2 _ Hname).
  - intros Hdef Hplain. unfold Context.invoke.
    now rewrite Hplain, (bool_decide_eq_true_2 _ Hdef).
Qed.

Lemma Context_operator_names_witness :
  Context.invoke 1 "regex_match" (PStr "^_") sample_heap =
    Ok (inl 0,
        mkHeap (<[1 := mkContext "preceding_text" (Some "regex_match")
                          (PStr "^_") None (Some 0)]> (contexts sample_heap))
               (bindings sample_heap) (keymaps sample_heap))
  /\ Context.invoke 2 "jsonify" (PInt 42) sample_heap = Raise AttributeError
  /\ Context.invoke 2 "match_all" (PInt 42) sample_heap = Raise TypeError.
Proof.
  split; [| split].
  - apply (Context_operator_names sample_heap 1 _ "regex_match" (PStr "^_")
             eq_refl).
    apply (bool_decide_eq_true_1 _). reflexivity.
  - apply (Context_operator_names sample_heap 2 _ "jsonify" (PInt 42) eq_refl).
    + apply (bool_decide_eq_false_1 _). reflexivity.
    + apply (bool_decide_eq_false_1 _). reflexivity.
    + reflexivity.
  - apply (Context_operator_names sample_heap 2 _ "match_all" (PInt 42)
             eq_refl).
    + apply (bool_decide_eq_true_1 _). reflexivity.
    + reflexivity.
Defined.

(** C6 fails on the code: [all] is not one of the operator names, and
    calling it with an operand does not raise the error of an unknown
    operator, [AttributeError], but the [TypeError] of a call with one
    argument too many: the class defines [all], so [__getattr__] is never
    asked. *)
Lemma Context_all_with_operand :
  bool_decide ("all" ∈ Context._OPERATORS) = false
  /\ Context.invoke 2 "all" (PInt 42) sample_heap = Raise TypeError.
Proof. split; reflexivity. Qed.

(** ** class Context: equality *)

(** C8 fails on the code: two conditions built the same way agree on
    [key], [operator], [operand] and [match_all], and [==] between them is
    false, because it compares addresses. *)
Lemma Context_eq_compares_identity :
  (do a <- Context.__init__ "foo" None;
   do b <- Context.__init__ "foo" None;
   ret (a, b, Context.__eq__ a b)) empty_heap =
    Ok ((0, 1, false),
        mkHeap [mkContext "foo" None PNone None None;
                mkContext "foo" None PNone None None] [] []).
Proof. reflexivity. Qed.

(** ** The encoder *)

Lemma pyval_nested_ind {O} (P : pyval O -> Prop) :
  P PNone ->
  (forall b, P (PBool b)) ->
  (forall n, P (PInt n)) ->
  (forall s, P (PStr s)) ->
  (forall l, Forall P l -> P (PList l)) ->
  (forall l, Forall P l -> P (PTuple l)) ->
  (forall d, Forall (fun p => P (snd p)) d -> P (PDict d)) ->
  (forall o, P (PObj o)) ->
  forall v, P v.
Proof.
  intros HN HB HI HS HL HT HD HO.
  fix IH 1. intros [| b | n | s | l | l | d | o].
  - exact HN.
  - apply HB.
  - apply HI.
  - apply HS.
  - apply HL. induction l as [| y l IHl]; constructor; [apply IH | exact IHl].
  - apply HT. induction l as [| y l IHl]; constructor; [apply IH | exact IHl].
  - apply HD. induction d as [| [a y] d IHd]; constructor;
      [apply IH | exact IHd].
  - apply HO.
Qed.

Lemma dumps_PList {O} (enc : O -> result json) l :
  dumps enc (PList l) = rbind (rmap (dumps enc) l) (fun js => Ok (JArr js)).
Proof.
  simpl. f_equal. induction l as [| x l IH]; [reflexivity |].
  simpl. now rewrite IH.
Qed.

Lemma dumps_PTuple {O} (enc : O -> result json) l :
  dumps enc (PTuple l) = rbind (rmap (dumps enc) l) (fun js => Ok (JArr js)).
Proof.
  simpl. f_equal. induction l as [| x l IH]; [reflexivity |].
  simpl. now rewrite IH.
Qed.

Lemma dumps_PDict {O} (enc : O -> result json) d :
  dumps enc (PDict d)
  = rbind (rmap (fun p => rbind (dumps enc (snd p)) (fun y => Ok (fst p, y))) d)
          (fun ms => Ok (JObj ms)).
Proof.
  simpl. f_equal. induction d as [| x d IH]; [reflexivity |].
  simpl. rewrite IH. now destruct (dumps enc (snd x)).
Qed.

Lemma rmap_total {A B} (f : A -> result B) l :
  Forall (fun x => exists y, f x = Ok y) l ->
  exists ys, rmap f l = Ok ys /\ length ys = length l.
Proof.
  induction 1 as [| x l [y Hy] _ (ys & Hys & Hlen)].
  - now exists [].
  - exists (y :: ys). simpl. rewrite Hy. simpl. rewrite Hys. simpl.
    split; [reflexivity | now rewrite Hlen].
Qed.

Lemma rmap_fst {A B} (g : A -> result B) (col : list (string * A)) ms :
  rmap (fun p => rbind (g (snd p)) (fun y => Ok (fst p, y))) col = Ok ms ->
  map fst ms = map fst col.
Proof.
  revert ms. induction col as [| [a v] col IH]; intros ms.
  - now intros [= <-].
  - simpl. intros E.
    apply rbind_Ok_inv in E as ([a' y] & Ey & E).
    apply rbind_Ok_inv in Ey as (y' & _ & [= <- <-]).
    apply rbind_Ok_inv in E as (ms' & Ems & [= <-]).
    simpl. now rewrite (IH ms' Ems).
Qed.

Lemma dumpable_list {O} (enc : O -> result json) l :
  Forall (dumpable enc) l -> dumpable enc (PList l).
Proof.
  intros Hl. destruct (rmap_total (dumps enc) l Hl) as (js & E & _).
  exists (JArr js). rewrite dumps_PList, E. reflexivity.
Qed.

Lemma dumpable_tuple {O} (enc : O -> result json) l :
  Forall (dumpable enc) l -> dumpable enc (PTuple l).
Proof.
  intros Hl. destruct (rmap_total (dumps enc) l Hl) as (js & E & _).
  exists (JArr js). rewrite dumps_PTuple, E. reflexivity.
Qed.

Lemma dumpable_dict {O} (enc : O -> result json) d :
  Forall (fun p => dumpable enc (snd p)) d -> dumpable enc (PDict d).
Proof.
  intros Hd.
  destruct (rmap_total
              (fun p => rbind (dumps enc (snd p)) (fun y => Ok (fst p, y))) d)
    as (ms & E & _).
  { eapply Forall_impl; [exact Hd |]. intros p [j Hj].
    exists (fst p, j). simpl. now rewrite Hj. }
  exists (JObj ms). rewrite dumps_PDict, E. reflexivity.
Qed.

Lemma dumpable_data (enc : Empty_set -> result json) (v : pydata) :
  dumpable enc v.
Proof.
  induction v as [| b | n | s | l IH | l IH | d IH | o] using pyval_nested_ind.
  - now exists JNull.
  - now exists (JBool b).
  - now exists (JNum n).
  - now exists (JStr s).
  - now apply dumpable_list.
  - now apply dumpable_tuple.
  - now apply dumpable_dict.
  - destruct o.
Qed.

Lemma dumpable_lift {O} (enc : O -> result json) (v : pydata) :
  dumpable enc (lift_data v).
Proof.
  induction v as [| b | n | s | l IH | l IH | d IH | o] using pyval_nested_ind.
  - now exists JNull.
  - now exists (JBool b).
  - now exists (JNum n).
  - now exists (JStr s).
  - simpl. apply dumpable_list, Forall_fmap. exact IH.
  - simpl. apply dumpable_tuple, Forall_fmap. exact IH.
  - simpl. apply dumpable_dict, Forall_fmap. exact IH.
  - destruct o.
Qed.

Lemma Forall_sorted_insert {V} (P : string * V -> Prop) p l :
  P p -> Forall P l -> Forall P (sorted_insert p l).
Proof.
  intros Hp. induction 1 as [| q l Hq Hl IH]; simpl.
  - now constructor.
  - destruct (String.ltb (fst p) (fst q)); repeat constructor; assumption.
Qed.

Lemma Forall_sorted_by_first {V} (P : string * V -> Prop) l :
  Forall P l -> Forall P (sorted_by_first l).
Proof.
  unfold sorted_by_first.
  assert (H : forall acc, Forall P acc -> Forall P l ->
            Forall P (fold_left (fun acc p => sorted_insert p acc) l acc)).
  { induction l as [| p l IH]; intros acc Hacc Hl; simpl; [exact Hacc |].
    inversion Hl; subst. apply IH; [| assumption].
    now apply Forall_sorted_insert. }
  apply H. constructor.
Qed.

Lemma dumpable_iffy_dict_sort {O} (enc : O -> result json) v :
  dumpable enc v -> dumpable enc (iffy_dict_sort v).
Proof.
  destruct v; try (intros H; exact H). intros [j Hj].
  unfold iffy_dict_sort. simpl isa_dict. cbv iota. unfold sort_dict.
  apply dumpable_dict, Forall_sorted_by_first.
  rewrite dumps_PDict in Hj. apply rbind_Ok_inv in Hj as (ms & Hms & _).
  clear j. revert ms Hms. induction d as [| p d IH]; intros ms Hms.
  - constructor.
  - simpl in Hms. apply rbind_Ok_inv in Hms as (y & Hy & Hms).
    apply rbind_Ok_inv in Hy as (j & Hj & _).
    apply rbind_Ok_inv in Hms as (ms' & Hms' & _).
    constructor; [now exists j | now apply (IH ms')].
Qed.

Lemma dumps_members_total {O} (enc : O -> result json) col :
  Forall (fun p => dumpable enc (snd p)) col ->
  exists ms, dumps_members enc col = Ok (JObj ms) /\ map fst ms = map fst col.
Proof.
  intros Hcol. unfold dumps_members.
  destruct (rmap_total
              (fun p => rbind (dumps enc (snd p)) (fun y => Ok (fst p, y))) col)
    as (ms & E & _).
  { eapply Forall_impl; [exact Hcol |]. intros p [j Hj].
    exists (fst p, j). simpl. now rewrite Hj. }
  exists ms. rewrite E. split; [reflexivity |]. now apply rmap_fst in E.
Qed.

Lemma dumps_strings {O} (enc : O -> result json) (l : list string) :
  dumps enc (PTuple (map PStr l)) = Ok (JArr (map JStr l)).
Proof.
  rewrite dumps_PTuple.
  assert (E : rmap (dumps enc) (map PStr l) = Ok (map JStr l)).
  { induction l as [| s l IH]; [reflexivity |]. simpl. now rewrite IH. }
  now rewrite E.
Qed.

(** The two passes of [remove_values] together drop [None], the empty list
    and the empty dict, and nothing else. *)
Lemma default_Context_kept c :
  KeymapJSONEncoder.default_Context c = Ok (kept (attrs_of_Context c))
  /\ map fst (kept (attrs_of_Context c))
     = List.filter (fun a => emitted (getattr_Context c a))
                   ["key"; "operator"; "operand"; "match_all"].
Proof.
  destruct c as [k op v ma p].
  destruct op as [op |]; destruct ma as [ma |];
    destruct v as [| vb | vn | vs | [| y l] | l | [| y d] | []];
    split; reflexivity.
Qed.

Lemma default_Binding_kept b :
  KeymapJSONEncoder.default_Binding b = Ok (kept (attrs_of_Binding b))
  /\ map fst (kept (attrs_of_Binding b))
     = List.filter (fun a => emitted (getattr_Binding b a))
                   ["keys"; "command"; "args"; "context"].
Proof.
  destruct b as [ks cmd ar ctx].
  destruct cmd as [cmd |]; destruct ctx as [| c ctx];
    destruct ar as [| vb | vn | vs | [| y l] | l | [| y d] | []];
    split; reflexivity.
Qed.

Lemma dumpable_kept {O} (enc : O -> result json) col :
  Forall (fun p => dumpable enc (snd p)) col ->
  Forall (fun p => dumpable enc (snd p)) (kept col).
Proof.
  intros Hcol. unfold kept, walk_values. apply Forall_fmap.
  apply Forall_forall. intros p Hp. simpl.
  apply dumpable_iffy_dict_sort.
  apply list_elem_of_In, filter_In in Hp as [Hp _].
  apply list_elem_of_In in Hp.
  exact (proj1 (Forall_forall _ _) Hcol p Hp).
Qed.

Lemma dumps_Context_total c :
  exists ms,
    dumps_Context c = Ok (JObj ms)
    /\ map fst ms
       = List.filter (fun a => emitted (getattr_Context c a))
                     ["key"; "operator"; "operand"; "match_all"].
Proof.
  destruct (default_Context_kept c) as [E Hnames].
  unfold dumps_Context. rewrite E. simpl rbind.
  destruct (dumps_members_total (fun o : Empty_set => match o with end)
              (kept (attrs_of_Context c))) as (ms & Ems & Hms).
  { apply Forall_forall. intros p _. apply dumpable_data. }
  exists ms. split; [exact Ems | congruence].
Qed.

(** C3, as the code has it: the JSON object of a Context, and of a Binding
    whose conditions are in the store, holds the attributes of the fixed
    order whose value is neither [None] nor an empty list nor an empty
    dict, in that order, and no other member.  An empty tuple is neither:
    it is kept. *)
Theorem encoder_omits_None_and_empty (c : Context) (h : heap) (b : Binding) :
  Forall (fun r => is_Some (contexts h !! r)) (context b) ->
  (exists ms,
     dumps_Context c = Ok (JObj ms)
     /\ map fst ms
        = List.filter (fun a => emitted (getattr_Context c a))
                      ["key"; "operator"; "operand"; "match_all"])
  /\ (exists ms,
        dumps_Binding h b = Ok (JObj ms)
        /\ map fst ms
           = List.filter (fun a => emitted (getattr_Binding b a))
                         ["keys"; "command"; "args"; "context"]).
Proof.
  intros Hctx. split; [apply dumps_Context_total |].
  destruct (default_Binding_kept b) as [E Hnames].
  unfold dumps_Binding. rewrite E. simpl rbind.
  match goal with |- context [dumps_members ?enc _] => set (enc_obj := enc) end.
  destruct (dumps_members_total enc_obj (kept (attrs_of_Binding b)))
    as (ms & Ems & Hms).
  { apply dumpable_kept. unfold attrs_of_Binding.
    repeat apply Forall_cons_2; [| | | | constructor]; simpl.
    - eexists. apply dumps_strings.
    - destruct (command b); eexists; reflexivity.
    - apply dumpable_lift.
    - apply dumpable_list, Forall_fmap.
      eapply Forall_impl; [exact Hctx |]. intros r [C HC].
      destruct (dumps_Context_total C) as (ms & Ems & _).
      exists (JObj ms). simpl. unfold enc_obj. now rewrite HC. }
  exists ms. split; [exact Ems | congruence].
Qed.

Lemma encoder_omits_None_and_empty_witness :
  (exists ms,
     dumps_Context (mkContext "selector" (Some "equal") (PList []) None None)
     = Ok (JObj ms)
     /\ map fst ms = ["key"; "operator"])
  /\ (exists ms,
        dumps_Binding sample_heap
          (mkBinding [] (Some "noop") (PDict []) [0; 2]) = Ok (JObj ms)
        /\ map fst ms = ["keys"; "command"; "context"]).
Proof.
  apply (encoder_omits_None_and_empty
           (mkContext "selector" (Some "equal") (PList []) None None)
           sample_heap (mkBinding [] (Some "noop") (PDict []) [0; 2])).
  repeat constructor; eexists; reflexivity.
Defined.

(** C3 fails on the code: the [keys] of a Binding built from no key are
    the empty tuple, an empty sequence, and the JSON object has them, as
    [[]]. *)
Lemma empty_keys_are_emitted :
  getattr_Binding (mkBinding [] None (PList []) []) "keys" = Ok (PTuple [])
  /\ (do b <- Binding.__init__ [];
      jsonify_Binding b) empty_heap
     = Ok (JObj [("keys", JArr [])],
           mkHeap [] [mkBinding [] None (PList []) []] []).
Proof. split; reflexivity. Qed.

(** C10: a Binding that has keys and has seen neither [to] nor [when]
    serializes as the object of its keys alone: its [command] is [None],
    its [args] the empty list and its [context] empty. *)
Theorem new_Binding_json_has_keys_only (keys : list string) (h : heap) :
  keys <> [] ->
  (do b <- Binding.__init__ keys;
   jsonify_Binding b) h
  = Ok (JObj [("keys", JArr (map JStr keys))],
        mkHeap (contexts h)
               (bindings h ++ [mkBinding keys None (PList []) []])
               (keymaps h)).
Proof.
  intros _. unfold bind, Binding.__init__, new_binding, jsonify_Binding.
  unfold bind, get_binding. cbn [bindings]. rewrite lookup_new.
  unfold lift_result, dumps_Binding.
  change (KeymapJSONEncoder.default_Binding (mkBinding keys None (PList []) []))
    with (Ok [("keys", @PTuple cref (map PStr keys))]).
  unfold rbind at 1. unfold dumps_members. cbn [rmap snd fst].
  rewrite dumps_strings. reflexivity.
Qed.

Lemma new_Binding_json_has_keys_only_witness :
  (do b <- Binding.__init__ ["super+k"; "super+shift+up"];
   jsonify_Binding b) empty_heap
  = Ok (JObj [("keys", JArr [JStr "super+k"; JStr "super+shift+up"])],
        mkHeap [] [mkBinding ["super+k"; "super+shift+up"] None (PList []) []]
               []).
Proof.
  apply (new_Binding_json_has_keys_only ["super+k"; "super+shift+up"]
           empty_heap).
  discriminate.
Defined.

(** * More of the module *)

(** ** [Keymap.extend] and [Keymap.__lshift__] at the edges *)

Lemma select_from_none {A} keep i (l : list A) :
  (forall a, keep a = false) -> select_from keep i l = [].
Proof.
  intros Hk. revert i. induction l as [| x l IH]; intros i; [reflexivity |].
  simpl. now rewrite Hk.
Qed.

Lemma close_empty h n : close h n ∅ = ∅.
Proof.
  induction n as [| n IH]; [reflexivity |]. simpl.
  assert (E : grow h ∅ = ∅).
  { unfold grow. rewrite elements_empty. simpl. set_solver. }
  now rewrite E.
Qed.

Lemma deepcopy_nothing h : deepcopy [] h = Ok ([], h).
Proof.
  unfold deepcopy. cbv zeta. f_equal. f_equal.
  unfold twin_heap.
  rewrite !select_from_none.
  - destruct h. simpl. now rewrite !app_nil_r.
  - intros k. reflexivity.
  - intros b. simpl. apply bool_decide_eq_false_2.
    unfold reachable. simpl. rewrite close_empty. set_solver.
  - intros c. simpl. apply bool_decide_eq_false_2.
    unfold reachable. simpl. rewrite close_empty. set_solver.
Qed.

Lemma Keymap_eta km :
  mkKeymap (_default_match_all km) (_common_context km) (_bindings km ++ [])
  = km.
Proof. destruct km. simpl. now rewrite app_nil_r. Qed.

(** X1: [extend] called with no binding at all stores nothing and touches
    nothing: the store afterwards is the store before. *)
Theorem Keymap_extend_nothing (h : heap) (self : kref) (km : Keymap) :
  keymaps h !! self = Some km ->
  Keymap.extend self [] h = Ok (None, h).
Proof.
  intros Hself. unfold Keymap.extend, Keymap._preprocess.
  unfold bind at 1. unfold bind at 1. rewrite deepcopy_nothing.
  unfold bind at 1. unfold lflatten. simpl lift_result.
  unfold Keymap._apply_common_context, Keymap._apply_default_match_all.
  simpl. unfold bind at 1.
  rewrite (get_keymap_Ok _ _ _ Hself). unfold bind, put_keymap, ret.
  rewrite Keymap_eta, list_insert_id by assumption. now destruct h.
Qed.

Lemma Keymap_extend_nothing_witness :
  Keymap.extend 0 [] sample_heap = Ok (None, sample_heap).
Proof. exact (Keymap_extend_nothing sample_heap 0 _ eq_refl). Defined.

Lemma Keymap_extend_value self seq h r h' :
  Keymap.extend self seq h = Ok (r, h') -> r = None.
Proof.
  unfold Keymap.extend, bind.
  destruct (Keymap._preprocess self seq h) as [[stored h1] | e]; [| discriminate].
  destruct (get_keymap self h1) as [[k h2] | e]; [| discriminate].
  unfold put_keymap, ret. now intros [= <- _].
Qed.

(** X2: [keymap << binding] does what [keymap.extend(binding)] does, to the
    store and in what it returns ([None]), and fails where it fails. *)
Theorem Keymap_lshift_is_extend (self : kref) (b : bref) (h : heap) :
  Keymap.__lshift__ self b h = Keymap.extend self [IBinding b] h.
Proof.
  unfold Keymap.__lshift__.
  assert (E : Keymap.extend self [IList [IBinding b]] h
              = Keymap.extend self [IBinding b] h) by reflexivity.
  unfold bind. rewrite E.
  destruct (Keymap.extend self [IBinding b] h) as [[r h'] | e] eqn:Eext;
    [| reflexivity].
  apply Keymap_extend_value in Eext as ->. reflexivity.
Qed.

(** ** What [_preprocess] leaves alone *)

Lemma with_default_None C : with_default None C = C.
Proof. destruct C as [? ? ? [v |] ?]; reflexivity. Qed.

Lemma preprocess_frame (h : heap) (self : kref) (km : Keymap)
    (seq : list item) :
  wf_heap h = true ->
  forallb (wf_item h) seq = true ->
  keymaps h !! self = Some km ->
  exists stored h',
    Keymap._preprocess self seq h = Ok (stored, h')
    /\ (forall s, s ∈ stored -> length (bindings h) <= s)
    /\ (forall b, b < length (bindings h) ->
          bindings h' !! b = bindings h !! b)
    /\ (forall k, k < length (keymaps h) -> keymaps h' !! k = keymaps h !! k)
    /\ (forall c C, contexts h !! c = Some C -> c ∉ _common_context km ->
          contexts h' !! c = Some C).
Proof.
  intros Hwf Hseq Hself.
  destruct (flatten_seq_wf h seq Hwf Hseq) as (flat & Hflat & Hvalid).
  destruct (preprocess_stages self km seq flat h Hwf Hself Hflat Hvalid)
    as (h' & Erun & _ & _ & Hc).
  destruct (preprocess_stored self km seq flat h Hwf Hself Hflat Hvalid)
    as (h2 & Erun2 & Hk & Hb & _ & Hstored).
  rewrite Erun in Erun2. injection Erun2 as <-.
  pose proof (deepcopy_memo_of h seq) as Hm.
  exists (map (copy_binding (deepcopy_memo h seq)) flat), h'.
  split; [exact Erun |]. clear Erun.
  set (m := deepcopy_memo h seq) in *. clearbody m.
  split; [| split; [exact Hb | split; [exact Hk |]]].
  - intros s Hs. apply list_elem_of_fmap in Hs as (b & -> & _).
    apply (copy_binding_new m h Hm).
  - intros c C HC Hcc. rewrite Hc.
    rewrite (twin_context_old m h c) by (eapply lookup_lt_Some, HC).
    rewrite HC. simpl. unfold touch.
    rewrite bool_decide_eq_false_2; [reflexivity |].
    intros Hv. unfold visited in Hv.
    apply list_elem_of_In, in_concat in Hv as (l & Hl & Hin).
    apply in_map_iff in Hl as (s & <- & Hs).
    apply list_elem_of_In, list_elem_of_fmap in Hs as (b & -> & Hb').
    destruct (lookup_lt_is_Some_2 _ _ (Hvalid b Hb')) as [B HB].
    destruct (Hstored b B Hb' HB) as (HB' & _ & _).
    rewrite HB' in Hin. simpl in Hin.
    apply list_elem_of_In, elem_of_app in Hin as [Hin | Hin].
    + apply list_elem_of_fmap in Hin as (c0 & -> & _).
      pose proof (copy_context_new m h Hm c0).
      apply lookup_lt_Some in HC. lia.
    + apply elem_of_repeated in Hin. contradiction.
Qed.

(** X3: [_preprocess] works on copies.  The bindings it stores are new
    instances; every binding and keymap that existed before the call is
    afterwards what it was, and so is every condition that is not one of
    the keymap's common conditions. *)
Theorem preprocess_leaves_originals (h : heap) (self : kref) (km : Keymap)
    (seq : list item) :
  wf_heap h = true ->
  forallb (wf_item h) seq = true ->
  keymaps h !! self = Some km ->
  exists stored h',
    Keymap._preprocess self seq h = Ok (stored, h')
    /\ (forall s, s ∈ stored -> length (bindings h) <= s)
    /\ (forall b, b < length (bindings h) ->
          bindings h' !! b = bindings h !! b)
    /\ (forall k, k < length (keymaps h) -> keymaps h' !! k = keymaps h !! k)
    /\ (forall c C, contexts h !! c = Some C -> c ∉ _common_context km ->
          contexts h' !! c = Some C).
Proof. apply preprocess_frame. Qed.

Lemma preprocess_leaves_originals_witness :
  exists stored h',
    Keymap._preprocess 0 [IBinding 0; IList [IBinding 1]] sample_heap
    = Ok (stored, h')
    /\ (forall s, s ∈ stored -> length (bindings sample_heap) <= s)
    /\ (forall b, b < length (bindings sample_heap) ->
          bindings h' !! b = bindings sample_heap !! b)
    /\ (forall k, k < length (keymaps sample_heap) ->
          keymaps h' !! k = keymaps sample_heap !! k)
    /\ (forall c C, contexts sample_heap !! c = Some C -> c ∉ [2] ->
          contexts h' !! c = Some C).
Proof.
  exact (preprocess_leaves_originals sample_heap 0 (mkKeymap (Some true) [2] [])
           [IBinding 0; IList [IBinding 1]] eq_refl eq_refl eq_refl).
Defined.

(** X4: for a keymap with no default ([default_match_all=None]),
    [_preprocess] changes no condition that existed before, the common
    conditions included, and every condition of a stored binding has the
    public attributes, [match_all] among them, of the condition it is or
    was copied from. *)
Theorem preprocess_without_default (h : heap) (self : kref) (km : Keymap)
    (seq : list item) :
  wf_heap h = true ->
  forallb (wf_item h) seq = true ->
  keymaps h !! self = Some km ->
  _default_match_all km = None ->
  exists stored h',
    Keymap._preprocess self seq h = Ok (stored, h')
    /\ (forall c C, contexts h !! c = Some C -> contexts h' !! c = Some C)
    /\ forall s, s ∈ stored ->
       exists S,
         bindings h' !! s = Some S
         /\ forall c', c' ∈ context S ->
            exists c C C',
              (c' = c \/ c' = copy_context (deepcopy_memo h seq) c)
              /\ contexts h !! c = Some C
              /\ contexts h' !! c' = Some C'
              /\ view_Context C' = view_Context C.
Proof.
  intros Hwf Hseq Hself Hd.
  destruct (flatten_seq_wf h seq Hwf Hseq) as (flat & Hflat & Hvalid).
  destruct (preprocess_stored self km seq flat h Hwf Hself Hflat Hvalid)
    as (h' & Erun & _ & _ & Hold & Hstored).
  rewrite Hd in Hold, Hstored.
  exists (map (copy_binding (deepcopy_memo h seq)) flat), h'.
  split; [exact Erun |]. clear Erun.
  set (m := deepcopy_memo h seq) in *. clearbody m. split.
  - intros c C HC. destruct (Hold c C HC) as [E | E]; [exact E |].
    now rewrite with_default_None in E.
  - intros s Hs. apply list_elem_of_fmap in Hs as (b & -> & Hb).
    destruct (lookup_lt_is_Some_2 _ _ (Hvalid b Hb)) as [B HB].
    destruct (Hstored b B Hb HB) as (HB' & Hown & Hcommon).
    eexists. split; [exact HB' |]. simpl. intros c' Hc'.
    apply elem_of_app in Hc' as [Hc' | Hc'].
    + apply list_elem_of_fmap in Hc' as (c & -> & Hc).
      pose proof (wf_heap_binding h b B c Hwf HB Hc) as Hlt.
      destruct (lookup_lt_is_Some_2 _ _ Hlt) as [C HC].
      eexists c, C, _. split; [now right |]. split; [exact HC |].
      split; [exact (Hown c C Hc HC) |].
      now rewrite with_default_None.
    + apply elem_of_repeated in Hc'.
      pose proof (wf_heap_keymap_common h self km c' Hwf Hself Hc') as Hlt.
      destruct (lookup_lt_is_Some_2 _ _ Hlt) as [C HC].
      eexists c', C, _. split; [now left |]. split; [exact HC |].
      split; [exact (Hcommon c' C Hc' HC) |].
      now rewrite with_default_None.
Qed.

Lemma preprocess_without_default_witness :
  exists stored h',
    Keymap._preprocess 0 [IBinding 0; IList [IBinding 1]] sample_heap_no_default
    = Ok (stored, h')
    /\ (forall c C, contexts sample_heap_no_default !! c = Some C ->
          contexts h' !! c = Some C)
    /\ forall s, s ∈ stored ->
       exists S,
         bindings h' !! s = Some S
         /\ forall c', c' ∈ context S ->
            exists c C C',
              (c' = c
               \/ c' = copy_context
                         (deepcopy_memo sample_heap_no_default
                            [IBinding 0; IList [IBinding 1]]) c)
              /\ contexts sample_heap_no_default !! c = Some C
              /\ contexts h' !! c' = Some C'
              /\ view_Context C' = view_Context C.
Proof.
  exact (preprocess_without_default sample_heap_no_default 0
           (mkKeymap None [2] []) [IBinding 0; IList [IBinding 1]]
           eq_refl eq_refl eq_refl eq_refl).
Defined.

(** X5: changing a binding after it has been handed to a keymap does not
    reach the keymap: [to], with keywords Python can bind, on any binding
    that existed before [_preprocess] changes that binding and leaves
    every stored binding, seen with its conditions, as it was. *)
Theorem stored_copy_ignores_later_to (h : heap) (self : kref) (km : Keymap)
    (seq : list item) (b : bref) (B : Binding) (command : string)
    (args : list (string * pydata)) :
  wf_heap h = true ->
  forallb (wf_item h) seq = true ->
  keymaps h !! self = Some km ->
  bindings h !! b = Some B ->
  Binding.binds args = true ->
  exists stored h' h'',
    Keymap._preprocess self seq h = Ok (stored, h')
    /\ Binding.to b command args h' = Ok (b, h'')
    /\ bindings h'' !! b
       = Some (mkBinding (keys B) (Some command) (PDict args) (context B))
    /\ forall s, s ∈ stored -> view_Binding h'' s = view_Binding h' s.
Proof.
  intros Hwf Hseq Hself HB Hargs.
  destruct (preprocess_frame h self km seq Hwf Hseq Hself)
    as (stored & h' & Erun & Hnew & Hold & _ & _).
  pose proof (lookup_lt_Some _ _ _ HB) as Hb.
  assert (HB' : bindings h' !! b = Some B) by (now rewrite Hold).
  eexists stored, h', _. split; [exact Erun |]. split; [| split].
  - unfold Binding.to. rewrite (bind_Ok _ _ _ _ _ (get_binding_Ok _ _ _ HB')).
    rewrite Hargs. reflexivity.
  - cbn [bindings]. apply list_lookup_insert_eq.
    eapply lookup_lt_Some, HB'.
  - intros s Hs. unfold view_Binding. cbn [bindings contexts].
    rewrite list_lookup_insert_ne; [reflexivity |].
    specialize (Hnew s Hs). lia.
Qed.

Lemma stored_copy_ignores_later_to_witness :
  exists stored h' h'',
    Keymap._preprocess 0 [IBinding 0] sample_heap = Ok (stored, h')
    /\ Binding.to 0 "move" [("by", PStr "lines"); ("forward", PBool true)] h'
       = Ok (0, h'')
    /\ bindings h'' !! 0
       = Some (mkBinding ["backspace"] (Some "move")
                 (PDict [("by", PStr "lines"); ("forward", PBool true)])
                 [0; 1])
    /\ forall s, s ∈ stored -> view_Binding h'' s = view_Binding h' s.
Proof.
  exact (stored_copy_ignores_later_to sample_heap 0
           (mkKeymap (Some true) [2] []) [IBinding 0] 0
           (mkBinding ["backspace"] (Some "run_macro_file")
                      (PDict [("file", PStr "X")]) [0; 1])
           "move" [("by", PStr "lines"); ("forward", PBool true)]
           eq_refl eq_refl eq_refl eq_refl eq_refl).
Defined.

(** ** Construction, [extend] and what the keymap holds *)

(** X6: [extend] only appends.  Afterwards the keymap iterates over the
    bindings it had, in their order, followed by the new ones, one for
    each binding of the flattened arguments; the bindings it had are
    unchanged, and so are its default and its common context. *)
Theorem Keymap_extend_appends (h : heap) (self : kref) (km : Keymap)
    (seq : list item) :
  wf_heap h = true ->
  forallb (wf_item h) seq = true ->
  keymaps h !! self = Some km ->
  exists flat stored h',
    flatten_seq h seq = Ok flat
    /\ length stored = length flat
    /\ Keymap.extend self seq h = Ok (None, h')
    /\ keymaps h' !! self
       = Some (mkKeymap (_default_match_all km) (_common_context km)
                        (_bindings km ++ stored))
    /\ Keymap.__iter__ self h' = Ok (_bindings km ++ stored, h')
    /\ forall b, b ∈ _bindings km -> bindings h' !! b = bindings h !! b.
Proof.
  intros Hwf Hseq Hself.
  destruct (Keymap_extend_stores h self km seq Hwf Hseq Hself)
    as (flat & stored & h1 & Hflat & Hlen & Erun & Eext).
  destruct (preprocess_wf h self km seq stored h1 Hwf Hseq Hself Erun)
    as (_ & _ & _ & Hself1 & _).
  destruct (preprocess_frame h self km seq Hwf Hseq Hself)
    as (stored' & h1' & Erun' & _ & Hold & _ & _).
  rewrite Erun in Erun'. injection Erun' as <- <-.
  eexists flat, stored, _. split; [exact Hflat |]. split; [exact Hlen |].
  split; [exact Eext |].
  assert (Hk : forall A (l : list A) x, self < length l -> <[self := x]> l !! self = Some x)
    by (intros; now apply list_lookup_insert_eq).
  split; [| split].
  - cbn [keymaps]. apply Hk. eapply lookup_lt_Some, Hself1.
  - unfold Keymap.__iter__. erewrite bind_Ok;
      [| apply get_keymap_Ok; cbn [keymaps]; apply Hk;
         eapply lookup_lt_Some, Hself1].
    reflexivity.
  - intros b Hb. cbn [bindings]. apply Hold.
    eapply wf_heap_keymap_bindings; eassumption.
Qed.

Lemma Keymap_extend_appends_witness :
  exists flat stored h',
    flatten_seq sample_heap [IBinding 0; IList [IBinding 1]] = Ok flat
    /\ length stored = length flat
    /\ Keymap.extend 0 [IBinding 0; IList [IBinding 1]] sample_heap
       = Ok (None, h')
    /\ keymaps h' !! 0 = Some (mkKeymap (Some true) [2] ([] ++ stored))
    /\ Keymap.__iter__ 0 h' = Ok ([] ++ stored, h')
    /\ forall b, b ∈ [] -> bindings h' !! b = bindings sample_heap !! b.
Proof.
  exact (Keymap_extend_appends sample_heap 0 (mkKeymap (Some true) [2] [])
           [IBinding 0; IList [IBinding 1]] eq_refl eq_refl eq_refl).
Defined.

(** X7: after any sequence of [extend] calls the length of the keymap is
    the length it had plus the number of bindings in the batches, each
    batch flattened as the store stands when its call is made. *)
Theorem Keymap_len_counts_extends (batches : list (list item)) (h : heap)
    (self : kref) (km : Keymap) :
  wf_heap h = true ->
  Forall (fun seq => forallb (wf_item h) seq = true) batches ->
  keymaps h !! self = Some km ->
  exists n h',
    extend_all self batches h = Ok (n, h')
    /\ Keymap.__len__ self h' = Ok (length (_bindings km) + n, h').
Proof. apply Keymap_len_after_extends. Qed.

Lemma Keymap_len_counts_extends_witness :
  exists n h',
    extend_all 0 [[IBinding 0]; []; [ITuple [IBinding 1; IKeymap 0]]]
      sample_heap = Ok (n, h')
    /\ Keymap.__len__ 0 h' = Ok (0 + n, h').
Proof.
  apply (Keymap_len_counts_extends
           [[IBinding 0]; []; [ITuple [IBinding 1; IKeymap 0]]]
           sample_heap 0 (mkKeymap (Some true) [2] []));
    [reflexivity | | reflexivity].
  repeat constructor.
Defined.

Lemma flatten_item_more_keymaps h k x :
  wf_item h x = true ->
  flatten_item (mkHeap (contexts h) (bindings h) (keymaps h ++ [k])) x
  = flatten_item h x.
Proof.
  induction x as [b | l IH | l IH | k0] using item_nested_ind.
  - reflexivity.
  - rewrite !flatten_item_list. simpl. intros Hl.
    induction IH as [| y l Hy _ IHl]; [reflexivity |].
    simpl in Hl. apply andb_true_iff in Hl as [Hwy Hwl].
    simpl. now rewrite (Hy Hwy), (IHl Hwl).
  - rewrite !flatten_item_tuple. simpl. intros Hl.
    induction IH as [| y l Hy _ IHl]; [reflexivity |].
    simpl in Hl. apply andb_true_iff in Hl as [Hwy Hwl].
    simpl. now rewrite (Hy Hwy), (IHl Hwl).
  - cbn [wf_item flatten_item keymaps]. intros Hk. apply Nat.ltb_lt in Hk.
    now rewrite lookup_app_l.
Qed.

(** X8: constructing a [Keymap] from bindings, a default [d] and a common
    context [cc] succeeds and makes a new keymap that has [d] and [cc] as given and
    holds one stored binding for each binding of the flattened arguments:
    that number is its length, and iterating it yields them. *)
Theorem Keymap_init_holds_flattened (h : heap) (seq : list item)
    (d : option bool) (cc : list cref) :
  wf_heap h = true ->
  forallb (wf_item h) seq = true ->
  forallb (fun c => c <? length (contexts h)) cc = true ->
  exists flat stored h',
    flatten_seq h seq = Ok flat
    /\ length stored = length flat
    /\ Keymap.__init__ seq d cc h = Ok (length (keymaps h), h')
    /\ keymaps h' !! length (keymaps h) = Some (mkKeymap d cc stored)
    /\ Keymap.__len__ (length (keymaps h)) h' = Ok (length flat, h')
    /\ Keymap.__iter__ (length (keymaps h)) h' = Ok (stored, h').
Proof.
  intros Hwf Hseq Hcc.
  set (h0 := mkHeap (contexts h) (bindings h) (keymaps h ++ [mkKeymap d cc []])).
  assert (Hwf0 : wf_heap h0 = true).
  { change (wf_heap h0)
      with (forallb (wf_Context h) (contexts h)
            && forallb (wf_Binding h) (bindings h)
            && forallb (wf_Keymap h) (keymaps h ++ [mkKeymap d cc []])).
    unfold wf_heap in Hwf.
    apply andb_true_iff in Hwf as [Hwf Hk]. rewrite Hwf.
    rewrite forallb_app, Hk. simpl. unfold wf_Keymap. simpl.
    now rewrite Hcc. }
  assert (Hseq0 : forallb (wf_item h0) seq = true).
  { apply forallb_forall. intros x Hx. apply wf_item_more_keymaps.
    exact (proj1 (forallb_forall _ _) Hseq x Hx). }
  assert (Hself0 : keymaps h0 !! length (keymaps h) = Some (mkKeymap d cc []))
    by apply lookup_new.
  destruct (flatten_seq_wf h seq Hwf Hseq) as (flat & Hflat & _).
  assert (Hflat0 : flatten_seq h0 seq = Ok flat).
  { rewrite <- flatten_item_tuple in *. unfold h0.
    now rewrite flatten_item_more_keymaps. }
  destruct (Keymap_init_stores h seq d cc Hwf Hseq Hcc)
    as (stored & h1 & Erun & Einit). fold h0 in Erun.
  destruct (Keymap_extend_stores h0 _ _ seq Hwf0 Hseq0 Hself0)
    as (flat' & stored' & h1' & Hflat' & Hlen & Erun' & _).
  rewrite Erun in Erun'. injection Erun' as <- <-.
  assert (flat' = flat) as -> by congruence.
  destruct (preprocess_wf h0 _ _ seq stored h1 Hwf0 Hseq0 Hself0 Erun)
    as (_ & _ & _ & Hself1 & _).
  assert (Hnew : <[length (keymaps h) := mkKeymap d cc stored]> (keymaps h1)
                 !! length (keymaps h) = Some (mkKeymap d cc stored)).
  { apply list_lookup_insert_eq. eapply lookup_lt_Some, Hself1. }
  eexists flat, stored, _. split; [exact Hflat |]. split; [exact Hlen |].
  split; [exact Einit |]. split; [exact Hnew |]. split.
  - unfold Keymap.__len__. erewrite bind_Ok; [| apply get_keymap_Ok, Hnew].
    unfold ret. cbn [_bindings]. now rewrite Hlen.
  - unfold Keymap.__iter__. erewrite bind_Ok; [| apply get_keymap_Ok, Hnew].
    reflexivity.
Qed.

Lemma Keymap_init_holds_flattened_witness :
  exists flat stored h',
    flatten_seq sample_heap [IBinding 1; ITuple [IBinding 0; IKeymap 0]]
    = Ok flat
    /\ length stored = length flat
    /\ Keymap.__init__ [IBinding 1; ITuple [IBinding 0; IKeymap 0]]
         (Some false) [2; 0] sample_heap
       = Ok (length (keymaps sample_heap), h')
    /\ keymaps h' !! length (keymaps sample_heap)
       = Some (mkKeymap (Some false) [2; 0] stored)
    /\ Keymap.__len__ (length (keymaps sample_heap)) h' = Ok (length flat, h')
    /\ Keymap.__iter__ (length (keymaps sample_heap)) h' = Ok (stored, h').
Proof.
  exact (Keymap_init_holds_flattened sample_heap
           [IBinding 1; ITuple [IBinding 0; IKeymap 0]] (Some false) [2; 0]
           eq_refl eq_refl eq_refl).
Defined.

(** ** The fluent interface *)

Lemma insert_new {A} (l : list A) (x y : A) :
  <[length l := y]> (l ++ [x]) = l ++ [y].
Proof.
  rewrite insert_app_r_alt by lia. now rewrite Nat.sub_diag.
Qed.

(** X9: the chain [binding.when(key).<operator>(operand)], for each of the
    six operator names, gives the binding back, so that the chain can go
    on; afterwards the binding has one more condition, the last of its
    context, which is a new instance with this key, operator and operand,
    no [match_all], and the binding as its parent.  Nothing else in the
    store changes. *)
Theorem when_then_operator (h : heap) (b : bref) (B : Binding)
    (key name : string) (v : pydata) :
  bindings h !! b = Some B ->
  name ∈ Context._OPERATORS ->
  (do c <- Binding.when b key;
   Context.invoke c name v) h
  = Ok (inl b,
        mkHeap (contexts h ++ [mkContext key (Some name) v None (Some b)])
               (<[b := mkBinding (keys B) (command B) (args B)
                                 (context B ++ [length (contexts h)])]>
                  (bindings h))
               (keymaps h)).
Proof.
  intros HB Hname.
  assert (Ewhen : Binding.when b key h
            = Ok (length (contexts h),
                  mkHeap (contexts h ++ [mkContext key None PNone None (Some b)])
                         (<[b := mkBinding (keys B) (command B) (args B)
                                   (context B ++ [length (contexts h)])]>
                            (bindings h))
                         (keymaps h))).
  { unfold Binding.when, Context.__init__, bind, new_context, get_binding,
      put_binding, ret.
    cbn [bindings contexts keymaps]. now rewrite HB. }
  rewrite (bind_Ok _ _ _ _ _ Ewhen), (invoke_operator _ name v _ Hname).
  unfold Context._operator, bind, get_context, put_context, ret.
  cbn [bindings contexts keymaps]. rewrite lookup_new.
  cbn [bindings contexts keymaps]. cbn beta iota.
  rewrite insert_new. reflexivity.
Qed.

Lemma when_then_operator_witness :
  (do c <- Binding.when 1 "preceding_text";
   Context.invoke c "regex_contains" (PStr "_$")) sample_heap
  = Ok (inl 1,
        mkHeap (contexts sample_heap
                ++ [mkContext "preceding_text" (Some "regex_contains")
                              (PStr "_$") None (Some 1)])
               (<[1 := mkBinding ["super+k"] (Some "new_pane")
                                 (PDict [("move", PBool false)])
                                 ([] ++ [length (contexts sample_heap)])]>
                  (bindings sample_heap))
               (keymaps sample_heap)).
Proof.
  apply (when_then_operator sample_heap 1
           (mkBinding ["super+k"] (Some "new_pane")
                      (PDict [("move", PBool false)]) [])
           "preceding_text" "regex_contains" (PStr "_$")).
  - reflexivity.
  - apply (bool_decide_unpack _). reflexivity.
Defined.

(** X10: a second [to] on a binding replaces what the first one set:
    when the keywords of the first call can be bound, two calls in a row
    do what the second call alone does, whatever the binding, and fail
    where it fails.  A first call whose keywords cannot be bound is a
    [TypeError], and nothing is changed. *)
Theorem Binding_to_last_wins (b : bref) (command1 command2 : string)
    (args1 args2 : list (string * pydata)) (h : heap) :
  (Binding.binds args1 = true ->
     (do_ Binding.to b command1 args1;
      Binding.to b command2 args2) h
     = Binding.to b command2 args2 h)
  /\ (Binding.binds args1 = false ->
      is_Some (bindings h !! b) ->
      (do_ Binding.to b command1 args1;
       Binding.to b command2 args2) h
      = Raise TypeError).
Proof.
  unfold Binding.to, bind, get_binding.
  destruct (bindings h !! b) as [B |] eqn:HB.
  2: { split; [reflexivity |]. now intros _ [? ?]. }
  split; intros -> ; [| reflexivity].
  unfold put_binding, ret. cbn [bindings contexts keymaps].
  rewrite list_lookup_insert_eq by (eapply lookup_lt_Some, HB).
  destruct (Binding.binds args2); [| reflexivity].
  cbn [bindings contexts keymaps keys context].
  now rewrite list_insert_insert_eq.
Qed.

Lemma Binding_to_last_wins_witness :
  (do_ Binding.to 1 "new_pane" [("move", PBool false)];
   Binding.to 1 "move" [("by", PStr "lines"); ("forward", PBool true)])
    sample_heap
  = Binding.to 1 "move" [("by", PStr "lines"); ("forward", PBool true)]
      sample_heap
  /\ (do_ Binding.to 1 "new_pane" [("command", PStr "move")];
      Binding.to 1 "move" []) sample_heap
     = Raise TypeError.
Proof.
  split.
  - apply (Binding_to_last_wins 1 "new_pane" "move" [("move", PBool false)]
             [("by", PStr "lines"); ("forward", PBool true)] sample_heap).
    reflexivity.
  - apply (Binding_to_last_wins 1 "new_pane" "move"
             [("command", PStr "move")] [] sample_heap).
    + reflexivity.
    + eexists. reflexivity.
Defined.

(** X11: the setters of a condition overwrite: of two operator calls in a
    row, of [all] then [any] and of [any] then [all], the second alone
    decides what the condition holds and what the call returns.  The
    operator calls leave [match_all] alone and [all] and [any] leave the
    operator and operand alone: in either order they lead to one store. *)
Theorem Context_setters_overwrite (c : cref) (h : heap) :
  (forall o1 v1 o2 v2,
     (do_ Context._operator c o1 v1; Context._operator c o2 v2) h
     = Context._operator c o2 v2 h)
  /\ (do_ Context.all c; Context.any c) h = Context.any c h
  /\ (do_ Context.any c; Context.all c) h = Context.all c h
  /\ (forall o v,
        (do_ Context.all c; do_ Context._operator c o v; ret tt) h
        = (do_ Context._operator c o v; do_ Context.all c; ret tt) h)
  /\ (forall o v,
        (do_ Context.any c; do_ Context._operator c o v; ret tt) h
        = (do_ Context._operator c o v; do_ Context.any c; ret tt) h).
Proof.
  unfold Context._operator, Context.all, Context.any, bind, get_context,
    put_context, ret.
  destruct (contexts h !! c) as [C |] eqn:HC.
  2: { repeat split; reflexivity. }
  pose proof (lookup_lt_Some _ _ _ HC) as Hlt.
  cbn [bindings contexts keymaps].
  rewrite !list_lookup_insert_eq by assumption.
  repeat split; intros;
    cbn [bindings contexts keymaps key operator operand match_all _parent];
    rewrite ?list_lookup_insert_eq by assumption;
    cbn [bindings contexts keymaps key operator operand match_all _parent];
    now rewrite !list_insert_insert_eq.
Qed.

(** ** The order of the keys of a dict *)

Lemma ascii_compare_trans a b c o :
  Ascii.compare a b = o -> Ascii.compare b c = o -> Ascii.compare a c = o.
Proof.
  unfold Ascii.compare. destruct o; intros H1 H2.
  - apply N.compare_eq_iff in H1, H2. apply N.compare_eq_iff. congruence.
  - rewrite N.compare_lt_iff in *. lia.
  - rewrite N.compare_gt_iff in *. lia.
Qed.

Lemma string_compare_not_Lt_trans a b c :
  String.compare a b <> Lt -> String.compare b c <> Lt ->
  String.compare a c <> Lt.
Proof.
  revert b c. induction a as [| x a IH]; intros [| y b] [| z c]; simpl;
    try congruence.
  destruct (Ascii.compare x y) eqn:Exy; [| congruence |];
    destruct (Ascii.compare y z) eqn:Eyz; try congruence.
  - apply Ascii.compare_eq_iff in Exy, Eyz. subst.
    assert (E : Ascii.compare z z = Eq).
    { unfold Ascii.compare. apply N.compare_refl. }
    rewrite E. apply IH.
  - apply Ascii.compare_eq_iff in Exy. subst. now rewrite Eyz.
  - apply Ascii.compare_eq_iff in Eyz. subst. now rewrite Exy.
  - now rewrite (ascii_compare_trans _ _ _ _ Exy Eyz).
Qed.

Lemma key_le_alt a b : key_le a b <-> String.compare b a <> Lt.
Proof.
  unfold key_le, String.ltb. destruct (String.compare b a); split; congruence.
Qed.

Lemma key_le_trans a b c : key_le a b -> key_le b c -> key_le a c.
Proof.
  rewrite !key_le_alt. intros H1 H2.
  exact (string_compare_not_Lt_trans c b a H2 H1).
Qed.

Lemma key_lt_le a b : String.ltb a b = true -> key_le a b.
Proof.
  unfold key_le, String.ltb. rewrite (String.compare_antisym b a).
  destruct (String.compare a b); simpl; congruence.
Qed.

Lemma sorted_insert_perm {V} (p : string * V) l : sorted_insert p l ≡ₚ p :: l.
Proof.
  induction l as [| q l IH]; simpl; [reflexivity |].
  destruct (String.ltb (fst p) (fst q)); [reflexivity |].
  rewrite IH. apply Permutation_swap.
Qed.

Lemma sorted_by_first_perm {V} (l : list (string * V)) : sorted_by_first l ≡ₚ l.
Proof.
  unfold sorted_by_first.
  assert (H : forall acc,
            fold_left (fun acc p => sorted_insert p acc) l acc ≡ₚ acc ++ l).
  { induction l as [| p l IH]; intros acc; simpl.
    - now rewrite app_nil_r.
    - rewrite IH, sorted_insert_perm. simpl. apply Permutation_middle. }
  apply H.
Qed.

Lemma sorted_insert_sorted {V} (p : string * V) l :
  StronglySorted by_key l -> StronglySorted by_key (sorted_insert p l).
Proof.
  induction 1 as [| q l Hl IH Hq]; simpl.
  - repeat constructor.
  - destruct (String.ltb (fst p) (fst q)) eqn:E.
    + constructor; [now constructor |].
      apply key_lt_le in E. constructor; [exact E |].
      eapply Forall_impl; [exact Hq |]. intros r Hr.
      exact (key_le_trans _ _ _ E Hr).
    + constructor; [exact IH |].
      rewrite sorted_insert_perm. constructor; [exact E | exact Hq].
Qed.

Lemma sorted_by_first_sorted {V} (l : list (string * V)) :
  StronglySorted by_key (sorted_by_first l).
Proof.
  unfold sorted_by_first.
  assert (H : forall acc, StronglySorted by_key acc ->
            StronglySorted by_key
              (fold_left (fun acc p => sorted_insert p acc) l acc)).
  { induction l as [| p l IH]; intros acc Hacc; simpl; [exact Hacc |].
    apply IH. now apply sorted_insert_sorted. }
  apply H. constructor.
Qed.

Lemma sorted_keys {V} (l : list (string * V)) :
  StronglySorted by_key l -> StronglySorted key_le (map fst l).
Proof.
  induction 1 as [| p l _ IH Hp]; simpl; constructor; [exact IH |].
  apply Forall_fmap. exact Hp.
Qed.

(** X12: [sort_dict] gives a dict with the items of its argument, each as
    often as it was there, in the order of their keys: no key comes after
    a key that follows it. *)
Theorem sort_dict_sorts {O} (d : list (string * pyval O)) :
  exists d',
    sort_dict (PDict d) = PDict d'
    /\ d' ≡ₚ d
    /\ StronglySorted by_key d'.
Proof.
  exists (sorted_by_first d). split; [reflexivity |].
  split; [apply sorted_by_first_perm | apply sorted_by_first_sorted].
Qed.

(** ** The JSON of a Context, of a Binding and of a Keymap *)

Lemma rmap_app {A B} (f : A -> result B) l1 l2 ys1 ys2 :
  rmap f l1 = Ok ys1 -> rmap f l2 = Ok ys2 ->
  rmap f (l1 ++ l2) = Ok (ys1 ++ ys2).
Proof.
  revert ys1. induction l1 as [| x l1 IH]; intros ys1; simpl.
  - now intros [= <-].
  - intros E1 E2. apply rbind_Ok_inv in E1 as (y & Ey & E1).
    apply rbind_Ok_inv in E1 as (ys & Eys & [= <-]).
    rewrite Ey. simpl. rewrite (IH ys Eys E2). reflexivity.
Qed.

Lemma rmap_Forall2 {A B} (f : A -> result B) l :
  Forall (fun x => exists y, f x = Ok y) l ->
  exists ys, rmap f l = Ok ys /\ Forall2 (fun x y => f x = Ok y) l ys.
Proof.
  induction 1 as [| x l [y Hy] _ (ys & Hys & HF)].
  - exists []. split; [reflexivity | constructor].
  - exists (y :: ys). simpl. rewrite Hy. simpl. rewrite Hys.
    split; [reflexivity | now constructor].
Qed.

Lemma rmap_fmap {A B C} (f : B -> result C) (g : A -> B) l :
  rmap f (map g l) = rmap (fun x => f (g x)) l.
Proof.
  induction l as [| x l IH]; [reflexivity |]. simpl. now rewrite IH.
Qed.

Lemma rmap_ext {A B} (f g : A -> result B) l :
  Forall (fun x => f x = g x) l -> rmap f l = rmap g l.
Proof.
  induction 1 as [| x l Hx _ IH]; [reflexivity |]. simpl.
  now rewrite Hx, IH.
Qed.

Lemma kept_app {O} (col1 col2 : list (string * pyval O)) :
  kept (col1 ++ col2) = kept col1 ++ kept col2.
Proof.
  unfold kept, walk_values. now rewrite List.filter_app, map_app.
Qed.

Lemma dumps_members_app {O} (enc : O -> result json) col1 col2 ms1 ms2 :
  dumps_members enc col1 = Ok (JObj ms1) ->
  dumps_members enc col2 = Ok (JObj ms2) ->
  dumps_members enc (col1 ++ col2) = Ok (JObj (ms1 ++ ms2)).
Proof.
  unfold dumps_members. intros E1 E2.
  apply rbind_Ok_inv in E1 as (ys1 & E1 & [= <-]).
  apply rbind_Ok_inv in E2 as (ys2 & E2 & [= <-]).
  now rewrite (rmap_app _ _ _ _ _ E1 E2).
Qed.

(** One attribute through the encoder. *)
Lemma dumps_kept_one {O} (enc : O -> result json) a v j :
  dumps enc (iffy_dict_sort v) = Ok j ->
  dumps_members enc (kept [(a, v)])
  = Ok (JObj (if left_out v then [] else [(a, j)])).
Proof.
  intros Hj. unfold kept. simpl List.filter.
  destruct (left_out v); [reflexivity |].
  unfold dumps_members. simpl. now rewrite Hj.
Qed.

Lemma sorted_insert_fmap {V W} (f : V -> W) (p : string * V) l :
  sorted_insert (fst p, f (snd p)) (map (fun q => (fst q, f (snd q))) l)
  = map (fun q => (fst q, f (snd q))) (sorted_insert p l).
Proof.
  induction l as [| q l IH]; [reflexivity |]. simpl.
  destruct (String.ltb (fst p) (fst q)); [reflexivity |].
  simpl. now rewrite <- IH.
Qed.

Lemma sorted_by_first_fmap {V W} (f : V -> W) (l : list (string * V)) :
  sorted_by_first (map (fun q => (fst q, f (snd q))) l)
  = map (fun q => (fst q, f (snd q))) (sorted_by_first l).
Proof.
  unfold sorted_by_first.
  assert (H : forall acc,
            fold_left (fun acc p => sorted_insert p acc)
                      (map (fun q => (fst q, f (snd q))) l)
                      (map (fun q => (fst q, f (snd q))) acc)
            = map (fun q => (fst q, f (snd q)))
                  (fold_left (fun acc p => sorted_insert p acc) l acc)).
  { induction l as [| p l IH]; intros acc; [reflexivity |]. simpl.
    rewrite sorted_insert_fmap. apply IH. }
  apply (H []).
Qed.

Lemma iffy_dict_sort_lift {O} (v : pydata) :
  iffy_dict_sort (@lift_data O v) = lift_data (iffy_dict_sort v).
Proof.
  destruct v as [| | | | | | d | []]; try reflexivity.
  unfold iffy_dict_sort. simpl. now rewrite sorted_by_first_fmap.
Qed.

Lemma left_out_lift {O} (v : pydata) :
  left_out (@lift_data O v) = left_out v.
Proof. destruct v as [| | | | [| y l] | | [| y d] | []]; reflexivity. Qed.

(** Data encodes alike wherever it stands. *)
Lemma dumps_lift {O} (enc : O -> result json) (v : pydata) :
  dumps enc (lift_data v) = dumps_data v.
Proof.
  unfold dumps_data.
  induction v as [| b | n | s | l IH | l IH | d IH | o] using pyval_nested_ind;
    try reflexivity.
  - cbn [lift_data]. rewrite !dumps_PList, rmap_fmap.
    f_equal. apply rmap_ext, IH.
  - cbn [lift_data]. rewrite !dumps_PTuple, rmap_fmap.
    f_equal. apply rmap_ext, IH.
  - cbn [lift_data]. rewrite !dumps_PDict, rmap_fmap. cbn [fst snd].
    f_equal. apply rmap_ext.
    eapply Forall_impl; [exact IH |]. intros p Hp. cbn beta.
    f_equal. exact Hp.
  - destruct o.
Qed.

Lemma dumps_Context_members (c : Context) :
  exists j,
    dumps_data (iffy_dict_sort (operand c)) = Ok j
    /\ dumps_Context c
       = Ok (JObj ([("key", JStr (key c))]
                   ++ member "operator" (JStr <$> operator c)
                   ++ (if left_out (operand c) then [] else [("operand", j)])
                   ++ member "match_all" (JBool <$> match_all c))).
Proof.
  destruct (dumpable_data (fun o : Empty_set => match o with end)
              (iffy_dict_sort (operand c))) as [j Hj].
  exists j. split; [exact Hj |].
  destruct (default_Context_kept c) as [E _].
  unfold dumps_Context. rewrite E. cbn [rbind].
  change (attrs_of_Context c)
    with ([("key", PStr (key c))]
          ++ [("operator",
               match operator c with Some s => PStr s | None => PNone end)]
          ++ [("operand", operand c)]
          ++ [("match_all",
               match match_all c with Some b => PBool b | None => PNone end)]).
  rewrite !(kept_app (O := Empty_set)).
  repeat apply dumps_members_app.
  - reflexivity.
  - destruct (operator c); reflexivity.
  - now apply dumps_kept_one.
  - destruct (match_all c); reflexivity.
Qed.

Lemma dumps_Binding_members (h : heap) (B : Binding) :
  Forall (fun r => is_Some (contexts h !! r)) (context B) ->
  exists j js,
    dumps_data (iffy_dict_sort (args B)) = Ok j
    /\ Forall2 (fun r jc => exists C, contexts h !! r = Some C
                                      /\ dumps_Context C = Ok jc)
               (context B) js
    /\ dumps_Binding h B
       = Ok (JObj ([("keys", JArr (map JStr (keys B)))]
                   ++ member "command" (JStr <$> command B)
                   ++ (if left_out (args B) then [] else [("args", j)])
                   ++ match context B with
                      | [] => []
                      | _ :: _ => [("context", JArr js)]
                      end)).
Proof.
  intros Hctx.
  destruct (dumpable_data (fun o : Empty_set => match o with end)
              (iffy_dict_sort (args B))) as [j Hj].
  set (enc := fun c => match contexts h !! c with
                       | Some x => dumps_Context x
                       | None => Raise NoSuchObject
                       end).
  destruct (rmap_Forall2 enc (context B)) as (js & Ejs & Hjs).
  { eapply Forall_impl; [exact Hctx |]. intros r [C HC].
    destruct (dumps_Context_members C) as (jc & _ & EC).
    eexists. unfold enc. rewrite HC. exact EC. }
  exists j, js. split; [exact Hj |]. split.
  { eapply Forall2_impl; [exact Hjs |]. intros r jc. unfold enc.
    destruct (contexts h !! r) as [C |]; [| discriminate].
    intros EC. now exists C. }
  destruct (default_Binding_kept B) as [E _].
  unfold dumps_Binding. rewrite E. cbn [rbind]. fold enc.
  change (attrs_of_Binding B)
    with ([("keys", @PTuple cref (map PStr (keys B)))]
          ++ [("command",
               match command B with Some s => PStr s | None => PNone end)]
          ++ [("args", lift_data (args B))]
          ++ [("context", PList (map PObj (context B)))]).
  rewrite !(kept_app (O := cref)).
  repeat apply dumps_members_app.
  - unfold kept, dumps_members. cbn [List.filter left_out snd negb walk_values
      map fst rmap iffy_dict_sort isa_dict].
    now rewrite dumps_strings.
  - destruct (command B); reflexivity.
  - rewrite <- (left_out_lift (O := cref)). apply dumps_kept_one.
    now rewrite iffy_dict_sort_lift, dumps_lift.
  - destruct (context B) as [| r rs] eqn:EB; [reflexivity |].
    rewrite <- EB in *.
    replace (JObj [("context", JArr js)])
      with (JObj (if left_out (@PList cref (map PObj (context B)))
                  then [] else [("context", JArr js)]))
      by (now rewrite EB).
    apply dumps_kept_one. unfold iffy_dict_sort. cbn [isa_dict].
    rewrite dumps_PList, rmap_fmap.
    change (rmap (fun x => dumps enc (PObj x)) (context B))
      with (rmap enc (context B)).
    now rewrite Ejs.
Qed.

Lemma to_json_total (h : heap) (self : kref) (km : Keymap) :
  wf_heap h = true ->
  keymaps h !! self = Some km ->
  exists js,
    Keymap.to_json self h = Ok (JArr js, h)
    /\ Forall2 (fun b j => exists B, bindings h !! b = Some B
                                     /\ dumps_Binding h B = Ok j)
               (_bindings km) js.
Proof.
  intros Hwf Hself.
  set (f := fun b => match bindings h !! b with
                     | Some x => dumps_Binding h x
                     | None => Raise NoSuchObject
                     end).
  destruct (rmap_Forall2 f (_bindings km)) as (js & Ejs & Hjs).
  { apply Forall_forall. intros b Hb.
    pose proof (wf_heap_keymap_bindings h self km b Hwf Hself Hb) as Hlt.
    destruct (lookup_lt_is_Some_2 _ _ Hlt) as [B HB].
    destruct (dumps_Binding_members h B) as (j & js & _ & _ & EB).
    { apply Forall_forall. intros c Hc. apply lookup_lt_is_Some_2.
      exact (wf_heap_binding h b B c Hwf HB Hc). }
    eexists. unfold f. rewrite HB. exact EB. }
  exists js. split.
  - unfold Keymap.to_json. rewrite (bind_Ok _ _ _ _ _ (get_keymap_Ok _ _ _ Hself)).
    unfold jsonify_list. fold f. now rewrite Ejs.
  - eapply Forall2_impl; [exact Hjs |]. intros b j. unfold f.
    destruct (bindings h !! b) as [B |]; [| discriminate].
    intros EB. now exists B.
Qed.

(** X13: the JSON object of a condition is made of [key], then [operator]
    if one was set, then [operand] unless it is [None], an empty list or
    an empty dict (a dict operand with its keys sorted), then [match_all]
    if it was set, as the boolean [true] or [false]; a condition never
    fails to encode. *)
Theorem Context_json_members (c : Context) :
  exists j,
    dumps_data (iffy_dict_sort (operand c)) = Ok j
    /\ dumps_Context c
       = Ok (JObj ([("key", JStr (key c))]
                   ++ member "operator" (JStr <$> operator c)
                   ++ (if left_out (operand c) then [] else [("operand", j)])
                   ++ member "match_all" (JBool <$> match_all c))).
Proof. apply dumps_Context_members. Qed.

(** X14: the JSON object of a binding whose conditions are in the store is
    made of [keys], always, as the array of the key strings; then
    [command] if [to] has set one; then [args] unless they are empty,
    with the keys of the dict sorted; then [context] unless the binding
    has no condition, as the array of the JSON objects of its conditions
    in their order. *)
Theorem Binding_json_members (h : heap) (B : Binding) :
  Forall (fun r => is_Some (contexts h !! r)) (context B) ->
  exists j js,
    dumps_data (iffy_dict_sort (args B)) = Ok j
    /\ Forall2 (fun r jc => exists C, contexts h !! r = Some C
                                      /\ dumps_Context C = Ok jc)
               (context B) js
    /\ dumps_Binding h B
       = Ok (JObj ([("keys", JArr (map JStr (keys B)))]
                   ++ member "command" (JStr <$> command B)
                   ++ (if left_out (args B) then [] else [("args", j)])
                   ++ match context B with
                      | [] => []
                      | _ :: _ => [("context", JArr js)]
                      end)).
Proof. apply dumps_Binding_members. Qed.

Lemma Binding_json_members_witness :
  exists j js,
    dumps_data (iffy_dict_sort (PDict [("file", PStr "X")])) = Ok j
    /\ Forall2 (fun r jc => exists C, contexts sample_heap !! r = Some C
                                      /\ dumps_Context C = Ok jc)
               [0; 1] js
    /\ dumps_Binding sample_heap
         (mkBinding ["backspace"] (Some "run_macro_file")
                    (PDict [("file", PStr "X")]) [0; 1])
       = Ok (JObj ([("keys", JArr (map JStr ["backspace"]))]
                   ++ member "command" (JStr <$> Some "run_macro_file")
                   ++ (if left_out (PDict [("file", PStr "X")] : pydata)
                       then [] else [("args", j)])
                   ++ [("context", JArr js)])).
Proof.
  apply (Binding_json_members sample_heap
           (mkBinding ["backspace"] (Some "run_macro_file")
                      (PDict [("file", PStr "X")]) [0; 1])).
  repeat constructor; eexists; reflexivity.
Defined.

(** X15: the [args] of a binding that was given keyword arguments are
    emitted as a JSON object with the same keys, each as often as given,
    in sorted order. *)
Theorem args_emitted_in_key_order (h : heap) (B : Binding)
    (d : list (string * pydata)) :
  args B = PDict d ->
  d <> [] ->
  Forall (fun r => is_Some (contexts h !! r)) (context B) ->
  exists ms ms',
    dumps_Binding h B = Ok (JObj ms)
    /\ ("args", JObj ms') ∈ ms
    /\ map fst ms' ≡ₚ map fst d
    /\ StronglySorted key_le (map fst ms').
Proof.
  intros Hargs Hd Hctx.
  destruct (dumps_Binding_members h B Hctx) as (j & js & Hj & _ & E).
  rewrite Hargs in Hj, E.
  assert (Hout : left_out (PDict d : pydata) = false)
    by (destruct d; [contradiction | reflexivity]).
  rewrite Hout in E.
  unfold dumps_data, iffy_dict_sort in Hj. cbn [isa_dict sort_dict] in Hj.
  rewrite dumps_PDict in Hj. apply rbind_Ok_inv in Hj as (ms' & Hms' & [= <-]).
  apply rmap_fst in Hms'.
  eexists _, ms'. split; [exact E |]. split; [| split].
  - rewrite !elem_of_app. right. right. left. apply list_elem_of_singleton.
    reflexivity.
  - rewrite Hms'. apply fmap_Permutation, sorted_by_first_perm.
  - rewrite Hms'. apply sorted_keys, sorted_by_first_sorted.
Qed.

Lemma args_emitted_in_key_order_witness :
  exists ms ms',
    dumps_Binding sample_heap
      (mkBinding ["x"] (Some "noop")
                 (PDict [("z", PInt 1); ("o", PInt 2); ("a", PInt 3);
                         ("c", PInt 4)]) [])
    = Ok (JObj ms)
    /\ ("args", JObj ms') ∈ ms
    /\ map fst ms' ≡ₚ ["z"; "o"; "a"; "c"]
    /\ StronglySorted key_le (map fst ms').
Proof.
  apply (args_emitted_in_key_order sample_heap
           (mkBinding ["x"] (Some "noop")
                      (PDict [("z", PInt 1); ("o", PInt 2); ("a", PInt 3);
                              ("c", PInt 4)]) [])
           [("z", PInt 1); ("o", PInt 2); ("a", PInt 3); ("c", PInt 4)]).
  - reflexivity.
  - discriminate.
  - constructor.
Defined.

(** X16: [to_json] on a keymap of a store without dangling addresses never
    raises and changes nothing; it gives an array with, for each binding
    the keymap holds and in their order, the JSON object of that
    binding. *)
Theorem Keymap_to_json_total (h : heap) (self : kref) (km : Keymap) :
  wf_heap h = true ->
  keymaps h !! self = Some km ->
  exists js,
    Keymap.to_json self h = Ok (JArr js, h)
    /\ Forall2 (fun b j => exists B, bindings h !! b = Some B
                                     /\ dumps_Binding h B = Ok j)
               (_bindings km) js.
Proof. apply to_json_total. Qed.

Lemma Keymap_to_json_total_witness :
  exists js,
    Keymap.to_json 0 sample_heap_filled = Ok (JArr js, sample_heap_filled)
    /\ Forall2 (fun b j => exists B, bindings sample_heap_filled !! b = Some B
                                     /\ dumps_Binding sample_heap_filled B
                                        = Ok j)
               [0; 1] js.
Proof.
  exact (Keymap_to_json_total sample_heap_filled 0
           (mkKeymap (Some true) [2] [0; 1]) eq_refl eq_refl).
Defined.

(** X17: a keymap can be serialized after every [extend]: the two calls in
    a row succeed, and the array has one entry for each binding the
    keymap held and one for each binding of the flattened arguments. *)
Theorem extend_then_to_json (h : heap) (self : kref) (km : Keymap)
    (seq : list item) :
  wf_heap h = true ->
  forallb (wf_item h) seq = true ->
  keymaps h !! self = Some km ->
  exists flat js h',
    flatten_seq h seq = Ok flat
    /\ (do_ Keymap.extend self seq;
        Keymap.to_json self) h = Ok (JArr js, h')
    /\ length js = length (_bindings km) + length flat.
Proof.
  intros Hwf Hseq Hself.
  destruct (Keymap_extend_stores h self km seq Hwf Hseq Hself)
    as (flat & stored & h1 & Hflat & Hlen & Erun & Eext).
  destruct (Keymap_extend_wf h self km seq _ _ Hwf Hseq Hself Eext)
    as (Hwf2 & _ & _).
  destruct (preprocess_wf h self km seq stored h1 Hwf Hseq Hself Erun)
    as (_ & _ & _ & Hself1 & _).
  match type of Eext with _ = Ok (_, ?x) => set (h2 := x) in * end.
  assert (Hself2 : keymaps h2 !! self
            = Some (mkKeymap (_default_match_all km) (_common_context km)
                             (_bindings km ++ stored))).
  { unfold h2. cbn [keymaps]. apply list_lookup_insert_eq.
    eapply lookup_lt_Some, Hself1. }
  destruct (to_json_total h2 self _ Hwf2 Hself2) as (js & Ejs & Hjs).
  exists flat, js, h2. split; [exact Hflat |]. split.
  - now rewrite (bind_Ok _ _ _ _ _ Eext).
  - apply Forall2_length in Hjs. rewrite <- Hjs. cbn [_bindings].
    now rewrite length_app, Hlen.
Qed.

Lemma extend_then_to_json_witness :
  exists flat js h',
    flatten_seq sample_heap_filled [IBinding 1; IList [IKeymap 0]] = Ok flat
    /\ (do_ Keymap.extend 0 [IBinding 1; IList [IKeymap 0]];
        Keymap.to_json 0) sample_heap_filled = Ok (JArr js, h')
    /\ length js = length [0; 1] + length flat.
Proof.
  exact (extend_then_to_json sample_heap_filled 0
           (mkKeymap (Some true) [2] [0; 1])
           [IBinding 1; IList [IKeymap 0]] eq_refl eq_refl eq_refl).
Defined.

(** ** A binding that stands several times in one batch *)

(** X18: [deepcopy] copies an instance once however often it is met, so a
    binding passed several times in one batch is stored as one new
    instance that stands at each of its places, and
    [_apply_common_context] reaches that instance once per place: its
    context is the copies of the binding's own conditions followed by the
    common conditions as many times over as the binding was passed. *)
Theorem binding_passed_again_shares_copy (h : heap) (self : kref)
    (km : Keymap) (seq : list item) (flat : list bref) (b : bref)
    (B : Binding) :
  wf_heap h = true ->
  forallb (wf_item h) seq = true ->
  keymaps h !! self = Some km ->
  flatten_seq h seq = Ok flat ->
  bindings h !! b = Some B ->
  b ∈ flat ->
  exists stored h' s B' own,
    Keymap._preprocess self seq h = Ok (stored, h')
    /\ length (bindings h) <= s
    /\ (forall i, flat !! i = Some b -> stored !! i = Some s)
    /\ bindings h' !! s = Some B'
    /\ context B' = own ++ repeated (times b flat) (_common_context km)
    /\ length own = length (context B).
Proof.
  intros Hwf Hseq Hself Hflat HB Hb.
  pose proof (flatten_seq_valid h seq flat Hwf Hseq Hflat) as Hvalid.
  destruct (preprocess_stored self km seq flat h Hwf Hself Hflat Hvalid)
    as (h' & Erun & _ & _ & _ & Hstored).
  destruct (Hstored b B Hb HB) as (HB' & _ & _).
  pose proof (deepcopy_memo_of h seq) as Hm.
  set (m := deepcopy_memo h seq) in *. clearbody m.
  eexists _, h', (copy_binding m b), _, (map (copy_context m) (context B)).
  split; [exact Erun |].
  split; [apply (copy_binding_new m h Hm) |]. split.
  { intros i Hi. now rewrite list_lookup_fmap, Hi. }
  split; [exact HB' |]. split; [reflexivity | apply length_map].
Qed.

Lemma binding_passed_again_shares_copy_witness :
  exists stored h' s B' own,
    Keymap._preprocess 0 [IBinding 1; IList [IBinding 0; IBinding 1]]
      sample_heap = Ok (stored, h')
    /\ length (bindings sample_heap) <= s
    /\ (forall i, [1; 0; 1] !! i = Some 1 -> stored !! i = Some s)
    /\ bindings h' !! s = Some B'
    /\ context B' = own ++ repeated (times 1 [1; 0; 1]) [2]
    /\ length own = length ([] : list nat).
Proof.
  apply (binding_passed_again_shares_copy sample_heap 0
           (mkKeymap (Some true) [2] [])
           [IBinding 1; IList [IBinding 0; IBinding 1]] [1; 0; 1] 1
           (mkBinding ["super+k"] (Some "new_pane")
                      (PDict [("move", PBool false)]) [])
           eq_refl eq_refl eq_refl eq_refl eq_refl).
  apply (bool_decide_unpack _). exact I.
Defined.

(** ** What a keymap holds stays as it is *)

Lemma reached_with_default d C : reached d C = true -> with_default d C = C.
Proof.
  destruct C as [? ? ? [v |] ?]; [reflexivity |].
  destruct d; [discriminate | reflexivity].
Qed.

Lemma reached_after d C : reached d (with_default d C) = true.
Proof. destruct C as [? ? ? [v |] ?]; destruct d; reflexivity. Qed.

Lemma settled_iff h km :
  settled h km = true
  <-> forall b B c C,
        b ∈ _bindings km -> bindings h !! b = Some B ->
        c ∈ context B -> contexts h !! c = Some C ->
        reached (_default_match_all km) C = true.
Proof.
  unfold settled. rewrite forallb_elem_iff. split.
  - intros H b B c C Hb HB Hc HC. specialize (H b Hb). rewrite HB in H.
    pose proof (forallb_elem _ _ _ H Hc) as Hr. cbn beta in Hr.
    now rewrite HC in Hr.
  - intros H b Hb. destruct (bindings h !! b) as [B |] eqn:HB; [| reflexivity].
    apply forallb_elem_iff. intros c Hc.
    destruct (contexts h !! c) as [C |] eqn:HC; [| reflexivity].
    exact (H b B c C Hb HB Hc HC).
Qed.

Lemma mapM_same {A B} (f g : A -> option B) (l : list A) :
  (forall x, x ∈ l -> f x = g x) -> mapM f l = mapM g l.
Proof.
  induction l as [| x l IH]; intros H; [reflexivity |]. simpl.
  rewrite (H x) by apply list_elem_of_here.
  rewrite IH; [reflexivity |]. intros y Hy. apply H. now apply list_elem_of_further.
Qed.

Lemma extend_settled (h : heap) (self : kref) (km : Keymap)
    (seq : list item) :
  wf_heap h = true ->
  forallb (wf_item h) seq = true ->
  keymaps h !! self = Some km ->
  settled h km = true ->
  exists h' km',
    Keymap.extend self seq h = Ok (None, h')
    /\ keymaps h' !! self = Some km'
    /\ (forall b, b ∈ _bindings km -> view_Binding h' b = view_Binding h b)
    /\ wf_heap h' = true
    /\ settled h' km' = true.
Proof.
  intros Hwf Hseq Hself Hset.
  destruct (flatten_seq_wf h seq Hwf Hseq) as (flat & Hflat & Hvalid).
  destruct (preprocess_stored self km seq flat h Hwf Hself Hflat Hvalid)
    as (h1 & Erun & Hk & Hb & Hc & Hstored).
  destruct (preprocess_wf h self km seq _ h1 Hwf Hseq Hself Erun)
    as (_ & _ & _ & Hself1 & _).
  pose proof (proj1 (settled_iff h km) Hset) as Hreached.
  set (m := deepcopy_memo h seq) in *. clearbody m.
  assert (Eext : Keymap.extend self seq h
            = Ok (None,
                  mkHeap (contexts h1) (bindings h1)
                    (<[self := mkKeymap (_default_match_all km)
                                 (_common_context km)
                                 (_bindings km ++ map (copy_binding m) flat)]>
                       (keymaps h1)))).
  { unfold Keymap.extend. rewrite (bind_Ok _ _ _ _ _ Erun).
    now rewrite (bind_Ok _ _ _ _ _ (get_keymap_Ok _ _ _ Hself1)). }
  assert (Hsame : forall b B c, b ∈ _bindings km -> bindings h !! b = Some B ->
            c ∈ context B -> contexts h1 !! c = contexts h !! c).
  { intros b B c Hb' HB Hc'.
    destruct (lookup_lt_is_Some_2 _ _ (wf_heap_binding h b B c Hwf HB Hc'))
      as [C HC].
    rewrite HC. destruct (Hc c C HC) as [E | E]; [exact E |].
    now rewrite (reached_with_default _ C (Hreached b B c C Hb' HB Hc' HC)) in E. }
  assert (Hheld : forall b, b ∈ _bindings km ->
            exists B, bindings h !! b = Some B /\ bindings h1 !! b = Some B).
  { intros b Hb'.
    pose proof (wf_heap_keymap_bindings h self km b Hwf Hself Hb') as Hlt.
    destruct (lookup_lt_is_Some_2 _ _ Hlt) as [B HB].
    exists B. split; [exact HB |]. now rewrite Hb. }
  eexists _, _. split; [exact Eext |]. split.
  { cbn [keymaps]. apply list_lookup_insert_eq. eapply lookup_lt_Some, Hself1. }
  split; [| split].
  - intros b Hb'. destruct (Hheld b Hb') as (B & HB & HB1).
    unfold view_Binding. cbn [bindings contexts]. rewrite HB, HB1. simpl.
    rewrite (mapM_same _ (fun c => view_Context <$> contexts h !! c));
      [reflexivity |].
    intros c Hc'. now rewrite (Hsame b B c Hb' HB Hc').
  - exact (proj1 (Keymap_extend_wf h self km seq _ _ Hwf Hseq Hself Eext)).
  - apply settled_iff. cbn [_bindings _default_match_all bindings contexts].
    intros s S c C Hs HS Hc' HC. cbn [bindings contexts] in HS, HC.
    apply elem_of_app in Hs as [Hs | Hs].
    + destruct (Hheld s Hs) as (B & HB & HB1).
      assert (S = B) as -> by congruence.
      rewrite (Hsame s B c Hs HB Hc') in HC.
      exact (Hreached s B c C Hs HB Hc' HC).
    + apply list_elem_of_fmap in Hs as (b & -> & Hb').
      destruct (lookup_lt_is_Some_2 _ _ (Hvalid b Hb')) as [B HB].
      destruct (Hstored b B Hb' HB) as (HB' & Hown & Hcommon).
      rewrite HB' in HS. injection HS as <-. cbn [context] in Hc'.
      apply elem_of_app in Hc' as [Hc' | Hc'].
      * apply list_elem_of_fmap in Hc' as (c0 & -> & Hc0).
        destruct (lookup_lt_is_Some_2 _ _
                    (wf_heap_binding h b B c0 Hwf HB Hc0)) as [C0 HC0].
        rewrite (Hown c0 C0 Hc0 HC0) in HC. injection HC as <-.
        apply reached_after.
      * apply elem_of_repeated in Hc'.
        destruct (lookup_lt_is_Some_2 _ _
                    (wf_heap_keymap_common h self km c Hwf Hself Hc'))
          as [C0 HC0].
        rewrite (Hcommon c C0 Hc' HC0) in HC. injection HC as <-.
        apply reached_after.
Qed.

(** X19: [extend] does not change what the keymap already holds.  Once the
    keymap's default has reached every condition of its bindings, a
    further [extend] leaves each of these bindings, seen with its
    conditions, as it was; the store is again without dangling addresses
    and the default has again reached every condition of the bindings the
    keymap then holds, so that the same is true of the next [extend]. *)
Theorem extend_keeps_held_bindings (h : heap) (self : kref) (km : Keymap)
    (seq : list item) :
  wf_heap h = true ->
  forallb (wf_item h) seq = true ->
  keymaps h !! self = Some km ->
  settled h km = true ->
  exists h' km',
    Keymap.extend self seq h = Ok (None, h')
    /\ keymaps h' !! self = Some km'
    /\ (forall b, b ∈ _bindings km -> view_Binding h' b = view_Binding h b)
    /\ wf_heap h' = true
    /\ settled h' km' = true.
Proof. apply extend_settled. Qed.

(** A store in which the keymap holds a binding whose conditions all have
    their [match_all]. *)
Lemma extend_keeps_held_bindings_witness :
  exists h' km',
    Keymap.extend 0 [IBinding 0; IKeymap 0]
      (mkHeap [mkContext "selector" (Some "equal") (PStr "text.asciidoc")
                         (Some true) None;
               mkContext "preceding_text" None PNone None (Some 1)]
              [mkBinding ["super+k"] (Some "new_pane") (PDict []) [0];
               mkBinding ["backspace"] None (PList []) [1]]
              [mkKeymap (Some true) [0] [0]])
    = Ok (None, h')
    /\ keymaps h' !! 0 = Some km'
    /\ (forall b, b ∈ [0] ->
          view_Binding h' b
          = view_Binding
              (mkHeap [mkContext "selector" (Some "equal")
                                 (PStr "text.asciidoc") (Some true) None;
                       mkContext "preceding_text" None PNone None (Some 1)]
                      [mkBinding ["super+k"] (Some "new_pane") (PDict []) [0];
                       mkBinding ["backspace"] None (PList []) [1]]
                      [mkKeymap (Some true) [0] [0]]) b)
    /\ wf_heap h' = true
    /\ settled h' km' = true.
Proof.
  exact (extend_keeps_held_bindings
           (mkHeap [mkContext "selector" (Some "equal") (PStr "text.asciidoc")
                              (Some true) None;
                    mkContext "preceding_text" None PNone None (Some 1)]
                   [mkBinding ["super+k"] (Some "new_pane") (PDict []) [0];
                    mkBinding ["backspace"] None (PList []) [1]]
                   [mkKeymap (Some true) [0] [0]])
           0 (mkKeymap (Some true) [0] [0]) [IBinding 0; IKeymap 0]
           eq_refl eq_refl eq_refl eq_refl).
Defined.

Lemma new_keymap_wf (h : heap) (d : option bool) (cc : list cref) :
  wf_heap h = true ->
  forallb (fun c => c <? length (contexts h)) cc = true ->
  wf_heap (mkHeap (contexts h) (bindings h) (keymaps h ++ [mkKeymap d cc []]))
  = true.
Proof.
  intros Hwf Hcc.
  change (forallb (wf_Context h) (contexts h)
          && forallb (wf_Binding h) (bindings h)
          && forallb (wf_Keymap h) (keymaps h ++ [mkKeymap d cc []]) = true).
  unfold wf_heap in Hwf.
  apply andb_true_iff in Hwf as [Hwf Hk]. rewrite Hwf.
  rewrite forallb_app, Hk. simpl. unfold wf_Keymap. simpl.
  now rewrite Hcc.
Qed.

(** X20: a keymap is sound from its construction on: [__init__] leaves
    a store without dangling addresses as one, and the default of the new
    keymap has reached every condition of the bindings it holds, the
    common conditions among them. *)
Theorem Keymap_init_settled (h : heap) (seq : list item) (d : option bool)
    (cc : list cref) :
  wf_heap h = true ->
  forallb (wf_item h) seq = true ->
  forallb (fun c => c <? length (contexts h)) cc = true ->
  exists self h' km,
    Keymap.__init__ seq d cc h = Ok (self, h')
    /\ keymaps h' !! self = Some km
    /\ _default_match_all km = d
    /\ _common_context km = cc
    /\ wf_heap h' = true
    /\ settled h' km = true.
Proof.
  intros Hwf Hseq Hcc.
  set (h0 := mkHeap (contexts h) (bindings h) (keymaps h ++ [mkKeymap d cc []])).
  pose proof (new_keymap_wf h d cc Hwf Hcc) as Hwf0. fold h0 in Hwf0.
  assert (Hseq0 : forallb (wf_item h0) seq = true).
  { apply forallb_forall. intros x Hx. apply wf_item_more_keymaps.
    exact (proj1 (forallb_forall _ _) Hseq x Hx). }
  assert (Hself0 : keymaps h0 !! length (keymaps h) = Some (mkKeymap d cc []))
    by apply lookup_new.
  destruct (Keymap_init_stores h seq d cc Hwf Hseq Hcc)
    as (stored & h1 & Erun & Einit). fold h0 in Erun.
  destruct (extend_settled h0 _ _ seq Hwf0 Hseq0 Hself0 eq_refl)
    as (h' & km' & Eext & Hkm' & _ & Hwf' & Hset').
  destruct (Keymap_extend_stores h0 _ _ seq Hwf0 Hseq0 Hself0)
    as (flat & stored' & h1' & _ & _ & Erun' & Eext').
  rewrite Erun in Erun'. injection Erun' as <- <-.
  rewrite Eext in Eext'. injection Eext' as ->.
  cbn [_default_match_all _common_context _bindings app] in *.
  cbn [keymaps] in Hkm'.
  destruct (preprocess_wf h0 _ _ seq stored h1 Hwf0 Hseq0 Hself0 Erun)
    as (_ & _ & _ & Hself1 & _).
  rewrite list_lookup_insert_eq in Hkm' by (eapply lookup_lt_Some, Hself1).
  injection Hkm' as <-.
  eexists _, _, _. split; [exact Einit |].
  split; [apply list_lookup_insert_eq; eapply lookup_lt_Some, Hself1 |].
  split; [reflexivity |]. split; [reflexivity |].
  split; [exact Hwf' | exact Hset'].
Qed.

Lemma Keymap_init_settled_witness :
  exists self h' km,
    Keymap.__init__ [IBinding 0; IList [IBinding 1]] (Some false) [2; 1]
      sample_heap = Ok (self, h')
    /\ keymaps h' !! self = Some km
    /\ _default_match_all km = Some false
    /\ _common_context km = [2; 1]
    /\ wf_heap h' = true
    /\ settled h' km = true.
Proof.
  exact (Keymap_init_settled sample_heap [IBinding 0; IList [IBinding 1]]
           (Some false) [2; 1] eq_refl eq_refl eq_refl).
Defined.
